(** * formstate: the validation and aggregation engine

    A shallow embedding of [packages/core/src/composables/useForm.ts],
    [lib/createFields.ts], [lib/validation.ts] and [utils/cloneDeep.ts],
    followed by the properties of the engine that the specification states.

    JavaScript values are a first-order tree type; objects and arrays carry
    the reference they live at, because the engine compares some values
    with [!==].  Rule callables are state transformers over an arbitrary
    world [W] (whatever the callable closes over), and every invocation is
    logged, so that the number and the arguments of the invocations can be
    stated.  A promise is modelled by the way it eventually settles. *)

From Stdlib Require Import ZArith List String Bool Lia.
From stdpp Require Import base option list strings gmap.
Import ListNotations.
Local Open Scope string_scope.
Local Open Scope list_scope.

(* ===================================================================== *)
(** ** JavaScript values                                                  *)
(* ===================================================================== *)

(** How a promise eventually settles.  The reason of a rejection is left
    out: the engine never looks at it. *)
Inductive Settlement (A : Type) : Type :=
| Fulfills (a : A)
| Rejects
| NeverSettles.
Arguments Fulfills {A} a.
Arguments Rejects {A}.
Arguments NeverSettles {A}.

(** A value that is there at once, or the promise of one. *)
Inductive MaybeDeferred (A : Type) : Type :=
| Now (a : A)
| Later (p : Settlement A).
Arguments Now {A} a.
Arguments Later {A} p.

Set Warnings "-register-all".

(** Plain data, as rules receive and return it.  [ref] is the identity of
    an array or object: two of them are [===] exactly when it is the same
    reference.  The numbers are the integers and [NaN], the one value that
    is not [===] to itself. *)
Inductive Value : Type :=
| VUndefined
| VNull
| VBool (b : bool)
| VNum (n : Z)
| VNaN
| VStr (s : string)
| VArr (ref : nat) (items : list Value)
| VObj (ref : nat) (props : list (string * Value))
| VPromise (settles : Settlement Value)
| VFormRef.

(** An array literal whose identity nobody observes. *)
Definition arr (items : list Value) : Value := VArr 0 items.

(** [Array.isArray(v)] *)
Definition isArray (v : Value) : bool :=
  match v with VArr _ _ => true | _ => false end.

(** [typeof v === "object"] *)
Definition typeofObject (v : Value) : bool :=
  match v with
  | VNull | VArr _ _ | VObj _ _ | VPromise _ | VFormRef => true
  | _ => false
  end.

(** [v instanceof Promise] *)
Definition instanceofPromise (v : Value) : bool :=
  match v with VPromise _ => true | _ => false end.

(** [a === b]: primitives by value, arrays and objects by reference;
    [NaN] is equal to nothing.  Two promises are taken to be distinct
    objects. *)
Definition strictEq (a b : Value) : bool :=
  match a, b with
  | VUndefined, VUndefined => true
  | VNull, VNull => true
  | VBool x, VBool y => Bool.eqb x y
  | VNum x, VNum y => Z.eqb x y
  | VStr x, VStr y => String.eqb x y
  | VArr r1 _, VArr r2 _ => Nat.eqb r1 r2
  | VObj r1 _, VObj r2 _ => Nat.eqb r1 r2
  | VFormRef, VFormRef => true
  | _, _ => false
  end.

(** [xs.flat()]: one level of nested arrays is opened. *)
Definition flat (xs : list Value) : list Value :=
  flat_map (fun v => match v with VArr _ items => items | _ => [v] end) xs.

(* ===================================================================== *)
(** ** utils/cloneDeep.ts                                                 *)
(* ===================================================================== *)

(** [cloneDeep(value)].  Every array and object of the copy is a new
    reference, taken from the allocation counter [next]; anything that is
    not an object is returned as it is.  A promise has no own enumerable
    property, so its clone is an empty object.  This is the copy of
    ordinary data: for a record with an own property [hasOwnProperty] the
    code throws at [value.hasOwnProperty(key)], and for the key
    [__proto__] the assignment [clone[key] = ...] sets the prototype of
    the copy instead of a property; the statements about the content of a
    copy are about records without such keys ([ordinary], below). *)
Fixpoint cloneDeep (value : Value) (next : nat) : Value * nat :=
  match value with
  | VArr _ items =>
      let '(clone, next') :=
        (fix each (l : list Value) (n : nat) : list Value * nat :=
           match l with
           | [] => ([], n)
           | x :: rest =>
               let '(y, n1) := cloneDeep x n in
               let '(ys, n2) := each rest n1 in
               (y :: ys, n2)
           end) items (S next) in
      (VArr next clone, next')
  | VObj _ props =>
      let '(clone, next') :=
        (fix each (l : list (string * Value)) (n : nat)
           : list (string * Value) * nat :=
           match l with
           | [] => ([], n)
           | (key, x) :: rest =>
               let '(y, n1) := cloneDeep x n in
               let '(ys, n2) := each rest n1 in
               ((key, y) :: ys, n2)
           end) props (S next) in
      (VObj next clone, next')
  | VPromise _ => (VObj next [], S next)
  | VFormRef => (VObj next [], S next)
  | _ => (value, next)
  end.

(** Modelled from the spec: [utils/deepEqual.ts] is imported by
    [validation.ts] but is not among the sources; the specification calls
    it deep equality of plain data, so it is the structural comparison that
    ignores references.  The specification does not say how it compares
    [NaN]; here [NaN] is equal to nothing, as for [===], and the statements
    about [deepEqual] are about values that hold no [NaN]. *)
Fixpoint deepEqual (a b : Value) : bool :=
  match a, b with
  | VUndefined, VUndefined => true
  | VNull, VNull => true
  | VBool x, VBool y => Bool.eqb x y
  | VNum x, VNum y => Z.eqb x y
  | VStr x, VStr y => String.eqb x y
  | VArr _ xs, VArr _ ys =>
      (fix all2 (l : list Value) (r : list Value) : bool :=
         match l, r with
         | [], [] => true
         | x :: l', y :: r' => deepEqual x y && all2 l' r'
         | _, _ => false
         end) xs ys
  | VObj _ ps, VObj _ qs =>
      (fix all2 (l : list (string * Value)) (r : list (string * Value)) : bool :=
         match l, r with
         | [], [] => true
         | (k, x) :: l', (k', y) :: r' =>
             String.eqb k k' && deepEqual x y && all2 l' r'
         | _, _ => false
         end) ps qs
  | VPromise _, VPromise _ => true
  | VFormRef, VFormRef => true
  | _, _ => false
  end.

(* ===================================================================== *)
(** ** Validation results                                                 *)
(* ===================================================================== *)

Record InternalValidationResult : Type := {
  valid : bool;
  errors : list Value
}.

(** [mapErrors] of [createInternalValidationResults]. *)
Definition mapErrors (e : Value) : Value :=
  match e with
  | VBool false => VStr "not valid"
  | VBool true => VUndefined
  | _ => e
  end.

(** [errorFilter] of [createInternalValidationResults]. *)
Definition errorFilter (e : Value) : bool :=
  match e with
  | VUndefined | VNull => false
  | _ => true
  end.

Definition createInternalValidationResults (errs : Value)
  : InternalValidationResult :=
  let _errors :=
    match errs with
    | VArr _ items => List.filter errorFilter (map mapErrors items)
    | _ => List.filter errorFilter (map mapErrors [errs])
    end in
  {| valid := Nat.eqb (length _errors) 0; errors := _errors |}.

(** What one entry of the raw result contributes to the error list. *)
Definition contributes (e : Value) : list Value :=
  match e with
  | VBool true | VUndefined | VNull => []
  | VBool false => [VStr "not valid"]
  | _ => [e]
  end.

(** The entries of a raw result: those of a list, or the single value. *)
Definition rawEntries (raw : Value) : list Value :=
  match raw with
  | VArr _ items => items
  | _ => [raw]
  end.

(* ===================================================================== *)
(** ** Rules and their evaluation (lib/validation.ts)                     *)
(* ===================================================================== *)

Section Engine.

(** Everything a rule callable can observe and change besides its
    arguments. *)
Context {W : Type}.

(** The run of the program: the callables' world, the log of the
    invocations made so far, each with its positional arguments, and the
    next unused object reference. *)
Record Run : Type := {
  world : W;
  calls : list (list Value);
  nextRef : nat
}.

(** Effectful code threads the run. *)
Definition M (A : Type) : Type := Run -> A * Run.

Definition ret {A} (a : A) : M A := fun r => (a, r).

Definition bind {A B} (m : M A) (k : A -> M B) : M B :=
  fun r => let '(a, r') := m r in k a r'.

Notation "'let*' x ':=' m 'in' k" := (bind m (fun x => k))
  (at level 10, x name, m at level 100, k at level 200).

(** A rule callable: [isAsyncFunction] is
    [f.constructor.name === "AsyncFunction"]; [body] is what an invocation
    returns and does to the world.  A callable that throws is not
    modelled. *)
Record RuleFunction : Type := {
  isAsyncFunction : bool;
  body : list Value -> W -> Value * W
}.

(** [rule.rule(...callArguments)] *)
Definition invoke (f : RuleFunction) (callArguments : list Value) : M Value :=
  fun r =>
    let '(result, w') := body f callArguments (world r) in
    (result, {| world := w'; calls := calls r ++ [callArguments];
                nextRef := nextRef r |}).

(** [InternalRule]: both properties may be missing. *)
Record InternalRule : Type := {
  rule : option RuleFunction;
  autoValidate : option bool
}.

Definition processValidationObject (r : InternalRule)
    (callArguments : list Value) (shouldValidate promise : bool) : M Value :=
  let noAutoValidation :=
    negb (default true (autoValidate r)) && negb shouldValidate in
  let noPromiseValidation :=
    match rule r with
    | Some f => isAsyncFunction f
    | None => false
    end && negb promise in
  match rule r with
  | None => ret VUndefined
  | Some f =>
      if noAutoValidation || noPromiseValidation then ret VUndefined
      else
        let* result := invoke f callArguments in
        if instanceofPromise result && negb promise then ret VUndefined
        else invoke f callArguments
  end.

(** The gate of [processValidationObject]: the rule is evaluated. *)
Definition runs (r : InternalRule) (shouldValidate promise : bool) : Prop :=
  exists f, rule r = Some f
    /\ ~ (autoValidate r = Some false /\ shouldValidate = false)
    /\ ~ (isAsyncFunction f = true /\ promise = false).

(** What [await v] gives: a promise is followed to its settlement, any
    other value is there already. *)
Fixpoint awaitValue (v : Value) : Settlement Value :=
  match v with
  | VPromise (Fulfills v') => awaitValue v'
  | VPromise Rejects => Rejects
  | VPromise NeverSettles => NeverSettles
  | _ => Fulfills v
  end.

(** [Promise.all(xs)]: rejected as soon as one entry rejects, fulfilled
    with all the values once every entry is. *)
Fixpoint promiseAll (xs : list Value) : Settlement (list Value) :=
  match xs with
  | [] => Fulfills []
  | x :: rest =>
      match awaitValue x, promiseAll rest with
      | Rejects, _ => Rejects
      | _, Rejects => Rejects
      | NeverSettles, _ => NeverSettles
      | _, NeverSettles => NeverSettles
      | Fulfills v, Fulfills vs => Fulfills (v :: vs)
      end
  end.

(** [p.then(cb)] for a callback that returns a plain value. *)
Definition andThen {A B} (p : Settlement A) (cb : A -> B) : Settlement B :=
  match p with
  | Fulfills a => Fulfills (cb a)
  | Rejects => Rejects
  | NeverSettles => NeverSettles
  end.

(** [p.catch(handler)] for a handler that returns a plain value. *)
Definition orCatch {A} (p : Settlement A) (handler : unit -> A) : Settlement A :=
  match p with
  | Rejects => Fulfills (handler tt)
  | _ => p
  end.

Definition validationPromise (validation : list Value)
  : Settlement InternalValidationResult :=
  orCatch
    (andThen (promiseAll validation)
       (fun result => createInternalValidationResults (arr (flat result))))
    (fun _ => createInternalValidationResults (arr [])).

(** [xs.map(f)] for an effectful [f]: left to right. *)
Fixpoint mapM {A B} (f : A -> M B) (xs : list A) : M (list B) :=
  match xs with
  | [] => ret []
  | x :: rest =>
      let* y := f x in
      let* ys := mapM f rest in
      ret (y :: ys)
  end.

Record Options : Type := {
  promise : option bool;
  alwaysValidate : option bool
}.

Definition validateInternal (obj : option (list InternalRule))
    (validateFnArguments : list Value) (options : option Options)
  : M (MaybeDeferred InternalValidationResult) :=
  let promise := default false (options ≫= promise) in
  match obj with
  | None =>
      if promise then ret (Later (Fulfills {| valid := true; errors := [] |}))
      else ret (Now {| valid := true; errors := [] |})
  | Some rules =>
      let* results :=
        mapM (fun v =>
                processValidationObject v validateFnArguments
                  (default false (options ≫= alwaysValidate)) promise)
             rules in
      let validationResults := flat results in
      if promise then ret (Later (validationPromise validationResults))
      else ret (Now (createInternalValidationResults
                       (arr (flat validationResults))))
  end.

(** What [await x] resumes with. *)
Definition awaited {A} (x : MaybeDeferred A) : Settlement A :=
  match x with
  | Now a => Fulfills a
  | Later p => p
  end.

(* ===================================================================== *)
(** ** Rule normalization (lib/createFields.ts)                           *)
(* ===================================================================== *)

(** The shapes a rule list may hold: a bare callable, an object with a
    [rule] property, or nothing. *)
Inductive KindOfRule : Type :=
| BareFunction (f : RuleFunction)
| RuleObject (r : InternalRule)
| NoRule.

Definition createValidationObject (fn : option (list KindOfRule))
  : list InternalRule :=
  match fn with
  | None => []
  | Some fn =>
      let mapper (value : KindOfRule) : InternalRule :=
        match value with
        | RuleObject r => (* value?.hasOwnProperty("rule") *) r
        | BareFunction f => {| rule := Some f; autoValidate := None |}
        | NoRule => {| rule := None; autoValidate := None |}
        end in
      map mapper fn
  end.

(* ===================================================================== *)
(** ** Fields and the form state (useForm.ts)                             *)
(* ===================================================================== *)

(** [InternalField]: the public field record with its two hidden slots,
    [fieldRules] and [fieldPrevValue]. *)
Record Field : Type := {
  field_value : Value;
  field_name : string;
  fieldRules : list InternalRule;
  field_dirty : bool;
  field_touched : bool;
  field_valid : bool;
  field_focused : bool;
  field_errors : list Value;
  field_pending : bool;
  fieldPrevValue : Value
}.

(** An entry of [formState.fields]: one field, or the array-of-records
    variant, an array whose items are records of fields. *)
Inductive FieldEntry : Type :=
| Single (field : Field)
| Rows (rows : list (list (string * Field))).

(** [Array.isArray(field) && field.every(item => typeof item === "object"
    && item !== null)] *)
Definition isArrayField (entry : FieldEntry) : bool :=
  match entry with Rows _ => true | Single _ => false end.

(** An entry of the constructor's initial state: a bare value, or the
    descriptor [{value, rules}]. *)
Inductive FieldsInit : Type :=
| RawValue (v : Value)
| Descriptor (v : Value) (rules : option (list KindOfRule)).

(** The initial state as [Object.entries] lists it: the own properties in
    the order in which the object enumerates them. *)
Definition InitialFormState : Type := list (string * FieldsInit).

(** [InternalFormState]; the last three are the hidden flags and the token
    of the validation pass started last. *)
Record FormState : Type := {
  fields : list (string * FieldEntry);
  form_valid : bool;
  form_dirty : bool;
  form_touched : bool;
  form_errors : list Value;
  form_pending : bool;
  initialFields : InitialFormState;
  errorFields : list (string * option (list Value));
  formRules : list InternalRule;
  context : Value;
  formIgnoreDirty : bool;
  formIgnoreValidation : bool;
  formValidationLock : option string
}.

(** *** Assignments to one property *)

Definition setFieldResult (v : bool) (es : list Value) (f : Field) : Field :=
  {| field_value := field_value f; field_name := field_name f;
     fieldRules := fieldRules f; field_dirty := field_dirty f;
     field_touched := field_touched f; field_valid := v;
     field_focused := field_focused f; field_errors := es;
     field_pending := field_pending f; fieldPrevValue := fieldPrevValue f |}.

Definition setFieldPending (b : bool) (f : Field) : Field :=
  {| field_value := field_value f; field_name := field_name f;
     fieldRules := fieldRules f; field_dirty := field_dirty f;
     field_touched := field_touched f; field_valid := field_valid f;
     field_focused := field_focused f; field_errors := field_errors f;
     field_pending := b; fieldPrevValue := fieldPrevValue f |}.

Definition setFieldPrevValue (v : Value) (f : Field) : Field :=
  {| field_value := field_value f; field_name := field_name f;
     fieldRules := fieldRules f; field_dirty := field_dirty f;
     field_touched := field_touched f; field_valid := field_valid f;
     field_focused := field_focused f; field_errors := field_errors f;
     field_pending := field_pending f; fieldPrevValue := v |}.

Definition setFields (fl : list (string * FieldEntry)) (s : FormState)
  : FormState :=
  {| fields := fl; form_valid := form_valid s; form_dirty := form_dirty s;
     form_touched := form_touched s; form_errors := form_errors s;
     form_pending := form_pending s; initialFields := initialFields s;
     errorFields := errorFields s; formRules := formRules s;
     context := context s; formIgnoreDirty := formIgnoreDirty s;
     formIgnoreValidation := formIgnoreValidation s;
     formValidationLock := formValidationLock s |}.

Definition setFormErrors (es : list Value) (s : FormState) : FormState :=
  {| fields := fields s; form_valid := form_valid s;
     form_dirty := form_dirty s; form_touched := form_touched s;
     form_errors := es; form_pending := form_pending s;
     initialFields := initialFields s; errorFields := errorFields s;
     formRules := formRules s; context := context s;
     formIgnoreDirty := formIgnoreDirty s;
     formIgnoreValidation := formIgnoreValidation s;
     formValidationLock := formValidationLock s |}.

Definition setErrorFields (ef : list (string * option (list Value)))
    (s : FormState) : FormState :=
  {| fields := fields s; form_valid := form_valid s;
     form_dirty := form_dirty s; form_touched := form_touched s;
     form_errors := form_errors s; form_pending := form_pending s;
     initialFields := initialFields s; errorFields := ef;
     formRules := formRules s; context := context s;
     formIgnoreDirty := formIgnoreDirty s;
     formIgnoreValidation := formIgnoreValidation s;
     formValidationLock := formValidationLock s |}.

Definition setFormPending (b : bool) (s : FormState) : FormState :=
  {| fields := fields s; form_valid := form_valid s;
     form_dirty := form_dirty s; form_touched := form_touched s;
     form_errors := form_errors s; form_pending := b;
     initialFields := initialFields s; errorFields := errorFields s;
     formRules := formRules s; context := context s;
     formIgnoreDirty := formIgnoreDirty s;
     formIgnoreValidation := formIgnoreValidation s;
     formValidationLock := formValidationLock s |}.

Definition setFormIgnoreValidation (b : bool) (s : FormState) : FormState :=
  {| fields := fields s; form_valid := form_valid s;
     form_dirty := form_dirty s; form_touched := form_touched s;
     form_errors := form_errors s; form_pending := form_pending s;
     initialFields := initialFields s; errorFields := errorFields s;
     formRules := formRules s; context := context s;
     formIgnoreDirty := formIgnoreDirty s;
     formIgnoreValidation := b;
     formValidationLock := formValidationLock s |}.

Definition setFormValidationLock (lock : option string) (s : FormState)
  : FormState :=
  {| fields := fields s; form_valid := form_valid s;
     form_dirty := form_dirty s; form_touched := form_touched s;
     form_errors := form_errors s; form_pending := form_pending s;
     initialFields := initialFields s; errorFields := errorFields s;
     formRules := formRules s; context := context s;
     formIgnoreDirty := formIgnoreDirty s;
     formIgnoreValidation := formIgnoreValidation s;
     formValidationLock := lock |}.

(** *** Objects as ordered property lists *)

(** [obj[key]] *)
Fixpoint getProp {A} (key : string) (obj : list (string * A)) : option A :=
  match obj with
  | [] => None
  | (k, v) :: rest => if String.eqb k key then Some v else getProp key rest
  end.

(** [{...obj, [key]: v}]: an own key keeps its place, a new one goes last. *)
Fixpoint setProp {A} (key : string) (v : A) (obj : list (string * A))
  : list (string * A) :=
  match obj with
  | [] => [(key, v)]
  | (k, x) :: rest =>
      if String.eqb k key then (k, v) :: rest
      else (k, x) :: setProp key v rest
  end.

(** [obj[key] = g(obj[key])] when the key is there. *)
Fixpoint alterProp {A} (key : string) (g : A -> A) (obj : list (string * A))
  : list (string * A) :=
  match obj with
  | [] => []
  | (k, x) :: rest =>
      if String.eqb k key then (k, g x) :: rest
      else (k, x) :: alterProp key g rest
  end.

(** Where a field object lives in [formState.fields]. *)
Inductive FieldPath : Type :=
| Top (key : string)
| Nested (key : string) (row : nat) (sub : string).

Definition getField (path : FieldPath) (s : FormState) : option Field :=
  match path with
  | Top key =>
      match getProp key (fields s) with
      | Some (Single f) => Some f
      | _ => None
      end
  | Nested key i sub =>
      match getProp key (fields s) with
      | Some (Rows rows) => rows !! i ≫= getProp sub
      | _ => None
      end
  end.

(** A write to the field object at [path]. *)
Definition updateField (path : FieldPath) (g : Field -> Field) (s : FormState)
  : FormState :=
  match path with
  | Top key =>
      setFields
        (alterProp key
           (fun e => match e with Single f => Single (g f) | Rows _ => e end)
           (fields s)) s
  | Nested key i sub =>
      setFields
        (alterProp key
           (fun e =>
              match e with
              | Rows rows => Rows (alter (alterProp sub g) i rows)
              | Single _ => e
              end)
           (fields s)) s
  end.

(* ===================================================================== *)
(** ** Aggregation (lib/validation.ts)                                    *)
(* ===================================================================== *)

(** The fields that are not of the array variant come first, then the
    fields of every record of every array entry. *)
Definition plainFields (s : FormState) : list Field :=
  flat_map (fun e => match e with Single f => [f] | Rows _ => [] end)
    (map snd (fields s)).

Definition rowFields (s : FormState) : list Field :=
  flat_map (fun row => map snd row)
    (flat_map (fun e => match e with Rows rows => rows | Single _ => [] end)
       (map snd (fields s))).

Definition getAllFields (s : FormState) : list Field :=
  plainFields s ++ rowFields s.

(** The fields in the order the form declares them: every entry in its
    place, an array entry by its records' fields. *)
Definition declaredFields (s : FormState) : list Field :=
  flat_map (fun e =>
              match e with
              | Single f => [f]
              | Rows rows => flat_map (fun row => map snd row) rows
              end)
    (map snd (fields s)).

Fixpoint indexed {A} (i : nat) (xs : list A) : list (nat * A) :=
  match xs with
  | [] => []
  | x :: rest => (i, x) :: indexed (S i) rest
  end.

(** The same fields in the same order, each with the place it lives at. *)
Definition getAllFieldsAt (s : FormState) : list (FieldPath * Field) :=
  flat_map (fun '(key, e) =>
              match e with Single f => [(Top key, f)] | Rows _ => [] end)
    (fields s)
  ++ flat_map (fun '(key, e) =>
                 match e with
                 | Rows rows =>
                     flat_map (fun '(i, row) =>
                                 map (fun '(sub, f) => (Nested key i sub, f))
                                   row)
                       (indexed 0 rows)
                 | Single _ => []
                 end)
       (fields s).

Record FormValidationResult : Type := {
  fv_valid : bool;
  fv_errors : list Value;
  fv_errorFields : list (string * option (list Value))
}.

(** [!formState.value.fields[key].valid]: an array entry has no [valid]. *)
Definition entryInvalid (e : option FieldEntry) : bool :=
  match e with
  | Some (Single f) => negb (field_valid f)
  | _ => true
  end.

(** [formState.value.fields[key].errors]: an array entry has no [errors]. *)
Definition entryErrors (e : option FieldEntry) : option (list Value) :=
  match e with
  | Some (Single f) => Some (field_errors f)
  | _ => None
  end.

(** What the [reduce] of [collectErrors] adds for one key. *)
Definition errorFieldOf (fl : list (string * FieldEntry)) (key : string)
  : list (string * option (list Value)) :=
  if entryInvalid (getProp key fl)
  then [(key, entryErrors (getProp key fl))] else [].

Definition collectErrors (s : FormState)
    (validationResults : option InternalValidationResult)
  : FormValidationResult * FormState :=
  let fs := getAllFields s in
  let valid :=
    forallb field_valid fs && default true (valid <$> validationResults) in
  let errs :=
    flat_map field_errors fs ++ default [] (errors <$> validationResults) in
  let s1 := setFormErrors errs s in
  let errFields :=
    fold_left
      (fun acc key =>
         if entryInvalid (getProp key (fields s1))
         then setProp key (entryErrors (getProp key (fields s1))) acc
         else acc)
      (map fst (fields s1)) [] in
  let s2 := setErrorFields errFields s1 in
  ({| fv_valid := valid; fv_errors := errs; fv_errorFields := errFields |}, s2).

(* ===================================================================== *)
(** ** The validation coordinator (lib/validation.ts)                     *)
(* ===================================================================== *)

(** [cloneDeep] on the run's allocation counter. *)
Definition cloneDeepM (v : Value) : M Value :=
  fun r =>
    let '(clone, n) := cloneDeep v (nextRef r) in
    (clone, {| world := world r; calls := calls r; nextRef := n |}).

(** [createValidateFieldFunction(formState)].  [id] is what
    [generateRandomId()] returned; it becomes the form's current token, and
    the pass keeps it as [validationLockId]. *)
Definition createValidateFieldFunction (id : string) (s : FormState)
  : FormState :=
  setFormValidationLock (Some id) s.

(** The [validate] closure is an async function with one [await]:
<<
    field.pending = true;
    const validationResult = await validateInternal(rules,
      [field.value, field.name, formState], options);
    if (formState.value[formValidationLock] === validationLockId) {
      field.valid = validationResult.valid;
      field.errors = validationResult.errors;
    }
    field.pending = false;
    return validationResult;
>>
    [validate_begin] is what runs up to the [await]; [validate_resume] is
    what runs when the awaited promise has fulfilled with
    [validationResult], on the form state as it is by then. *)
Definition validate_begin (path : FieldPath) (field : Field)
    (rules : list InternalRule) (options : Options) (s : FormState)
  : M (Settlement InternalValidationResult * FormState) :=
  let s1 := updateField path (setFieldPending true) s in
  let* r := validateInternal (Some rules)
              [field_value field; VStr (field_name field); VFormRef]
              (Some options) in
  ret (awaited r, s1).

Definition validate_resume (path : FieldPath) (validationLockId : string)
    (validationResult : InternalValidationResult) (s : FormState)
  : FormState :=
  let s1 :=
    if bool_decide (formValidationLock s = Some validationLockId)
    then updateField path
           (setFieldResult (valid validationResult) (errors validationResult))
           s
    else s in
  updateField path (setFieldPending false) s1.

(** What [validateFormInternal(formState)(options)] returns: the aggregate
    at once, or the promise of the form rules' result whose [then] callback
    is [collectErrors]. *)
Inductive FormPass : Type :=
| Done (result : FormValidationResult)
| Awaiting (p : Settlement InternalValidationResult).

Definition validateFormInternal (options : option Options) (s : FormState)
  : M (FormPass * FormState) :=
  let promise := default false (options ≫= promise) in
  if formIgnoreValidation s then
    ret (Done {| fv_valid := true; fv_errors := []; fv_errorFields := [] |}, s)
  else
    let s1 := setFormPending true s in
    let* _isFormValid :=
      validateInternal (Some (formRules s1)) [VFormRef]
        (Some {| promise := Some promise; alwaysValidate := None |}) in
    match _isFormValid with
    | Later p => ret (Awaiting p, s1)
    | Now validationResults =>
        let '(result, s2) := collectErrors s1 (Some validationResults) in
        ret (Done result, s2)
    end.

(** The callback [cb] of [validateFormInternal], run when the form rules'
    promise has fulfilled. *)
Definition validateFormInternal_resume
    (validationResults : InternalValidationResult) (s : FormState)
  : FormValidationResult * FormState :=
  collectErrors s (Some validationResults).

(** The test of [unequalValues] in [validationWatcher]. *)
Definition isUnequal (field : Field) : M bool :=
  let v := field_value field in
  if negb (isArray v) || negb (typeofObject v) then
    ret (negb (strictEq v (fieldPrevValue field)))
  else
    let* clone := cloneDeepM v in
    ret (negb (deepEqual clone (fieldPrevValue field))).

(** [xs.filter(f)] for an effectful [f]. *)
Fixpoint filterM {A} (f : A -> M bool) (xs : list A) : M (list A) :=
  match xs with
  | [] => ret []
  | x :: rest =>
      let* keep := f x in
      let* kept := filterM f rest in
      ret (if keep then x :: kept else kept)
  end.

(** A pass waiting for its fields: each with the promise of its result. *)
Definition Pending : Type :=
  list (FieldPath * Settlement InternalValidationResult).

(** The [promise] callback of [validationWatcher], up to its [await]. *)
Definition watcherPromise (at_field : FieldPath * Field)
    (acc : Pending * FormState) : M (Pending * FormState) :=
  let '(path, field) := at_field in
  let '(waiting, s) := acc in
  let* clone := cloneDeepM (field_value field) in
  let s1 := updateField path (setFieldPrevValue clone) s in
  if formIgnoreValidation s1 then ret (waiting, s1)
  else
    let* started :=
      validate_begin path field (fieldRules field)
        {| promise := Some true; alwaysValidate := Some false |} s1 in
    ret (waiting ++ [(path, fst started)], snd started).

Fixpoint foldM {A B} (f : A -> B -> M B) (xs : list A) (b : B) : M B :=
  match xs with
  | [] => ret b
  | x :: rest => let* b' := f x b in foldM f rest b'
  end.

(** [validationWatcher(formState)()] up to [await Promise.all(...)]: the
    changed fields are chosen and the validation of each is started. *)
Definition validationWatcher_begin (id : string) (s : FormState)
  : M (list (FieldPath * Field) * Pending * FormState) :=
  let fs := getAllFieldsAt s in
  let s1 := createValidateFieldFunction id s in
  let* unequalValues := filterM (fun pf => isUnequal (snd pf)) fs in
  let s2 := setFormPending true s1 in
  let* started := foldM watcherPromise unequalValues ([], s2) in
  ret (unequalValues, fst started, snd started).

(** ... and after [await validateFormInternal(formState)({promise: true})]. *)
Definition validationWatcher_end (s : FormState) : FormState :=
  setFormIgnoreValidation false (setFormPending false s).

(** [validateForm(formState)()] up to [await Promise.all(...)]: every
    field is validated, whether it changed or not. *)
Definition validateForm_begin (id : string) (s : FormState)
  : M (Pending * FormState) :=
  let s1 := createValidateFieldFunction id s in
  let s2 := setFormPending true s1 in
  foldM (fun '(path, field) '(waiting, s) =>
           let* started :=
             validate_begin path field (fieldRules field)
               {| promise := Some true; alwaysValidate := Some true |} s in
           ret (waiting ++ [(path, fst started)], snd started))
        (getAllFieldsAt s) ([], s2).

(** [validateField(formState, field)(validationFunction)] up to its first
    [await]: the field's own rules, or the given ones, always validated. *)
Definition validateField_begin (id : string) (path : FieldPath) (field : Field)
    (validationFunction : option (list KindOfRule)) (s : FormState)
  : M (Settlement InternalValidationResult * FormState) :=
  let rules :=
    match validationFunction with
    | Some fn => createValidationObject (Some fn)
    | None => fieldRules field
    end in
  let s1 := createValidateFieldFunction id s in
  let s2 := setFormPending true s1 in
  validate_begin path field rules
    {| promise := Some true; alwaysValidate := Some true |} s2.

(** *** Interleavings

    Between two [await]s nothing else runs; what happens to the form state
    is a sequence of these events.  A settlement carries the token its
    pass captured when it started. *)
Inductive Event : Type :=
| PassStarts (id : string)
| FieldSettles (validationLockId : string) (path : FieldPath)
    (validationResult : InternalValidationResult)
| FormSettles (validationLockId : string)
    (validationResults : InternalValidationResult).

Definition step (s : FormState) (e : Event) : FormState :=
  match e with
  | PassStarts id => createValidateFieldFunction id s
  | FieldSettles validationLockId path validationResult =>
      validate_resume path validationLockId validationResult s
  | FormSettles _ validationResults =>
      snd (validateFormInternal_resume validationResults s)
  end.

Definition steps (s : FormState) (es : list Event) : FormState :=
  fold_left step es s.

(** The validation state of a field: [valid] and [errors]. *)
Definition validation (o : option Field) : option (bool * list Value) :=
  (fun f => (field_valid f, field_errors f)) <$> o.

(** A field result that arrives with a token other than the current one. *)
Definition staleFieldResult (lock : option string) (e : Event) : Prop :=
  match e with
  | FieldSettles validationLockId _ _ => lock <> Some validationLockId
  | _ => False
  end.

(* ===================================================================== *)
(** ** Construction (useForm.ts, lib/createFields.ts)                     *)
(* ===================================================================== *)

(** What [getInitState] leaves under a key: [{value}] or the spread
    descriptor [{value, rules}]. *)
Record FieldInit : Type := {
  init_value : Value;
  init_rules : option (list KindOfRule)
}.

(** What construction can throw: its three errors, the [TypeError] of
    reading [store.value] while [store] is undefined, and the [TypeError]
    of calling a [hasOwnProperty] that is no function. *)
Inductive Thrown : Type :=
| FormDoesNotExist (formName : string)
| ReservedKey (key : string)
| NoInitialState
| StoreUndefined
| NotAFunction.

(** The property names of [Object.prototype]: what every plain object
    inherits. *)
Definition objectPrototypeKeys : list string :=
  ["constructor"; "__defineGetter__"; "__defineSetter__"; "hasOwnProperty";
   "__lookupGetter__"; "__lookupSetter__"; "isPrototypeOf";
   "propertyIsEnumerable"; "toString"; "valueOf"; "__proto__";
   "toLocaleString"].

(** [Boolean(v)] *)
Definition truthy (v : Value) : bool :=
  match v with
  | VUndefined | VNull | VNaN => false
  | VBool b => b
  | VNum n => negb (Z.eqb n 0)
  | VStr t => negb (String.eqb t "")
  | _ => true
  end.

Definition reservedKeys : list string := ["formState"; "values"; "context"].

(** [reservedKeys.includes(key)] *)
Definition includes (keys : list string) (key : string) : bool :=
  existsb (String.eqb key) keys.

(** [value?.hasOwnProperty("value")] is a call: on an object whose own
    property [hasOwnProperty] is data it throws. *)
Definition shadowsHasOwnProperty (value : FieldsInit) : bool :=
  match value with
  | RawValue (VObj _ props) =>
      bool_decide (is_Some (getProp "hasOwnProperty" props))
  | _ => false
  end.

(** The callback of the [reduce] in [getInitState].  A raw value that is
    an object with an own [value] property is spread like a descriptor.
    Its other properties are spread with it; the library reads none of
    them but [rules], and what an own [rules] property of such an object
    leads to (it is data, not a list of callables) is not part of the
    model: the statements are about raw objects without it. *)
Definition initEntry (value : FieldsInit) : FieldInit :=
  match value with
  | Descriptor v rules => {| init_value := v; init_rules := rules |}
  | RawValue (VObj ref props) =>
      match getProp "value" props with
      | Some v => {| init_value := v; init_rules := None |}
      | None => {| init_value := VObj ref props; init_rules := None |}
      end
  | RawValue v => {| init_value := v; init_rules := None |}
  end.

Fixpoint getInitStateFields (entries : InitialFormState)
    (acc : list (string * FieldInit)) : Thrown + list (string * FieldInit) :=
  match entries with
  | [] => inr acc
  | (key, value) :: rest =>
      if includes reservedKeys key then inl (ReservedKey key)
      else if shadowsHasOwnProperty value then inl NotAFunction
      else getInitStateFields rest (setProp key (initEntry value) acc)
  end.

Definition getInitState (initState : option InitialFormState)
  : Thrown + list (string * FieldInit) :=
  match initState with
  | Some entries => getInitStateFields entries []
  | None => inl NoInitialState
  end.

(** [createField(key, field, formState)] *)
Definition createField (key : string) (field : FieldInit) : M Field :=
  let* prev := cloneDeepM (init_value field) in
  ret {| field_value := init_value field;
         field_name := key;
         fieldRules := createValidationObject (init_rules field);
         field_dirty := false;
         field_touched := false;
         field_valid := true;
         field_focused := false;
         field_errors := [];
         field_pending := false;
         fieldPrevValue := prev |}.

(** [createFields(formState)] on what [getInitState] built: no entry of it
    is an array, so each is one field. *)
Definition createFields (init : list (string * FieldInit))
  : M (list (string * FieldEntry)) :=
  mapM (fun '(key, field) =>
          let* f := createField key field in ret (key, Single f))
       init.

(** [cloneDeep(initState)]: the values are copied, the callables are not. *)
Definition cloneInitState (init : InitialFormState) : M InitialFormState :=
  mapM (fun '(key, entry) =>
          match entry with
          | RawValue v => let* c := cloneDeepM v in ret (key, RawValue c)
          | Descriptor v rules =>
              let* c := cloneDeepM v in ret (key, Descriptor c rules)
          end)
       init.

(** The [Options] of [useForm]. *)
Record FormOptions : Type := {
  opt_context : option Value;
  opt_formRules : option (list KindOfRule)
}.

(** The three signatures of [useForm]. *)
Inductive UseFormCall : Type :=
| ReuseNamed (formName : string)
| InitAnonymous (initState : option InitialFormState)
    (options : option FormOptions)
| InitNamed (formName : string) (initState : option InitialFormState)
    (options : option FormOptions).

(** [const [formName, initState, options] = args], after the
    [args.unshift(undefined)] of a call without a name. *)
Definition callArgs (c : UseFormCall)
  : option string * option InitialFormState * option FormOptions :=
  match c with
  | ReuseNamed n => (Some n, None, None)
  | InitAnonymous i o => (None, i, o)
  | InitNamed n i o => (Some n, i, o)
  end.

(** The module's two variables: [isServer], and [store], the registry of
    named forms, which is undefined until [setStore] is called.  The
    registry is a plain object: [store] holds its own properties, and
    [storeProto] the handle that an assignment to [__proto__] has made its
    prototype, if there was one; otherwise its prototype is
    [Object.prototype]. *)
Record Env : Type := {
  isServer : bool;
  store : option (gmap string FormState);
  storeProto : option FormState
}.

Definition setStore (reg : gmap string FormState) (env : Env) : Env :=
  {| isServer := isServer env; store := Some reg; storeProto := None |}.

(** What [store.value[formName]] finds: the handle of a form, or, for a
    name that the registry object inherits, the member of that name. *)
Inductive Found : Type :=
| Form (s : FormState)
| Member (name : string).

(** What a call of [useForm] gives when it does not give a form: an error
    thrown, or the inherited member that the registry answered with. *)
Inductive NoForm : Type :=
| Throws (e : Thrown)
| Inherited (name : string).

(** The own properties of a handle besides [context] and the fields. *)
Definition handleMembers : list string :=
  ["formState"; "values"; "setRules"; "setFields"; "validateForm";
   "resetForm"].

(** [store.value[formName]], when it is truthy: an own property, or what
    the prototype chain of the registry gives. *)
Definition readStore (reg : gmap string FormState) (proto : option FormState)
    (formName : string) : option Found :=
  match reg !! formName with
  | Some _state => Some (Form _state)
  | None =>
      if String.eqb formName "__proto__" then
        Some (match proto with
              | Some handle => Form handle
              | None => Member formName
              end)
      else
        match proto with
        | Some handle =>
            if includes handleMembers formName
               || bool_decide (is_Some (getProp formName (fields handle)))
            then Some (Member formName)
            else if String.eqb formName "context" then
              if truthy (context handle) then Some (Member formName) else None
            else if includes objectPrototypeKeys formName
            then Some (Member formName) else None
        | None =>
            if includes objectPrototypeKeys formName
            then Some (Member formName) else None
        end
  end.

(** [if (formName) store.value[formName] = returnValue]: nothing is done
    for no name or the empty name; a name with no store is a [TypeError]. *)
Definition canRegister (formName : option string) (env : Env) : bool :=
  match formName with
  | Some name => String.eqb name "" || bool_decide (is_Some (store env))
  | None => true
  end.

(** The assignment creates or replaces an own property, but for the name
    [__proto__] that is not an own property yet: that assignment makes the
    handle the prototype of the registry. *)
Definition registerForm (formName : option string) (s : FormState) (env : Env)
  : Env :=
  match formName, store env with
  | Some name, Some reg =>
      if String.eqb name "" then env
      else if String.eqb name "__proto__"
              && negb (bool_decide (is_Some (reg !! name)))
      then {| isServer := isServer env; store := Some reg;
              storeProto := Some s |}
      else {| isServer := isServer env; store := Some (<[name := s]> reg);
              storeProto := storeProto env |}
  | _, _ => env
  end.

(** The form state as [useForm] leaves it. *)
Definition newFormState (fl : list (string * FieldEntry))
    (snapshot : InitialFormState) (options : option FormOptions) : FormState :=
  {| fields := fl;
     form_valid := true;
     form_dirty := false;
     form_touched := false;
     form_errors := [];
     form_pending := false;
     initialFields := snapshot;
     errorFields := [];
     formRules := createValidationObject (options ≫= opt_formRules);
     context := default (VObj 0 []) (options ≫= opt_context);
     formIgnoreDirty := false;
     formIgnoreValidation := false;
     formValidationLock := None |}.

(** [useForm(...args)].  The handle it returns is the form state; the
    registry holds the handle under the form's name. *)
Definition useForm (c : UseFormCall) (env : Env)
  : M ((NoForm + FormState) * Env) :=
  let '(formName, initState, options) := callArgs c in
  let shouldUseState := bool_decide (is_Some formName) in
  let env1 :=
    if negb (isServer env) && negb (bool_decide (is_Some (store env)))
       && shouldUseState
    then setStore ∅ env else env in
  match initState, formName with
  | None, Some name =>
      match store env1 with
      | None => ret (inl (Throws StoreUndefined), env1)
      | Some reg =>
          match readStore reg (storeProto env1) name with
          | None => ret (inl (Throws (FormDoesNotExist name)), env1)
          | Some (Form _state) => ret (inr _state, env1)
          | Some (Member member) => ret (inl (Inherited member), env1)
          end
      end
  | _, _ =>
      match getInitState initState with
      | inl e => ret (inl (Throws e), env1)
      | inr transformedInitState =>
          let* snapshot := cloneInitState (default [] initState) in
          if negb (canRegister formName env1) then
            ret (inl (Throws StoreUndefined), env1)
          else
            let* fl := createFields transformedInitState in
            let s := newFormState fl snapshot options in
            ret (inr s, registerForm formName s env1)
      end
  end.

(** The initial state uses one of the reserved key names. *)
Definition usesReservedKey (init : InitialFormState) : Prop :=
  exists key, In key (map fst init) /\ In key reservedKeys.


(** What a call of [useForm] throws, if it throws. *)
Definition thrown (c : UseFormCall) (env : Env) (run : Run) : option Thrown :=
  match fst (fst (useForm c env run)) with
  | inl (Throws e) => Some e
  | _ => None
  end.


End Engine.

(* ===================================================================== *)
(** ** Sample forms                                                       *)
(* ===================================================================== *)

(** A field as [createField] leaves it, with the given validity. *)
Definition sampleField {W} (name : string) (value : Value) (ok : bool)
    (errs : list Value) : @Field W :=
  {| field_value := value; field_name := name; fieldRules := [];
     field_dirty := false; field_touched := false; field_valid := ok;
     field_focused := false; field_errors := errs; field_pending := false;
     fieldPrevValue := value |}.

(** A form as [useForm] leaves it, over the given fields. *)
Definition sampleForm {W} (fl : list (string * @FieldEntry W)) : @FormState W :=
  newFormState fl [] None.

(** The form of the tests of [collectErrors]: two invalid fields. *)
Definition twoInvalidFields : @FormState unit :=
  sampleForm
    [("input1", Single (sampleField "input1" (VStr "hello") false
                          [VStr "error1"; VStr "error2"]));
     ("input2", Single (sampleField "input2" (VStr "world") false
                          [VStr "error3"]))].

(** An array-of-records entry declared before a plain field. *)
Definition rowsThenPlain : @FormState unit :=
  sampleForm
    [("items", Rows [[("name", sampleField "name" (VStr "") false
                                  [VStr "e1"])]]);
     ("title", Single (sampleField "title" (VStr "") false [VStr "e2"]))].

(** A form with one valid field and no rule. *)
Definition oneFieldForm : @FormState unit :=
  sampleForm [("someInput", Single (sampleField "someInput" (VStr "") true []))].

(** A run that has not started yet.  Reference 0 is left to the objects
    the caller passes in. *)
Definition freshRun {W} (w : W) : @Run W :=
  {| world := w; calls := []; nextRef := 1 |}.

(** An async form rule whose answer depends on when it is asked: its
    first two invocations resolve to "E1", the later ones to "E2". *)
Definition agingRule : @RuleFunction nat :=
  {| isAsyncFunction := true;
     body := fun _ n =>
               (VPromise (Fulfills (VStr (if Nat.ltb n 2 then "E1" else "E2"))),
                S n) |}.

Definition agingForm : @FormState nat :=
  newFormState
    [("someInput", Single (sampleField "someInput" (VStr "") true []))]
    []
    (Some {| opt_context := None;
             opt_formRules := Some [BareFunction agingRule] |}).

(** A rule that counts its invocations and reports "some error". *)
Definition countingRule : @RuleFunction nat :=
  {| isAsyncFunction := false;
     body := fun _ n => (VStr "some error", S n) |}.

(** A rule whose first invocation returns a value and whose second
    returns a promise. *)
Definition laterPromiseRule : @RuleFunction nat :=
  {| isAsyncFunction := false;
     body := fun _ n =>
               (if Nat.eqb n 0 then VStr "some error"
                else VPromise (Fulfills (VStr "some error")),
                S n) |}.

(** The client, before any named form: no store yet. *)
Definition client {W} : @Env W :=
  {| isServer := false; store := None; storeProto := None |}.


(** A field whose value is a plain object, with one rule. *)
Definition addressInit : @InitialFormState nat :=
  [("address",
    Descriptor (VObj 0 [("street", VStr "Main St")])
      (Some [BareFunction countingRule]))].

(* ===================================================================== *)
(** ** What a value holds and refers to                                  *)
(* ===================================================================== *)

(** The references of the arrays and objects of a value, the outer one
    first. *)
Fixpoint refs (v : Value) : list nat :=
  match v with
  | VArr ref items =>
      ref :: (fix each (l : list Value) : list nat :=
                match l with
                | [] => []
                | x :: rest => refs x ++ each rest
                end) items
  | VObj ref props =>
      ref :: (fix each (l : list (string * Value)) : list nat :=
                match l with
                | [] => []
                | (_, x) :: rest => refs x ++ each rest
                end) props
  | VPromise (Fulfills x) => refs x
  | _ => []
  end.

(** A value with its references forgotten: what is left is its content. *)
Fixpoint eraseRefs (v : Value) : Value :=
  match v with
  | VArr _ items => VArr 0 (map eraseRefs items)
  | VObj _ props => VObj 0 (map (fun kv => (fst kv, eraseRefs (snd kv))) props)
  | VPromise (Fulfills x) => VPromise (Fulfills (eraseRefs x))
  | _ => v
  end.

(** Plain data: primitives, arrays and records of them; no promise and no
    form handle anywhere. *)
Fixpoint plainData (v : Value) : bool :=
  match v with
  | VArr _ items => forallb plainData items
  | VObj _ props => forallb (fun kv => plainData (snd kv)) props
  | VPromise _ | VFormRef => false
  | _ => true
  end.

(** [value.map(cloneDeep)] of [cloneDeep]. *)
Fixpoint cloneItems (l : list Value) (n : nat) : list Value * nat :=
  match l with
  | [] => ([], n)
  | x :: rest =>
      let '(y, n1) := cloneDeep x n in
      let '(ys, n2) := cloneItems rest n1 in
      (y :: ys, n2)
  end.

(** The [for (let key in value)] loop of [cloneDeep]. *)
Fixpoint cloneProps (l : list (string * Value)) (n : nat)
  : list (string * Value) * nat :=
  match l with
  | [] => ([], n)
  | (key, x) :: rest =>
      let '(y, n1) := cloneDeep x n in
      let '(ys, n2) := cloneProps rest n1 in
      ((key, y) :: ys, n2)
  end.

(** The references of a list of values, in order. *)
Definition refsOf (l : list Value) : list nat := flat_map refs l.

(** The loop of [deepEqual] over two arrays. *)
Fixpoint deepEqualItems (l r : list Value) : bool :=
  match l, r with
  | [], [] => true
  | x :: l', y :: r' => deepEqual x y && deepEqualItems l' r'
  | _, _ => false
  end.

(** The loop of [deepEqual] over the properties of two objects. *)
Fixpoint deepEqualProps (l r : list (string * Value)) : bool :=
  match l, r with
  | [], [] => true
  | (k, x) :: l', (k', y) :: r' =>
      String.eqb k k' && deepEqual x y && deepEqualProps l' r'
  | _, _ => false
  end.

(** [Promise.all] of two lists put end to end, from the two outcomes. *)
Definition bothSettle {A} (p q : Settlement (list A)) : Settlement (list A) :=
  match p, q with
  | Rejects, _ => Rejects
  | _, Rejects => Rejects
  | NeverSettles, _ => NeverSettles
  | _, NeverSettles => NeverSettles
  | Fulfills x, Fulfills y => Fulfills (x ++ y)
  end.

(** What is left of a list of awaited rule results as errors. *)
Definition contributed (results : list Value) : list Value :=
  flat_map contributes (flat results).

(** An error entry as the engine leaves it: not [undefined], not [null],
    not a boolean. *)
Definition isErrorValue (e : Value) : Prop :=
  e <> VUndefined /\ e <> VNull /\ forall b, e <> VBool b.

(** A validation result in which [valid] says that there is no error. *)
Definition consistentResult (r : InternalValidationResult) : Prop :=
  (valid r = true <-> errors r = []) /\ Forall isErrorValue (errors r).

(** No [NaN] anywhere in the value. *)
Fixpoint noNaN (v : Value) : bool :=
  match v with
  | VNaN => false
  | VArr _ items => forallb noNaN items
  | VObj _ props => forallb (fun kv => noNaN (snd kv)) props
  | VPromise (Fulfills x) => noNaN x
  | _ => true
  end.

(** Ordinary data: no record in the value has an own property whose name
    is a property name of [Object.prototype].  For such a name the code
    reads or writes the inherited member in places ([clone[key] = ...] of
    [cloneDeep] sets the prototype for the key [__proto__], and
    [value.hasOwnProperty(key)] throws when [hasOwnProperty] is an own
    property); the statements about copies are about ordinary data. *)
Fixpoint ordinary (v : Value) : bool :=
  match v with
  | VArr _ items => forallb ordinary items
  | VObj _ props =>
      forallb (fun kv => negb (includes objectPrototypeKeys (fst kv))
                        && ordinary (snd kv)) props
  | _ => true
  end.

(** A value that the comparison of the watcher can find unchanged: an
    array of ordinary data without [NaN], [null], or a value that is not an
    object and not [NaN]. *)
Definition steady (v : Value) : Prop :=
  (isArray v = true /\ noNaN v = true /\ ordinary v = true)
  \/ (typeofObject v = false /\ v <> VNaN)
  \/ v = VNull.

(* ===================================================================== *)
(** ** Form operations (useForm.ts, lib/createFields.ts)                  *)
(* ===================================================================== *)

Section Operations.
Context {W : Type}.

Local Abbreviation Field := (@Field W) (only parsing).
Local Abbreviation FieldEntry := (@FieldEntry W) (only parsing).
Local Abbreviation FormState := (@FormState W) (only parsing).
Local Abbreviation KindOfRule := (@KindOfRule W) (only parsing).
Local Abbreviation InternalRule := (@InternalRule W) (only parsing).
Local Abbreviation RuleFunction := (@RuleFunction W) (only parsing).
Local Abbreviation M := (@M W) (only parsing).
Local Notation "'let*' x ':=' m 'in' k" := (bind m (fun x => k))
  (at level 10, x name, m at level 100, k at level 200, only parsing).

(** The gate of [processValidationObject] as a test: the rule has a
    callable, is not a manual rule in an automatic pass, and is not an
    async function in a synchronous pass. *)
Definition runsb (r : InternalRule) (shouldValidate promise : bool) : bool :=
  match rule r with
  | None => false
  | Some f =>
      negb (negb (default true (autoValidate r)) && negb shouldValidate
            || isAsyncFunction f && negb promise)
  end.

(** A callable that is not an async function and returns neither a promise
    nor a list that holds one. *)
Definition returnsNoPromise (f : RuleFunction) : Prop :=
  isAsyncFunction f = false
  /\ forall args w x,
      In x (flat [fst (body f args w)]) -> instanceofPromise x = false.

(** *** Assignments to one property, continued *)

Definition setFieldValue (v : Value) (f : Field) : Field :=
  {| field_value := v; field_name := field_name f;
     fieldRules := fieldRules f; field_dirty := field_dirty f;
     field_touched := field_touched f; field_valid := field_valid f;
     field_focused := field_focused f; field_errors := field_errors f;
     field_pending := field_pending f; fieldPrevValue := fieldPrevValue f |}.

Definition setFieldDirty (b : bool) (f : Field) : Field :=
  {| field_value := field_value f; field_name := field_name f;
     fieldRules := fieldRules f; field_dirty := b;
     field_touched := field_touched f; field_valid := field_valid f;
     field_focused := field_focused f; field_errors := field_errors f;
     field_pending := field_pending f; fieldPrevValue := fieldPrevValue f |}.

Definition setFormIgnoreDirty (b : bool) (s : FormState) : FormState :=
  {| fields := fields s; form_valid := form_valid s;
     form_dirty := form_dirty s; form_touched := form_touched s;
     form_errors := form_errors s; form_pending := form_pending s;
     initialFields := initialFields s; errorFields := errorFields s;
     formRules := formRules s; context := context s;
     formIgnoreDirty := b;
     formIgnoreValidation := formIgnoreValidation s;
     formValidationLock := formValidationLock s |}.

Definition setFormDirty (b : bool) (s : FormState) : FormState :=
  {| fields := fields s; form_valid := form_valid s;
     form_dirty := b; form_touched := form_touched s;
     form_errors := form_errors s; form_pending := form_pending s;
     initialFields := initialFields s; errorFields := errorFields s;
     formRules := formRules s; context := context s;
     formIgnoreDirty := formIgnoreDirty s;
     formIgnoreValidation := formIgnoreValidation s;
     formValidationLock := formValidationLock s |}.

Definition setFormTouched (b : bool) (s : FormState) : FormState :=
  {| fields := fields s; form_valid := form_valid s;
     form_dirty := form_dirty s; form_touched := b;
     form_errors := form_errors s; form_pending := form_pending s;
     initialFields := initialFields s; errorFields := errorFields s;
     formRules := formRules s; context := context s;
     formIgnoreDirty := formIgnoreDirty s;
     formIgnoreValidation := formIgnoreValidation s;
     formValidationLock := formValidationLock s |}.

Definition setFormValid (b : bool) (s : FormState) : FormState :=
  {| fields := fields s; form_valid := b;
     form_dirty := form_dirty s; form_touched := form_touched s;
     form_errors := form_errors s; form_pending := form_pending s;
     initialFields := initialFields s; errorFields := errorFields s;
     formRules := formRules s; context := context s;
     formIgnoreDirty := formIgnoreDirty s;
     formIgnoreValidation := formIgnoreValidation s;
     formValidationLock := formValidationLock s |}.



(** What the operations on a built form can throw: the [TypeError] of
    reading a property of [formState.value.fields[key]] when there is no
    such entry, or an error of [getInitState]. *)
Inductive Failure : Type :=
| UndefinedField (key : string)
| Constructing (e : Thrown).

(** *** Field events (lib/createFields.ts) *)

(** The callback of the [watch] on [field.value]. *)
Definition dirtyWatcher (path : FieldPath) (s : FormState) : FormState :=
  if formIgnoreDirty s then s
  else setFormDirty true (updateField path (setFieldDirty true) s).

(** *** setRules and setFields (useForm.ts)

    An entry of [formState.value.fields] that is an array has no setter and
    no field properties; what these operations assign to the array object
    itself is not part of the model, they leave such an entry as it is.

    [formState.value.fields[key]] is a lookup in a plain object: for a key
    that is no own property but a property name of [Object.prototype] it
    gives the inherited member, so the assignment to its [rules] or
    [value] does not throw and reaches no field.  What it does to that
    member is not part of the model. *)


(** The [for] loop of [setFields]. *)
Fixpoint assignValues (values : list (string * Value)) (s : FormState)
  : option Failure * FormState :=
  match values with
  | [] => (None, s)
  | (k, v) :: rest =>
      match getProp k (fields s) with
      | Some _ => assignValues rest (updateField (Top k) (setFieldValue v) s)
      | None =>
          if includes objectPrototypeKeys k then assignValues rest s
          else (Some (UndefinedField k), s)
      end
  end.

(** The options of [setFields]. *)
Record SetFieldsOptions : Type := {
  opt_setDirty : option bool;
  opt_validate : option bool
}.

(** [setFields(formState)(values, options)] up to its [nextTick]; the
    callback of the [nextTick] is registered by a call that did not throw. *)
Definition formSetFields (values : list (string * Value))
    (options : option SetFieldsOptions) (s : FormState)
  : option Failure * FormState :=
  let s1 :=
    setFormIgnoreValidation (negb (default false (options ≫= opt_validate))) s in
  let s2 :=
    setFormIgnoreDirty (negb (default true (options ≫= opt_setDirty))) s1 in
  assignValues values s2.

(** The [nextTick] callback of [setFields]. *)
Definition formSetFields_tick (s : FormState) : FormState :=
  setFormIgnoreDirty false s.

(** *** Resets (useForm.ts, lib/createFields.ts) *)

(** The assignments of [resetField] to the field. *)
Definition resetFieldTo (v : Value) (key : string) (f : Field) : Field :=
  {| field_value := v; field_name := key;
     fieldRules := fieldRules f; field_dirty := false;
     field_touched := false; field_valid := true;
     field_focused := false; field_errors := [];
     field_pending := field_pending f; fieldPrevValue := fieldPrevValue f |}.

(** [resetField(formState, key, field)], for the field at [path].  For a
    key that is no own property of the initial state but a property name
    of [Object.prototype], [.fields[key]] is the inherited member and its
    [value] is [undefined]. *)
Definition resetField (key : string) (path : FieldPath) (s : FormState)
  : M (option Failure * FormState) :=
  let* snapshot := cloneInitState (initialFields s) in
  match getInitState (Some snapshot) with
  | inl e => ret (Some (Constructing e), s)
  | inr transformed =>
      match getProp key transformed with
      | Some init =>
          ret (None, updateField path (resetFieldTo (init_value init) key) s)
      | None =>
          if includes objectPrototypeKeys key
          then ret (None, updateField path (resetFieldTo VUndefined key) s)
          else ret (Some (UndefinedField key), s)
      end
  end.

(** The [nextTick] callback of both resets. *)
Definition reset_tick (s : FormState) : FormState :=
  setFormIgnoreDirty false (snd (collectErrors s None)).

(** [field.reset()] up to its [nextTick], for the field at [path]. *)
Definition fieldReset (path : FieldPath) (s : FormState)
  : M (option Failure * FormState) :=
  match getField path s with
  | None => ret (None, s)
  | Some field =>
      let s1 := setFormIgnoreDirty true s in
      let s2 := setFormIgnoreValidation true s1 in
      let* out := resetField (field_name field) path s2 in
      match fst out with
      | Some e => ret (Some e, snd out)
      | None => ret (None, setFormValidationLock None (snd out))
      end
  end.

(** The [forEach] of [resetForm]. *)
Fixpoint resetEntries (keys : list string) (s : FormState)
  : M (option Failure * FormState) :=
  match keys with
  | [] => ret (None, s)
  | k :: rest =>
      let* out := resetField k (Top k) s in
      match fst out with
      | Some e => ret (Some e, snd out)
      | None => resetEntries rest (snd out)
      end
  end.

(** [resetForm(formState)()] up to its [nextTick]. *)
Definition resetForm (s : FormState) : M (option Failure * FormState) :=
  let s1 := setFormIgnoreDirty true s in
  let s2 := setFormIgnoreValidation true s1 in
  let s3 := setFormValidationLock None s2 in
  let* out := resetEntries (map fst (fields s3)) s3 in
  match fst out with
  | Some e => ret (Some e, snd out)
  | None => ret (None, setFormDirty false (setFormTouched false (snd out)))
  end.

(** *** The derived state of [useForm] *)

(** The callback of the [watch] on [formState.value.errors]. *)
Definition errorsWatcher (s : FormState) : FormState :=
  setFormValid
    (forallb (fun e => negb (entryInvalid (Some e))) (map snd (fields s))
     && Nat.eqb (length (form_errors s)) 0)
    s.

(** The computed [values]: every key with the [value] of its entry. *)
Definition values (s : FormState) : list (string * Value) :=
  fold_left
    (fun acc key =>
       setProp key
         (match getProp key (fields s) with
          | Some (Single f) => field_value f
          | _ => VUndefined
          end)
         acc)
    (map fst (fields s)) [].

(** *** Words for the statements about resets and construction *)

(** An entry of the initial state with its value copied at counter [n]. *)
Definition cloneEntry (e : @FieldsInit W) (n : nat) : @FieldsInit W :=
  match e with
  | RawValue v => RawValue (fst (cloneDeep v n))
  | Descriptor v rules => Descriptor (fst (cloneDeep v n)) rules
  end.

(** The value and the rules an entry of the initial state is given
    with. *)
Definition entryValue (e : @FieldsInit W) : Value :=
  match e with
  | RawValue v => v
  | Descriptor v _ => v
  end.

Definition entryRules (e : @FieldsInit W) : option (list KindOfRule) :=
  match e with
  | RawValue _ => None
  | Descriptor _ rules => rules
  end.

(** An object with an own [value] property: a descriptor by its shape. *)
Definition descriptorShaped (v : Value) : bool :=
  match v with
  | VObj _ props => bool_decide (is_Some (getProp "value" props))
  | _ => false
  end.

(** An initial state of ordinary data: no key of it and no key of a record
    in its values is a property name of [Object.prototype], and a raw
    value is not itself shaped like a descriptor. *)
Definition ordinaryInit (init : @InitialFormState W) : Prop :=
  List.Forall
    (fun kv =>
       includes objectPrototypeKeys (fst kv) = false
       /\ ordinary (entryValue (snd kv)) = true
       /\ match snd kv with
          | RawValue v => descriptorShaped v = false
          | Descriptor _ _ => True
          end)
    init.




(** The snapshot of the initial state is one [getInitState] accepts:
    distinct keys, none of them reserved, and no value on which the call
    of [hasOwnProperty] throws. *)
Definition initialStateKept (s : FormState) : Prop :=
  List.NoDup (map fst (initialFields s))
  /\ ~ usesReservedKey (initialFields s)
  /\ List.Forall (fun kv => shadowsHasOwnProperty (snd kv) = false)
       (initialFields s).

(** The parts of the form state that a write to a field leaves alone. *)
Definition formFrame (s : FormState)
  : option string * bool * bool * @InitialFormState W * list string :=
  (formValidationLock s, formIgnoreDirty s, formIgnoreValidation s,
   initialFields s, map fst (fields s)).

(** Events that are all results of field validations, of whatever pass. *)
Definition fieldResults (es : list Event) : Prop :=
  List.Forall
    (fun e => match e with FieldSettles _ _ _ => True | _ => False end) es.

(** *** Words for the statements about whole passes *)

(** The arguments a field's rules are called with. *)
Definition fieldArguments (f : Field) : list Value :=
  [field_value f; VStr (field_name f); VFormRef].

(** Two invocations for every rule of the list that has a callable. *)
Definition invocations (rules : list InternalRule) (args : list Value)
  : list (list Value) :=
  flat_map (fun r => match rule r with Some _ => [args; args] | None => [] end)
    rules.

(** An entry that [getInitState] takes as it is given: a descriptor, or a
    raw value that is not an object with an own [value] or
    [hasOwnProperty] property. *)
Definition plainEntry (e : @FieldsInit W) : Prop :=
  match e with
  | RawValue (VObj _ props) =>
      getProp "value" props = None /\ getProp "hasOwnProperty" props = None
  | _ => True
  end.

End Operations.

(* ===================================================================== *)
(** ** More sample forms                                                  *)
(* ===================================================================== *)

(** The form of the tests of [collectErrors] as [useForm] keeps it, with
    the initial state it was built from. *)
Definition editedForm : @FormState nat :=
  newFormState
    [("input1", Single (sampleField "input1" (VStr "hello!") false
                          [VStr "error1"; VStr "error2"]));
     ("input2", Single (sampleField "input2" (VStr "world!") false
                          [VStr "error3"]))]
    [("input1", RawValue (VStr "hello"));
     ("input2", Descriptor (VStr "world") (Some [BareFunction countingRule]))]
    None.

(* ===================================================================== *)
(** * Properties                                                          *)
(* ===================================================================== *)

(** ** Result normalization *)

Lemma filter_map_contributes (items : list Value) :
  List.filter errorFilter (map mapErrors items) = flat_map contributes items.
Proof.
  induction items as [|e items IH]; [reflexivity|].
  cbn [map List.filter flat_map]. rewrite IH.
  destruct e as [| |[|]| | | | | | |]; reflexivity.
Qed.

Lemma createInternalValidationResults_errors (raw : Value) :
  errors (createInternalValidationResults raw)
  = flat_map contributes (rawEntries raw).
Proof.
  unfold createInternalValidationResults.
  destruct raw; cbn [errors rawEntries]; apply filter_map_contributes.
Qed.

(** C3 (amended). [createInternalValidationResults] reads a list result
    entry by entry (a single value is its own only entry) and does not
    flatten it: an entry that is [true], [undefined] or [null] contributes
    nothing, [false] contributes the string "not valid", any other entry,
    a nested list too, contributes itself; [valid] holds exactly when
    nothing was contributed.  In particular the results for [true],
    [false] and [["e1", undefined, "e2"]] are the ones the specification
    lists. *)
Theorem createInternalValidationResults_normalizes :
  (forall raw : Value,
      errors (createInternalValidationResults raw)
      = flat_map contributes (rawEntries raw)
      /\ (valid (createInternalValidationResults raw) = true
          <-> length (errors (createInternalValidationResults raw)) = 0))
  /\ (forall e : Value,
         (e = VBool true \/ e = VUndefined \/ e = VNull -> contributes e = [])
         /\ (e = VBool false -> contributes e = [VStr "not valid"])
         /\ (e <> VBool true -> e <> VBool false -> e <> VUndefined ->
             e <> VNull -> contributes e = [e]))
  /\ createInternalValidationResults (VBool true)
     = {| valid := true; errors := [] |}
  /\ createInternalValidationResults (VBool false)
     = {| valid := false; errors := [VStr "not valid"] |}
  /\ (forall ref : nat,
         createInternalValidationResults
           (VArr ref [VStr "e1"; VUndefined; VStr "e2"])
         = {| valid := false; errors := [VStr "e1"; VStr "e2"] |}).
Proof.
  repeat split.
  - apply createInternalValidationResults_errors.
  - unfold createInternalValidationResults; cbn [valid errors].
    intros H. now apply Nat.eqb_eq in H.
  - unfold createInternalValidationResults; cbn [valid errors].
    intros H. now apply Nat.eqb_eq.
  - intros [-> | [-> | ->]]; reflexivity.
  - intros ->; reflexivity.
  - intros Ht Hf Hu Hn.
    destruct e as [| |[|]| | | | | | |]; try reflexivity; congruence.
Qed.

(** C3, as stated, fails: a list inside the list is not flattened one
    level before the filtering, it is contributed as one error. *)
Lemma createInternalValidationResults_nested_counterexample :
  let raw := arr [arr [VStr "a"; VUndefined]; VStr "c"] in
  errors (createInternalValidationResults raw)
  = [arr [VStr "a"; VUndefined]; VStr "c"]
  /\ flat_map contributes (flat (rawEntries raw)) = [VStr "a"; VStr "c"]
  /\ errors (createInternalValidationResults raw)
     <> flat_map contributes (flat (rawEntries raw)).
Proof.
  cbn. repeat split. discriminate.
Qed.

(** ** Rule evaluation *)

Section RuleEvaluation.
Context {W : Type}.
Implicit Types (r : @InternalRule W) (f : @RuleFunction W) (run : @Run W).

Lemma invoke_calls f args run :
  calls (snd (invoke f args run)) = calls run ++ [args].
Proof. unfold invoke. destruct (body f args (world run)); reflexivity. Qed.

Lemma processValidationObject_skips r args shouldValidate promise run :
  ~ runs r shouldValidate promise ->
  processValidationObject r args shouldValidate promise run = (VUndefined, run).
Proof.
  intros Hno. unfold processValidationObject.
  destruct (rule r) as [f|] eqn:Hf; [|reflexivity].
  destruct (autoValidate r) as [[|]|] eqn:Ha, shouldValidate,
    (isAsyncFunction f) eqn:Hasync, promise;
    cbn; try reflexivity;
    exfalso; apply Hno; exists f; (repeat split; [assumption|..]);
    intros [? ?]; congruence.
Qed.

Lemma processValidationObject_runs r f args shouldValidate promise run :
  rule r = Some f ->
  runs r shouldValidate promise ->
  processValidationObject r args shouldValidate promise run
  = (let '(first, run1) := invoke f args run in
     if instanceofPromise first && negb promise then (VUndefined, run1)
     else invoke f args run1).
Proof.
  intros Hf (f' & Hf' & Hauto & Hasync).
  rewrite Hf in Hf'. injection Hf' as <-.
  unfold processValidationObject. rewrite Hf.
  destruct (autoValidate r) as [[|]|], shouldValidate,
    (isAsyncFunction f), promise; cbn;
    try solve [ exfalso; apply Hauto; split; reflexivity
              | exfalso; apply Hasync; split; reflexivity ];
    unfold bind, ret; destruct (invoke f args run) as [first run1];
    destruct (instanceofPromise first); reflexivity.
Qed.

(** The gate.  [processValidationObject] returns [undefined] and invokes nothing
    when the callable is absent, when [autoValidate] is false and
    [shouldValidate] is false, and when the callable is an async function
    and [promise] is false.  Otherwise the callable is invoked with the
    positional arguments: if that invocation yields a promise while
    [promise] is false, the promise is dropped and [undefined] is returned;
    if not, what is returned is what the callable yields for these
    arguments when it is invoked again. *)
Theorem processValidationObject_gates r args shouldValidate promise run :
  (rule r = None ->
   processValidationObject r args shouldValidate promise run
   = (VUndefined, run))
  /\ (autoValidate r = Some false -> shouldValidate = false ->
      processValidationObject r args shouldValidate promise run
      = (VUndefined, run))
  /\ (forall f, rule r = Some f -> isAsyncFunction f = true ->
      promise = false ->
      processValidationObject r args shouldValidate promise run
      = (VUndefined, run))
  /\ (forall f, rule r = Some f -> runs r shouldValidate promise ->
      let first := fst (invoke f args run) in
      let run1 := snd (invoke f args run) in
      (instanceofPromise first = true -> promise = false ->
       fst (processValidationObject r args shouldValidate promise run)
       = VUndefined)
      /\ (~ (instanceofPromise first = true /\ promise = false) ->
          processValidationObject r args shouldValidate promise run
          = invoke f args run1
          /\ fst (processValidationObject r args shouldValidate promise run)
             = fst (body f args (world run1)))).
Proof.
  split; [|split; [|split]].
  - intros Hnone. apply processValidationObject_skips.
    intros (f & Hf & _). congruence.
  - intros Ha Hs. apply processValidationObject_skips.
    intros (f & _ & Hno & _). apply Hno. now split.
  - intros f Hf Hasync Hp. apply processValidationObject_skips.
    intros (f' & Hf' & _ & Hno). apply Hno.
    rewrite Hf in Hf'. injection Hf' as <-. now split.
  - intros f Hf Hruns first run1. subst first run1.
    rewrite (processValidationObject_runs _ _ _ _ _ _ Hf Hruns).
    destruct (invoke f args run) as [first run1]; cbn [fst snd].
    split.
    + intros Hprom Hp. now rewrite Hprom, Hp.
    + intros Hkeep.
      assert (instanceofPromise first && negb promise = false) as ->.
      { destruct (instanceofPromise first), promise; try reflexivity.
        exfalso. apply Hkeep. now split. }
      split; [reflexivity|].
      unfold invoke. destruct (body f args (world run1)); reflexivity.
Qed.

(** C10. When [processValidationObject] evaluates a rule and does not
    drop the promise of the first invocation, the callable has been
    invoked twice, both times with the same positional arguments, and the
    value returned is the one of the second invocation. *)
Theorem processValidationObject_invokes_twice
    r f args shouldValidate promise run :
  rule r = Some f ->
  runs r shouldValidate promise ->
  ~ (instanceofPromise (fst (invoke f args run)) = true /\ promise = false) ->
  let run1 := snd (invoke f args run) in
  let out := processValidationObject r args shouldValidate promise run in
  out = invoke f args run1
  /\ calls (snd out) = calls run ++ [args; args]
  /\ fst out = fst (body f args (world run1)).
Proof.
  intros Hf Hruns Hkeep run1 out. subst run1 out.
  rewrite (processValidationObject_runs _ _ _ _ _ _ Hf Hruns).
  pose proof (invoke_calls f args run) as Hc1.
  destruct (invoke f args run) as [first run1] eqn:Hinv; cbn in *.
  assert (instanceofPromise first && negb promise = false) as ->.
  { destruct (instanceofPromise first), promise; try reflexivity.
    exfalso. apply Hkeep. now split. }
  repeat split.
  - rewrite invoke_calls, Hc1, <- app_assoc. reflexivity.
  - unfold invoke. destruct (body f args (world run1)); reflexivity.
Qed.

End RuleEvaluation.

(** ** Asynchronous evaluation fails open *)

Lemma promiseAll_rejects (validation : list Value) :
  (exists x, In x validation /\ awaitValue x = Rejects) ->
  promiseAll validation = Rejects.
Proof.
  induction validation as [|y rest IH]; intros (x & Hin & Hx).
  - destruct Hin.
  - cbn [promiseAll]. destruct Hin as [-> | Hin].
    + rewrite Hx. reflexivity.
    + rewrite IH by eauto. destruct (awaitValue y); reflexivity.
Qed.

Lemma validationPromise_settles (validation : list Value) :
  validationPromise validation = Rejects -> False.
Proof.
  unfold validationPromise, orCatch, andThen.
  destruct (promiseAll validation); discriminate.
Qed.

Section FailOpen.
Context {W : Type}.

Lemma validateInternal_promise (rules : list (@InternalRule W))
    (args : list Value) (options : Options) (run : Run) :
  promise options = Some true ->
  fst (validateInternal (Some rules) args (Some options) run)
  = Later (validationPromise
             (flat (fst (mapM (fun v =>
                                 processValidationObject v args
                                   (default false (alwaysValidate options))
                                   true)
                              rules run)))).
Proof.
  intros Hp. unfold validateInternal. cbn. rewrite Hp. cbn.
  unfold bind, ret.
  destruct (mapM _ rules run) as [results run']. reflexivity.
Qed.

(** C4. With [options.promise == true] the results of the rules are handed
    to [validationPromise]; whenever awaiting them rejects, because one of
    them is a promise that rejects, the pass fulfills with
    [{valid: true, errors: []}]; the promise of the pass never rejects. *)
Theorem validationPromise_fails_open :
  (forall validation : list Value,
      promiseAll validation = Rejects ->
      validationPromise validation
      = Fulfills {| valid := true; errors := [] |})
  /\ (forall validation : list Value,
         (exists x, In x validation /\ awaitValue x = Rejects) ->
         validationPromise validation
         = Fulfills {| valid := true; errors := [] |})
  /\ (forall validation : list Value,
         validationPromise validation <> Rejects)
  /\ (forall (rules : list (@InternalRule W)) args options run,
         promise options = Some true ->
         exists p,
           fst (validateInternal (Some rules) args (Some options) run)
           = Later p
           /\ p <> Rejects
           /\ ((exists x,
                   In x (flat (fst (mapM
                                      (fun v =>
                                         processValidationObject v args
                                           (default false
                                              (alwaysValidate options))
                                           true)
                                      rules run)))
                   /\ awaitValue x = Rejects) ->
               p = Fulfills {| valid := true; errors := [] |})).
Proof.
  assert (Hopen : forall validation : list Value,
             promiseAll validation = Rejects ->
             validationPromise validation
             = Fulfills {| valid := true; errors := [] |}).
  { intros validation Hrej. unfold validationPromise. rewrite Hrej.
    reflexivity. }
  split; [exact Hopen|].
  split.
  { intros validation Hex. apply Hopen. now apply promiseAll_rejects. }
  split.
  { intros validation Hrej. exact (validationPromise_settles _ Hrej). }
  intros rules args options run Hp.
  eexists. split; [apply validateInternal_promise; exact Hp|].
  split.
  - intros Hrej. exact (validationPromise_settles _ Hrej).
  - intros Hex. apply Hopen. now apply promiseAll_rejects.
Qed.

End FailOpen.

(** ** Rule normalization *)

Section Normalization.
Context {W : Type}.
Implicit Types (rules : list (@KindOfRule W)).

Lemma createValidationObject_canonical (canon : list (@InternalRule W)) :
  createValidationObject (Some (map RuleObject canon)) = canon.
Proof.
  unfold createValidationObject. rewrite map_map. apply map_id.
Qed.

(** C9. [createValidationObject] is defined on every rule list; applied to
    its own result, read again as a rule list, it returns this result.
    An entry with a [rule] property is kept as it is, with its
    [autoValidate]; a bare callable becomes [{rule: callable}] with no
    [autoValidate]; [undefined] becomes the empty list. *)
Theorem createValidationObject_idempotent :
  (forall fn : option (list (@KindOfRule W)),
      createValidationObject (Some (map RuleObject (createValidationObject fn)))
      = createValidationObject fn)
  /\ createValidationObject (W := W) None = []
  /\ (forall rules,
         length (createValidationObject (Some rules)) = length rules)
  /\ (forall rules i (r : InternalRule),
         rules !! i = Some (RuleObject r) ->
         createValidationObject (Some rules) !! i = Some r)
  /\ (forall rules i (f : RuleFunction),
         rules !! i = Some (BareFunction f) ->
         createValidationObject (Some rules) !! i
         = Some {| rule := Some f; autoValidate := None |}).
Proof.
  split; [intros fn; apply createValidationObject_canonical|].
  split; [reflexivity|].
  split; [intros rules; cbn; apply length_map|].
  split; intros rules i x Hi; cbn;
    rewrite list_lookup_fmap, Hi; reflexivity.
Qed.

End Normalization.

(** ** Aggregation *)

Section Aggregation.
Context {W : Type}.
Implicit Types (s : @FormState W) (f : @Field W) (e : @FieldEntry W).

Lemma getAllFields_declared s f :
  In f (getAllFields s) <-> In f (declaredFields s).
Proof.
  unfold getAllFields, plainFields, rowFields, declaredFields.
  induction (map snd (fields s)) as [|e rest IH]; cbn [flat_map].
  - cbn. tauto.
  - rewrite flat_map_app, !in_app_iff in *.
    destruct e as [g|rows]; cbn [In app flat_map]; rewrite ?in_app_iff; tauto.
Qed.

Lemma plain_form_fields s :
  (forall e, In e (map snd (fields s)) -> isArrayField e = false) ->
  rowFields s = [] /\ plainFields s = declaredFields s.
Proof.
  unfold plainFields, rowFields, declaredFields.
  induction (map snd (fields s)) as [|e rest IH]; intros Hplain.
  - split; reflexivity.
  - destruct IH as [IHr IHp]; [intros e' He'; apply Hplain; now right|].
    assert (isArrayField e = false) as He by (apply Hplain; now left).
    destruct e as [g|rows]; [|discriminate]. cbn [flat_map app] in *.
    rewrite IHp. split; [exact IHr|reflexivity].
Qed.

Lemma setProp_fresh {A} (key : string) (v : A) (acc : list (string * A)) :
  ~ In key (map fst acc) -> setProp key v acc = acc ++ [(key, v)].
Proof.
  induction acc as [|[k x] acc IH]; intros Hfresh; [reflexivity|].
  cbn [setProp]. destruct (String.eqb_spec k key) as [->|Hne].
  - exfalso. apply Hfresh. now left.
  - cbn [app]. rewrite IH; [reflexivity|]. intros Hin. apply Hfresh. now right.
Qed.

(** The property read of every key of an object with distinct keys. *)
Lemma getProp_In {A} (key : string) (v : A) (obj : list (string * A)) :
  List.NoDup (map fst obj) -> In (key, v) obj -> getProp key obj = Some v.
Proof.
  induction obj as [|[k x] obj IH]; intros Hnd Hin; [destruct Hin|].
  cbn [map fst] in Hnd. apply List.NoDup_cons_iff in Hnd as [Hk Hnd].
  cbn [getProp]. destruct Hin as [Heq | Hin].
  - injection Heq as -> ->. now rewrite String.eqb_refl.
  - destruct (String.eqb_spec k key) as [->|Hne]; [|now apply IH].
    exfalso. apply Hk. apply (in_map fst) in Hin. exact Hin.
Qed.

Lemma getProp_None {A} (key : string) (obj : list (string * A)) :
  ~ In key (map fst obj) -> getProp key obj = None.
Proof.
  induction obj as [|[k x] obj IH]; intros Hfresh; [reflexivity|].
  cbn [getProp]. destruct (String.eqb_spec k key) as [->|Hne].
  - exfalso. apply Hfresh. now left.
  - apply IH. intros Hin. apply Hfresh. now right.
Qed.

Lemma errorFields_reduce (fl : list (string * @FieldEntry W))
    (keys : list string) (acc : list (string * option (list Value))) :
  List.NoDup keys ->
  (forall key, In key keys -> ~ In key (map fst acc)) ->
  fold_left
    (fun acc key =>
       if entryInvalid (getProp key fl)
       then setProp key (entryErrors (getProp key fl)) acc
       else acc)
    keys acc
  = acc ++ flat_map (errorFieldOf fl) keys.
Proof.
  revert acc. induction keys as [|key keys IH]; intros acc Hnd Hfresh.
  - cbn. now rewrite app_nil_r.
  - apply List.NoDup_cons_iff in Hnd as [Hkey Hnd].
    cbn [fold_left flat_map].
    assert (Hone : errorFieldOf fl key
                   = if entryInvalid (getProp key fl)
                     then [(key, entryErrors (getProp key fl))] else [])
      by reflexivity.
    rewrite Hone. clear Hone.
    destruct (entryInvalid (getProp key fl)).
    + rewrite setProp_fresh by (apply Hfresh; now left).
      rewrite IH; [now rewrite <- app_assoc|exact Hnd|].
      intros k Hk. rewrite map_app, in_app_iff. cbn.
      intros [Hin | [-> | []]]; [|contradiction].
      apply (Hfresh k); [now right|exact Hin].
    + rewrite IH; [reflexivity|exact Hnd|].
      intros k Hk. apply Hfresh. now right.
Qed.

Lemma collectErrors_errorFields s vr :
  List.NoDup (map fst (fields s)) ->
  fv_errorFields (fst (collectErrors s vr))
  = flat_map (errorFieldOf (fields s)) (map fst (fields s)).
Proof.
  intros Hnd. unfold collectErrors. cbn [fst fv_errorFields].
  cbn [setFormErrors fields].
  rewrite errorFields_reduce; [reflexivity|exact Hnd|].
  intros key _ [].
Qed.

Lemma getProp_errorFields_absent (fl : list (string * @FieldEntry W))
    (keys : list string) (key : string) :
  ~ In key keys -> getProp key (flat_map (errorFieldOf fl) keys) = None.
Proof.
  induction keys as [|k keys IH]; intros Habs; [reflexivity|].
  cbn [flat_map]. unfold errorFieldOf at 1.
  destruct (entryInvalid (getProp k fl)); cbn [app getProp].
  - destruct (String.eqb_spec k key) as [->|Hne].
    + exfalso. apply Habs. now left.
    + apply IH. intros Hin. apply Habs. now right.
  - apply IH. intros Hin. apply Habs. now right.
Qed.

Lemma getProp_errorFields_present (fl : list (string * @FieldEntry W))
    (keys : list string) (key : string) :
  List.NoDup keys -> In key keys ->
  getProp key (flat_map (errorFieldOf fl) keys)
  = if entryInvalid (getProp key fl)
    then Some (entryErrors (getProp key fl)) else None.
Proof.
  induction keys as [|k keys IH]; intros Hnd Hin; [destruct Hin|].
  apply List.NoDup_cons_iff in Hnd as [Hk Hnd].
  cbn [flat_map]. unfold errorFieldOf at 1.
  destruct (String.eqb_spec k key) as [->|Hne].
  - destruct (entryInvalid (getProp key fl)); cbn [app getProp].
    + now rewrite String.eqb_refl.
    + now apply getProp_errorFields_absent.
  - destruct Hin as [Heq|Hin]; [contradiction|].
    destruct (entryInvalid (getProp k fl)); cbn [app getProp].
    + destruct (String.eqb_spec k key) as [Heq|_]; [contradiction|].
      now apply IH.
    + now apply IH.
Qed.

Lemma collectErrors_errorField_single s vr key f :
  List.NoDup (map fst (fields s)) ->
  In (key, Single f) (fields s) ->
  getProp key (fv_errorFields (fst (collectErrors s vr)))
  = if field_valid f then None else Some (Some (field_errors f)).
Proof.
  intros Hnd Hin. rewrite collectErrors_errorFields by exact Hnd.
  rewrite getProp_errorFields_present;
    [|exact Hnd|apply (in_map fst) in Hin; exact Hin].
  rewrite (getProp_In _ _ _ Hnd Hin). cbn.
  destruct (field_valid f); reflexivity.
Qed.

(** C5 (amended). [collectErrors] returns [valid] exactly when every field
    is valid and the form-level result, if there is one, is valid.  Its
    [errors] are the error lists of the fields that are not array entries,
    in declaration order, then those of the fields inside array entries,
    then the form-level errors.  In [errorFields] a declared single field
    is present exactly when it is invalid, with its error list.  For a
    form with no array entry this is the declaration order, and
    [errorFields] holds the invalid fields and nothing else. *)
Theorem collectErrors_aggregates s vr :
  List.NoDup (map fst (fields s)) ->
  let out := fst (collectErrors s vr) in
  (fv_valid out = true
   <-> (forall f, In f (declaredFields s) -> field_valid f = true)
       /\ default true (valid <$> vr) = true)
  /\ fv_errors out
     = flat_map field_errors (plainFields s)
       ++ flat_map field_errors (rowFields s)
       ++ default [] (errors <$> vr)
  /\ (forall key f,
         In (key, Single f) (fields s) ->
         getProp key (fv_errorFields out)
         = if field_valid f then None else Some (Some (field_errors f)))
  /\ ((forall e, In e (map snd (fields s)) -> isArrayField e = false) ->
      fv_errors out
      = flat_map field_errors (declaredFields s) ++ default [] (errors <$> vr)
      /\ (forall key es,
             getProp key (fv_errorFields out) = Some es
             <-> exists f, In (key, Single f) (fields s)
                   /\ field_valid f = false /\ es = Some (field_errors f))).
Proof.
  intros Hnd out.
  assert (Herrors : fv_errors out
                    = flat_map field_errors (plainFields s)
                      ++ flat_map field_errors (rowFields s)
                      ++ default [] (errors <$> vr)).
  { subst out. unfold collectErrors, getAllFields. cbn [fst fv_errors].
    now rewrite flat_map_app, <- app_assoc. }
  assert (Hsingle : forall key f,
             In (key, Single f) (fields s) ->
             getProp key (fv_errorFields out)
             = if field_valid f then None else Some (Some (field_errors f))).
  { intros key f Hin. now apply collectErrors_errorField_single. }
  split; [|split; [exact Herrors|split; [exact Hsingle|]]].
  - subst out. unfold collectErrors. cbn [fst fv_valid].
    rewrite andb_true_iff, forallb_forall.
    split; intros [Hall Hform]; (split; [|exact Hform]);
      intros f Hf; apply Hall; now apply getAllFields_declared.
  - intros Hplain. destruct (plain_form_fields s Hplain) as [Hrows Hdecl].
    split.
    + rewrite Herrors, Hrows, Hdecl. reflexivity.
    + intros key es. split.
      * intros Hget.
        destruct (in_dec string_dec key (map fst (fields s))) as [Hin|Habs].
        -- apply in_map_iff in Hin as ([k e] & Hk & Hin). cbn in Hk. subst k.
           assert (isArrayField e = false) as He
               by (apply Hplain; apply (in_map snd) in Hin; exact Hin).
           destruct e as [f|rows]; [|discriminate].
           exists f. rewrite (Hsingle key f Hin) in Hget.
           destruct (field_valid f); [discriminate|].
           injection Hget as <-. auto.
        -- subst out. rewrite collectErrors_errorFields in Hget by exact Hnd.
           rewrite getProp_errorFields_absent in Hget by exact Habs.
           discriminate.
      * intros (f & Hin & Hinvalid & ->).
        rewrite (Hsingle key f Hin), Hinvalid. reflexivity.
Qed.

End Aggregation.

(** The form of the repository's test: two invalid fields and a valid
    form-level result. *)
Lemma collectErrors_aggregates_witness :
  List.NoDup (map fst (fields twoInvalidFields))
  /\ fv_valid (fst (collectErrors twoInvalidFields
                      (Some {| valid := true; errors := [] |}))) = false
  /\ fv_errors (fst (collectErrors twoInvalidFields
                       (Some {| valid := true; errors := [] |})))
     = [VStr "error1"; VStr "error2"; VStr "error3"]
  /\ fv_errorFields (fst (collectErrors twoInvalidFields
                            (Some {| valid := true; errors := [] |})))
     = [("input1", Some [VStr "error1"; VStr "error2"]);
        ("input2", Some [VStr "error3"])].
Proof.
  assert (Hnd : List.NoDup (map fst (fields twoInvalidFields))).
  { repeat constructor; cbn; intuition discriminate. }
  split; [exact Hnd|].
  pose proof (collectErrors_aggregates twoInvalidFields
                (Some {| valid := true; errors := [] |}) Hnd)
    as (_ & Herrors & _).
  split; [reflexivity|]. split; [exact Herrors|reflexivity].
Defined.

(** C5, as stated, fails: with an array entry declared before a plain
    field, [errors] is not in declaration order. *)
Lemma collectErrors_order_counterexample :
  flat_map field_errors (declaredFields rowsThenPlain)
  = [VStr "e1"; VStr "e2"]
  /\ fv_errors (fst (collectErrors rowsThenPlain None))
     = [VStr "e2"; VStr "e1"]
  /\ fv_errors (fst (collectErrors rowsThenPlain None))
     <> flat_map field_errors (declaredFields rowsThenPlain)
        ++ default [] (errors <$> None).
Proof.
  split; [reflexivity|]. split; [reflexivity|]. cbn. discriminate.
Qed.

(** ** What [collectErrors] writes *)

Section Frame.
Context {W : Type}.
Implicit Types (s : @FormState W).

(** C6 (amended). [collectErrors] does write to the form state: it stores
    the recomputed lists in [form.errors] and [form.errorFields], and
    nothing else changes: the fields, the other form properties, the flags
    and the token are as before.  What it returns depends on the fields and
    on the form-level result only, so a second call returns the same view
    and leaves the state as the first call left it. *)
Theorem collectErrors_writes_errors_only s vr :
  let out := fst (collectErrors s vr) in
  let s' := snd (collectErrors s vr) in
  s' = setErrorFields (fv_errorFields out) (setFormErrors (fv_errors out) s)
  /\ form_errors s' = fv_errors out
  /\ errorFields s' = fv_errorFields out
  /\ fields s' = fields s
  /\ form_valid s' = form_valid s
  /\ form_dirty s' = form_dirty s
  /\ form_touched s' = form_touched s
  /\ form_pending s' = form_pending s
  /\ formRules s' = formRules s
  /\ formIgnoreDirty s' = formIgnoreDirty s
  /\ formIgnoreValidation s' = formIgnoreValidation s
  /\ formValidationLock s' = formValidationLock s
  /\ collectErrors s' vr = (out, s').
Proof.
  repeat split; reflexivity.
Qed.

End Frame.

(** C6, as stated, fails: on a form whose [errors] are still empty while
    its fields hold errors, [collectErrors] changes the form state. *)
Lemma collectErrors_not_pure_counterexample :
  form_errors twoInvalidFields = []
  /\ form_errors (snd (collectErrors twoInvalidFields None))
     = [VStr "error1"; VStr "error2"; VStr "error3"]
  /\ snd (collectErrors twoInvalidFields None) <> twoInvalidFields.
Proof.
  split; [reflexivity|]. split; [reflexivity|].
  intros Heq. apply (f_equal form_errors) in Heq. discriminate Heq.
Qed.

(** ** The staleness guard *)

Section Staleness.
Context {W : Type}.
Implicit Types (s : @FormState W) (g : @Field W -> @Field W).

Lemma getProp_alterProp {A} (key key' : string) (h : A -> A)
    (obj : list (string * A)) :
  getProp key' (alterProp key h obj)
  = if String.eqb key key' then h <$> getProp key' obj else getProp key' obj.
Proof.
  induction obj as [|[k x] obj IH]; cbn [alterProp getProp].
  - now destruct (String.eqb key key').
  - destruct (String.eqb_spec k key) as [->|Hk]; cbn [getProp].
    + destruct (String.eqb_spec key key') as [->|Hne]; reflexivity.
    + destruct (String.eqb_spec k key') as [->|Hk'].
      * destruct (String.eqb_spec key key') as [->|_];
          [contradiction|reflexivity].
      * exact IH.
Qed.

(** A write to one field object is seen at its own place ... *)
Lemma getField_updateField_same path g s :
  getField path (updateField path g s) = g <$> getField path s.
Proof.
  destruct path as [key|key i sub]; cbn [getField updateField setFields fields];
    rewrite getProp_alterProp, String.eqb_refl;
    destruct (getProp key (fields s)) as [[f|rows]|]; cbn; try reflexivity.
  rewrite list_lookup_alter_eq.
  destruct (rows !! i) as [row|]; cbn; [|reflexivity].
  now rewrite getProp_alterProp, String.eqb_refl.
Qed.

(** ... and any place holds the field as it was or as it was written. *)
Lemma getField_updateField path path' g s :
  getField path' (updateField path g s) = getField path' s
  \/ getField path' (updateField path g s) = g <$> getField path' s.
Proof.
  destruct path as [key|key i sub], path' as [key'|key' i' sub'];
    cbn [getField updateField setFields fields];
    rewrite getProp_alterProp;
    destruct (String.eqb key key'); try (now left);
    destruct (getProp key' (fields s)) as [[f|rows]|]; cbn;
    try (now left); try (now right).
  destruct (decide (i = i')) as [->|Hi].
  - rewrite list_lookup_alter_eq.
    destruct (rows !! i') as [row|]; cbn; [|now left].
    rewrite getProp_alterProp.
    destruct (String.eqb sub sub'); [now right|now left].
  - rewrite list_lookup_alter_ne by exact Hi. now left.
Qed.

Lemma updateField_lock path g s :
  formValidationLock (updateField path g s) = formValidationLock s.
Proof. destruct path; reflexivity. Qed.

Lemma updateField_form_errors path g s :
  form_errors (updateField path g s) = form_errors s.
Proof. destruct path; reflexivity. Qed.

Lemma validation_pending_write path path' b s :
  validation (getField path' (updateField path (setFieldPending b) s))
  = validation (getField path' s).
Proof.
  destruct (getField_updateField path path' (setFieldPending b) s) as [-> | ->];
    [reflexivity|].
  now destruct (getField path' s).
Qed.

Lemma validate_resume_stale path token result s :
  formValidationLock s <> Some token ->
  validate_resume path token result s
  = updateField path (setFieldPending false) s.
Proof.
  intros Hstale. unfold validate_resume.
  now rewrite bool_decide_eq_false_2.
Qed.

Lemma validate_resume_lock path token result s :
  formValidationLock (validate_resume path token result s)
  = formValidationLock s.
Proof.
  unfold validate_resume. rewrite updateField_lock.
  destruct (bool_decide _); [apply updateField_lock|reflexivity].
Qed.

Lemma stale_results_keep_fields (es : list Event) s :
  Forall (staleFieldResult (formValidationLock s)) es ->
  formValidationLock (steps s es) = formValidationLock s
  /\ forall path',
      validation (getField path' (steps s es)) = validation (getField path' s).
Proof.
  revert s. induction es as [|e es IH]; intros s Hstale; [now split|].
  apply Forall_cons in Hstale as [He Hes].
  destruct e as [id|token path result|token vr]; try contradiction.
  cbn [staleFieldResult] in He. unfold steps. cbn [fold_left step].
  pose proof (validate_resume_lock path token result s) as Hlock.
  destruct (IH (validate_resume path token result s)) as [IHlock IHfields].
  { now rewrite Hlock. }
  unfold steps in IHlock, IHfields. split.
  - now rewrite IHlock.
  - intros path'. rewrite IHfields.
    rewrite validate_resume_stale by exact He.
    apply validation_pending_write.
Qed.

Lemma validate_begin_lock path (field : @Field W) rules options s run :
  formValidationLock (snd (fst (validate_begin path field rules options s run)))
  = formValidationLock s.
Proof.
  unfold validate_begin, bind, ret.
  destruct (validateInternal _ _ _ run) as [r run']. cbn [fst snd].
  apply updateField_lock.
Qed.

Lemma foldM_invariant {A B} (P : B -> Prop) (f : A -> B -> @M W B) :
  (forall x b run, P b -> P (fst (f x b run))) ->
  forall xs b run, P b -> P (fst (foldM f xs b run)).
Proof.
  intros Hf xs. induction xs as [|x xs IH]; intros b run Hb; [exact Hb|].
  cbn [foldM]. unfold bind.
  pose proof (Hf x b run Hb) as Hstep.
  destruct (f x b run) as [b' run']. now apply IH.
Qed.

Lemma watcherPromise_lock at_field (acc : Pending * @FormState W) run :
  formValidationLock (snd (fst (watcherPromise at_field acc run)))
  = formValidationLock (snd acc).
Proof.
  destruct at_field as [path field], acc as [waiting s].
  unfold watcherPromise, bind, ret.
  destruct (cloneDeepM (field_value field) run) as [clone run1].
  destruct (formIgnoreValidation _) eqn:Hignore; cbn [fst snd].
  - apply updateField_lock.
  - pose proof (validate_begin_lock path field (fieldRules field)
                  {| promise := Some true; alwaysValidate := Some false |}
                  (updateField path (setFieldPrevValue clone) s) run1) as Hlock.
    destruct (validate_begin _ _ _ _ _ run1) as [[p s2] run2].
    cbn [fst snd] in *. rewrite Hlock. apply updateField_lock.
Qed.

(** Each of the three ways a pass starts leaves its token as the current
    one when it reaches its first [await]. *)
Lemma passes_store_token (id : string) s run :
  formValidationLock (snd (fst (validationWatcher_begin id s run))) = Some id
  /\ formValidationLock (snd (fst (validateForm_begin id s run))) = Some id
  /\ forall path field validationFunction,
      formValidationLock
        (snd (fst (validateField_begin id path field validationFunction s run)))
      = Some id.
Proof.
  split; [|split].
  - unfold validationWatcher_begin, bind, ret.
    destruct (filterM _ _ run) as [unequalValues run1].
    pose proof (foldM_invariant
                  (fun b : Pending * FormState =>
                     formValidationLock (snd b) = Some id)
                  watcherPromise) as Hinv.
    specialize (Hinv (fun x b r Hb =>
                        eq_trans (watcherPromise_lock x b r) Hb)
                  unequalValues
                  ([], setFormPending true (createValidateFieldFunction id s))
                  run1 eq_refl).
    destruct (foldM _ _ _ run1) as [started run2]. exact Hinv.
  - unfold validateForm_begin.
    apply (foldM_invariant
             (fun b : Pending * FormState =>
                formValidationLock (snd b) = Some id)); [|reflexivity].
    intros [path field] [waiting s0] r Hb. unfold bind, ret.
    pose proof (validate_begin_lock path field (fieldRules field)
                  {| promise := Some true; alwaysValidate := Some true |}
                  s0 r) as Hlock.
    destruct (validate_begin _ _ _ _ _ r) as [[p s1] r1].
    cbn [fst snd] in *. now rewrite Hlock.
  - intros path field validationFunction. unfold validateField_begin.
    now rewrite validate_begin_lock.
Qed.

(** The token protocol.  A pass stores its token as the form's current token when
    it starts, whichever of the three ways it starts.  When the result of a field arrives, it is written into
    [field.valid] and [field.errors] if the form's token is still the one
    the pass captured; if it is not, no field's [valid] or [errors]
    changes, nor do the form's, however many such results arrive; either
    way [field.pending] becomes false.  The form-level result has no such
    guard: when it arrives, [collectErrors] stores the errors of the
    fields followed by the errors of this result, whatever the current
    token is. *)
Theorem validation_writes_follow_token s :
  (forall id, formValidationLock (step s (PassStarts id)) = Some id)
  /\ (forall id run,
         formValidationLock (snd (fst (validationWatcher_begin id s run)))
         = Some id
         /\ formValidationLock (snd (fst (validateForm_begin id s run)))
            = Some id
         /\ forall path field validationFunction,
             formValidationLock
               (snd (fst (validateField_begin id path field
                            validationFunction s run)))
             = Some id)
  /\ (forall path token result,
         formValidationLock s = Some token ->
         validation (getField path (step s (FieldSettles token path result)))
         = (fun _ => (valid result, errors result)) <$> getField path s)
  /\ (forall path token result,
         formValidationLock s <> Some token ->
         (forall path',
             validation
               (getField path' (step s (FieldSettles token path result)))
             = validation (getField path' s))
         /\ form_errors (step s (FieldSettles token path result))
            = form_errors s)
  /\ (forall path token result,
         field_pending
           <$> getField path (step s (FieldSettles token path result))
         = (fun _ => false) <$> getField path s)
  /\ (forall es,
         Forall (staleFieldResult (formValidationLock s)) es ->
         formValidationLock (steps s es) = formValidationLock s
         /\ forall path',
             validation (getField path' (steps s es))
             = validation (getField path' s))
  /\ (forall token vr,
         form_errors (step s (FormSettles token vr))
         = flat_map field_errors (getAllFields s) ++ errors vr
         /\ formValidationLock (step s (FormSettles token vr))
            = formValidationLock s).
Proof.
  split; [reflexivity|].
  split; [intros id run; apply passes_store_token|].
  split.
  { intros path token result Hcurrent. cbn [step]. unfold validate_resume.
    rewrite bool_decide_eq_true_2 by exact Hcurrent.
    rewrite validation_pending_write, getField_updateField_same.
    now destruct (getField path s). }
  split.
  { intros path token result Hstale. cbn [step].
    rewrite validate_resume_stale by exact Hstale. split.
    - intros path'. apply validation_pending_write.
    - apply updateField_form_errors. }
  split.
  { intros path token result. cbn [step]. unfold validate_resume.
    rewrite getField_updateField_same.
    destruct (bool_decide _).
    - rewrite getField_updateField_same. now destruct (getField path s).
    - now destruct (getField path s). }
  split; [intros es; apply stale_results_keep_fields|].
  intros token vr. split; reflexivity.
Qed.

End Staleness.

(** The two results of one field: the stale one is dropped, the current
    one is written. *)
Lemma validation_writes_follow_token_witness :
  let s := createValidateFieldFunction "p2" twoInvalidFields in
  let result := {| valid := true; errors := [] |} in
  formValidationLock s <> Some "p1"
  /\ validation
       (getField (Top "input1")
          (step s (FieldSettles "p1" (Top "input1") result)))
     = Some (false, [VStr "error1"; VStr "error2"])
  /\ formValidationLock s = Some "p2"
  /\ validation
       (getField (Top "input1")
          (step s (FieldSettles "p2" (Top "input1") result)))
     = Some (true, []).
Proof.
  intros s result.
  assert (Hstale : formValidationLock s <> Some "p1") by discriminate.
  assert (Hcurrent : formValidationLock s = Some "p2") by reflexivity.
  destruct (validation_writes_follow_token s)
    as (_ & _ & Hwrite & Hkeep & _).
  split; [exact Hstale|].
  split.
  { destruct (Hkeep (Top "input1") "p1" result Hstale) as [Hfields _].
    rewrite Hfields. reflexivity. }
  split; [exact Hcurrent|].
  rewrite (Hwrite (Top "input1") "p2" result Hcurrent). reflexivity.
Defined.

(** C1.  The code breaks the claim for the form-level result.  Pass "p1"
    starts, pass "p2" starts and its form-level result arrives.  A field
    result of "p1" that arrives now is dropped, as the claim says: the
    field path compares the tokens.  The form-level result of "p1" is
    not: [validateFormInternal] hands it to [collectErrors] with no
    comparison, and it overwrites the form's errors that "p2" wrote,
    although the current token is the one of "p2". *)
Theorem stale_form_result_overwrites_newer_pass :
  let s :=
    steps oneFieldForm
      [PassStarts "p1"; PassStarts "p2";
       FormSettles "p2" {| valid := false; errors := [VStr "E2"] |}] in
  let lateField :=
    FieldSettles "p1" (Top "someInput")
      {| valid := false; errors := [VStr "E1"] |} in
  let lateForm := FormSettles "p1" {| valid := false; errors := [VStr "E1"] |} in
  formValidationLock s = Some "p2"
  /\ form_errors s = [VStr "E2"]
  /\ validation (getField (Top "someInput") (step s lateField))
     = Some (true, [])
  /\ form_errors (step s lateField) = [VStr "E2"]
  /\ form_errors (step s lateForm) = [VStr "E1"]
  /\ formValidationLock (step s lateForm) = Some "p2"
  /\ ~ (forall (s : @FormState unit) token vr,
           formValidationLock s <> Some token ->
           form_errors (step s (FormSettles token vr)) = form_errors s).
Proof.
  intros s lateField lateForm.
  split; [reflexivity|]. split; [reflexivity|]. split; [reflexivity|].
  split; [reflexivity|]. split; [reflexivity|]. split; [reflexivity|].
  intros Hguard.
  specialize (Hguard s "p1" {| valid := false; errors := [VStr "E1"] |}).
  assert (Hstale : formValidationLock s <> Some "p1") by discriminate.
  apply Hguard in Hstale. discriminate Hstale.
Qed.

(** The same through two real passes of a form whose async form rule
    answers "E1" to the first pass and "E2" to the second. *)
Example stale_form_result_reachable :
  let s1 := createValidateFieldFunction "p1" agingForm in
  let '(pass1, s1', run1) :=
    validateFormInternal
      (Some {| promise := Some true; alwaysValidate := None |}) s1
      (freshRun 0) in
  let s2 := createValidateFieldFunction "p2" s1' in
  let '(pass2, s2', run2) :=
    validateFormInternal
      (Some {| promise := Some true; alwaysValidate := None |}) s2 run1 in
  pass1 = Awaiting (Fulfills {| valid := false; errors := [VStr "E1"] |})
  /\ pass2 = Awaiting (Fulfills {| valid := false; errors := [VStr "E2"] |})
  /\ formValidationLock s2' = Some "p2"
  /\ form_errors
       (snd (validateFormInternal_resume
               {| valid := false; errors := [VStr "E1"] |}
               (snd (validateFormInternal_resume
                       {| valid := false; errors := [VStr "E2"] |} s2'))))
     = [VStr "E1"].
Proof. cbn. repeat split; reflexivity. Qed.

(** ** Construction errors *)

Section Construction.
Context {W : Type}.
Implicit Types (c : @UseFormCall W) (env : @Env W) (run : @Run W)
  (init : @InitialFormState W).

Lemma includes_In (keys : list string) (key : string) :
  includes keys key = true <-> In key keys.
Proof.
  unfold includes. rewrite existsb_exists. split.
  - intros (k & Hin & Heq). apply String.eqb_eq in Heq. now subst.
  - intros Hin. exists key. split; [exact Hin|apply String.eqb_refl].
Qed.

(** No entry on which the call of [hasOwnProperty] throws. *)
Local Abbreviation callsHasOwnProperty init :=
  (List.Forall (fun kv => shadowsHasOwnProperty (snd kv) = false) init)
  (only parsing).



(** The first entry on which the call throws, when no key before it and
    not its own key is reserved. *)
Lemma getInitStateFields_not_a_function before (key : string) value after
    (acc : list (string * @FieldInit W)) :
  callsHasOwnProperty before ->
  ~ usesReservedKey (before ++ [(key, value)]) ->
  shadowsHasOwnProperty value = true ->
  getInitStateFields (before ++ (key, value) :: after) acc = inl NotAFunction.
Proof.
  intros Hcalls. revert acc.
  induction Hcalls as [|[k v] before Hv _ IH]; intros acc Hplain Hshadow.
  - cbn [app getInitStateFields].
    destruct (includes reservedKeys key) eqn:Hk.
    + exfalso. apply Hplain. exists key. split; [now left|].
      now apply includes_In.
    + now rewrite Hshadow.
  - cbn [app getInitStateFields]. cbn [snd] in Hv.
    destruct (includes reservedKeys k) eqn:Hk.
    + exfalso. apply Hplain. exists k. split; [now left|].
      now apply includes_In.
    + rewrite Hv. apply IH; [|exact Hshadow].
      intros (key' & Hin & Hres). apply Hplain.
      exists key'. split; [now right|exact Hres].
Qed.








Lemma usesReservedKey_keys init init' :
  map fst init = map fst init' -> usesReservedKey init -> usesReservedKey init'.
Proof. unfold usesReservedKey. now intros ->. Qed.

Lemma includes_false_In (keys : list string) (key : string) :
  includes keys key = false <-> ~ In key keys.
Proof.
  rewrite <- includes_In. destruct (includes keys key); split; congruence.
Qed.

(** Ordinary data shadows nothing. *)
Lemma ordinaryInit_calls init :
  ordinaryInit init -> callsHasOwnProperty init.
Proof.
  unfold ordinaryInit. apply List.Forall_impl.
  intros [key [v|v rules]] (_ & Hv & _); [|reflexivity].
  cbn [snd entryValue shadowsHasOwnProperty] in *.
  destruct v as [| |b|z| |t|ref items|ref props|st|]; try reflexivity.
  apply bool_decide_eq_false_2. intros [x Hx].
  cbn [ordinary] in Hv.
  assert (forall l : list (string * Value),
             forallb (fun kv => negb (includes objectPrototypeKeys (fst kv))
                                && ordinary (snd kv)) l = true ->
             getProp "hasOwnProperty" l = Some x -> False) as Hno.
  { induction l as [|[k y] l IH]; intros Hall Hget; [discriminate|].
    cbn [forallb fst snd getProp] in *.
    apply andb_true_iff in Hall as [Hk Hall].
    destruct (String.eqb_spec k "hasOwnProperty") as [->|_];
      [discriminate Hk|now apply IH]. }
  exact (Hno props Hv Hx).
Qed.


End Construction.



(** What is left out of the amended claim.  A name that the registry
    object inherits from [Object.prototype] is answered with the inherited
    member, and nothing is thrown; a form registered under [__proto__]
    becomes the prototype of the registry, and its members answer too. *)
Example useForm_inherited_name :
  fst (fst (useForm (W := unit) (ReuseNamed "constructor") client (freshRun tt)))
  = inl (Inherited "constructor")
  /\ fst (fst (useForm (W := unit) (ReuseNamed "form") client (freshRun tt)))
     = inl (Throws (FormDoesNotExist "form"))
  /\ let registered :=
       snd (fst (useForm (W := unit)
                   (InitNamed "__proto__"
                      (Some [("someInput", RawValue (VStr "hallo"))]) None)
                   client (freshRun tt))) in
     store registered = Some ∅
     /\ fst (fst (useForm (ReuseNamed "setRules") registered (freshRun tt)))
        = inl (Inherited "setRules")
     /\ fst (fst (useForm (ReuseNamed "someInput") registered (freshRun tt)))
        = inl (Inherited "someInput").
Proof. repeat split; reflexivity. Qed.

(** A value whose own property [hasOwnProperty] is data makes
    [getInitState] throw where it calls it. *)
Example getInitState_not_a_function :
  thrown (W := unit)
    (InitAnonymous
       (Some [("someInput",
               RawValue (VObj 0 [("hasOwnProperty", VBool true)]))])
       None)
    client (freshRun tt)
  = Some NotAFunction.
Proof. reflexivity. Qed.

(** ** The change-driven pass *)

Section ChangeDetection.
Context {W : Type}.

(** Whatever the contents are, a value that is an object and a snapshot
    that is another object count as a change. *)
Lemma isUnequal_object (field : @Field W) (run : Run) ref props ref' props' :
  field_value field = VObj ref props ->
  fieldPrevValue field = VObj ref' props' ->
  ref <> ref' ->
  isUnequal field run = (true, run).
Proof.
  intros Hv Hp Hne. unfold isUnequal. rewrite Hv, Hp. cbn.
  apply Nat.eqb_neq in Hne. now rewrite Hne.
Qed.

End ChangeDetection.

(** C8 fails on the code.  A form with one field whose value is the object
    [{street: "Main St"}] is built; nothing is changed, and the snapshot is
    deep-equal to the value.  The automatic pass nevertheless counts the
    field as changed, because an object that is not an array is compared
    with [!==] to its clone, and invokes its rule. *)
Theorem validationWatcher_revalidates_unchanged_object :
  match useForm (InitAnonymous (Some addressInit) None) client (freshRun 0) with
  | (inr s, _, run1) =>
      (forall f, In f (getAllFields s) ->
                 deepEqual (field_value f) (fieldPrevValue f) = true)
      /\ (let '(unequalValues, _, _, run2) :=
            validationWatcher_begin "p1" s run1 in
          map fst unequalValues = [Top "address"]
          /\ calls run1 = []
          /\ calls run2
             = [[VObj 0 [("street", VStr "Main St")]; VStr "address"; VFormRef];
                [VObj 0 [("street", VStr "Main St")]; VStr "address"; VFormRef]])
  | (inl _, _, _) => False
  end.
Proof.
  cbn. split; [|repeat split; reflexivity].
  intros f [<-|[]]. reflexivity.
Qed.

(** The contrast: an array value that is deep-equal to its snapshot, and a
    string equal to its snapshot, are not counted as changes. *)
Example isUnequal_array_and_string :
  fst (isUnequal
         {| field_value := VArr 0 [VStr "a"]; field_name := "tags";
            fieldRules := []; field_dirty := false; field_touched := false;
            field_valid := true; field_focused := false; field_errors := [];
            field_pending := false; fieldPrevValue := VArr 1 [VStr "a"] |}
         (freshRun tt)) = false
  /\ fst (isUnequal (sampleField "title" (VStr "a") true []) (freshRun tt))
     = false.
Proof. split; reflexivity. Qed.

(** ** Rule evaluation on the rules of the tests *)

(** The test "calls validation with proper arguments" and the test with
    [autoValidate] and [shouldValidate] both false. *)
Lemma processValidationObject_gates_witness :
  let args := [VStr "arg1"; VStr "arg2"] in
  let auto := {| rule := Some countingRule; autoValidate := Some true |} in
  let manual := {| rule := Some countingRule; autoValidate := Some false |} in
  runs auto true false
  /\ processValidationObject auto args true false (freshRun 0)
     = (VStr "some error",
        {| world := 2; calls := [args; args]; nextRef := 1 |})
  /\ processValidationObject manual args false false (freshRun 0)
     = (VUndefined, freshRun 0).
Proof.
  intros args auto manual.
  assert (Hruns : runs auto true false).
  { exists countingRule. repeat split; intros [H1 H2]; discriminate. }
  destruct (processValidationObject_gates auto args true false (freshRun 0))
    as (_ & _ & _ & Hrun).
  destruct (processValidationObject_gates manual args false false (freshRun 0))
    as (_ & Hmanual & _).
  split; [exact Hruns|]. split.
  - destruct (Hrun countingRule eq_refl Hruns) as [_ Hkept].
    destruct Hkept as [Hout _]; [intros [H1 H2]; discriminate H1|].
    rewrite Hout. reflexivity.
  - apply Hmanual; reflexivity.
Defined.

(** The callable of the test is invoked twice. *)
Lemma processValidationObject_invokes_twice_witness :
  let args := [VStr "arg1"; VStr "arg2"] in
  let auto := {| rule := Some countingRule; autoValidate := Some true |} in
  runs auto true false
  /\ calls (snd (processValidationObject auto args true false (freshRun 0)))
     = [args; args]
  /\ world (snd (processValidationObject auto args true false (freshRun 0)))
     = 2.
Proof.
  intros args auto.
  assert (Hruns : runs auto true false).
  { exists countingRule. repeat split; intros [H1 H2]; discriminate. }
  split; [exact Hruns|].
  destruct (processValidationObject_invokes_twice
              auto countingRule args true false (freshRun 0) eq_refl Hruns)
    as (Hout & Hcalls & _).
  { intros [H1 H2]. discriminate H1. }
  split; [exact Hcalls|]. rewrite Hout. reflexivity.
Defined.

(** C2.  The code breaks the claim where it says that a promise is
    dropped in a pass that may not await.  [processValidationObject] tests
    the result of a first invocation and then returns the result of a
    second one, which it does not test: a callable that is no async
    function and yields a plain value first and a promise next gets its
    promise returned with [promise] false, and the synchronous pass
    reports the promise object as an error. *)
Theorem processValidationObject_returns_unchecked_promise :
  let r := {| rule := Some laterPromiseRule; autoValidate := None |} in
  let args := [VStr "arg1"] in
  let out := processValidationObject r args false false (freshRun 0) in
  isAsyncFunction laterPromiseRule = false
  /\ instanceofPromise (fst (invoke laterPromiseRule args (freshRun 0))) = false
  /\ fst out = VPromise (Fulfills (VStr "some error"))
  /\ instanceofPromise (fst out) = true
  /\ calls (snd out) = [args; args]
  /\ fst (validateInternal (Some [r]) args
            (Some {| promise := Some false; alwaysValidate := None |})
            (freshRun 0))
     = Now {| valid := false;
              errors := [VPromise (Fulfills (VStr "some error"))] |}.
Proof. cbv zeta. repeat split; reflexivity. Qed.

(** The value returned is the one of the second invocation: when only the
    second invocation yields a promise, this promise is returned, also
    with [promise] false. *)
Example processValidationObject_returns_second :
  fst (processValidationObject
         {| rule := Some laterPromiseRule; autoValidate := None |}
         [VStr "arg1"] false false (freshRun 0))
  = VPromise (Fulfills (VStr "some error")).
Proof. reflexivity. Qed.

(** A rejected asynchronous rule, next to a rule that reports an error:
    the pass fulfills as valid. *)
Example validateInternal_rejected_rule :
  fst (validateInternal
         (Some [ {| rule := Some countingRule; autoValidate := None |};
                 {| rule := Some {| isAsyncFunction := true;
                                    body := fun _ n => (VPromise Rejects, n) |};
                    autoValidate := None |} ])
         [VStr "value"]
         (Some {| promise := Some true; alwaysValidate := None |})
         (freshRun 0))
  = Later (Fulfills {| valid := true; errors := [] |}).
Proof. reflexivity. Qed.

(** ** Normalization and fail-open on the rules of the tests *)

(** A value next to a promise that rejects. *)
Lemma validationPromise_fails_open_witness :
  let validation := [VStr "some error"; VPromise Rejects] in
  promiseAll validation = Rejects
  /\ validationPromise validation = Fulfills {| valid := true; errors := [] |}.
Proof.
  intros validation.
  assert (Hrej : promiseAll validation = Rejects) by reflexivity.
  split; [exact Hrej|].
  exact (proj1 (validationPromise_fails_open (W := unit)) validation Hrej).
Defined.

(** A bare callable and a manual rule. *)
Lemma createValidationObject_idempotent_witness :
  let manual := {| rule := Some countingRule; autoValidate := Some false |} in
  let rules := [BareFunction countingRule; RuleObject manual] in
  rules !! 1 = Some (RuleObject manual)
  /\ createValidationObject (Some rules) !! 1 = Some manual
  /\ createValidationObject (Some rules) !! 0
     = Some {| rule := Some countingRule; autoValidate := None |}.
Proof.
  intros manual rules.
  destruct (createValidationObject_idempotent (W := nat))
    as (_ & _ & _ & Hobject & Hbare).
  split; [reflexivity|]. split.
  - apply Hobject. reflexivity.
  - apply Hbare. reflexivity.
Defined.

(* ===================================================================== *)
(** * Further properties of the engine                                    *)
(* ===================================================================== *)

(** ** Deep copies *)

Section ValueInduction.
Variable P : Value -> Prop.
Hypothesis Hundefined : P VUndefined.
Hypothesis Hnull : P VNull.
Hypothesis Hbool : forall b, P (VBool b).
Hypothesis Hnum : forall n, P (VNum n).
Hypothesis Hnan : P VNaN.
Hypothesis Hstr : forall s, P (VStr s).
Hypothesis Harr : forall ref items, Forall P items -> P (VArr ref items).
Hypothesis Hobj :
  forall ref props, Forall (fun kv => P (snd kv)) props -> P (VObj ref props).
Hypothesis Hpromise :
  forall st, match st with Fulfills x => P x | _ => True end -> P (VPromise st).
Hypothesis Hform : P VFormRef.

(** Induction on a value through its items, properties and fulfilment. *)
Lemma Value_nested_ind : forall v : Value, P v.
Proof.
  fix IH 1. intros [| |b|n| |s|ref items|ref props|st|].
  - exact Hundefined.
  - exact Hnull.
  - apply Hbool.
  - apply Hnum.
  - exact Hnan.
  - apply Hstr.
  - apply Harr. induction items as [|x rest IHrest].
    + apply List.Forall_nil.
    + apply List.Forall_cons; [apply IH|exact IHrest].
  - apply Hobj. induction props as [|kv rest IHrest].
    + apply List.Forall_nil.
    + apply List.Forall_cons; [apply IH|exact IHrest].
  - apply Hpromise. destruct st as [x| |]; [apply IH|exact I|exact I].
  - exact Hform.
Qed.

End ValueInduction.

Lemma cloneDeep_array (ref : nat) (items : list Value) (n : nat) :
  cloneDeep (VArr ref items) n
  = (VArr n (fst (cloneItems items (S n))), snd (cloneItems items (S n))).
Proof.
  cbn [cloneDeep].
  assert (Heach : forall l m,
             (fix each (l : list Value) (n : nat) : list Value * nat :=
                match l with
                | [] => ([], n)
                | x :: rest =>
                    let '(y, n1) := cloneDeep x n in
                    let '(ys, n2) := each rest n1 in
                    (y :: ys, n2)
                end) l m = cloneItems l m).
  { induction l as [|x rest IH]; intros m; [reflexivity|].
    cbn [cloneItems]. destruct (cloneDeep x m) as [y n1].
    rewrite IH. reflexivity. }
  rewrite Heach. now destruct (cloneItems items (S n)).
Qed.

Lemma cloneDeep_object (ref : nat) (props : list (string * Value)) (n : nat) :
  cloneDeep (VObj ref props) n
  = (VObj n (fst (cloneProps props (S n))), snd (cloneProps props (S n))).
Proof.
  cbn [cloneDeep].
  assert (Heach : forall l m,
             (fix each (l : list (string * Value)) (n : nat)
                : list (string * Value) * nat :=
                match l with
                | [] => ([], n)
                | (key, x) :: rest =>
                    let '(y, n1) := cloneDeep x n in
                    let '(ys, n2) := each rest n1 in
                    ((key, y) :: ys, n2)
                end) l m = cloneProps l m).
  { induction l as [|[key x] rest IH]; intros m; [reflexivity|].
    cbn [cloneProps]. destruct (cloneDeep x m) as [y n1].
    rewrite IH. reflexivity. }
  rewrite Heach. now destruct (cloneProps props (S n)).
Qed.

Lemma refs_array (ref : nat) (items : list Value) :
  refs (VArr ref items) = ref :: refsOf items.
Proof. reflexivity. Qed.

Lemma refs_object (ref : nat) (props : list (string * Value)) :
  refs (VObj ref props) = ref :: refsOf (map snd props).
Proof.
  cbn [refs]. f_equal. unfold refsOf.
  induction props as [|[key x] rest IH]; [reflexivity|].
  cbn [map flat_map snd]. now rewrite IH.
Qed.

Lemma cloneItems_refs (items : list Value) :
  Forall (fun x => forall n,
              n <= snd (cloneDeep x n)
              /\ refs (fst (cloneDeep x n)) = seq n (snd (cloneDeep x n) - n))
    items ->
  forall n,
    n <= snd (cloneItems items n)
    /\ refsOf (fst (cloneItems items n)) = seq n (snd (cloneItems items n) - n).
Proof.
  induction 1 as [|x rest Hx _ IH]; intros n.
  - cbn. split; [lia|]. now rewrite Nat.sub_diag.
  - cbn [cloneItems]. destruct (Hx n) as [Hle Hrefs].
    destruct (cloneDeep x n) as [y n1]. cbn [fst snd] in *.
    destruct (IH n1) as [Hle' Hrefs'].
    destruct (cloneItems rest n1) as [ys n2]. cbn [fst snd] in *.
    split; [lia|]. unfold refsOf in *. cbn [flat_map].
    rewrite Hrefs, Hrefs'.
    replace (n2 - n) with ((n1 - n) + (n2 - n1)) by lia.
    rewrite seq_app. repeat f_equal. lia.
Qed.

Lemma cloneProps_refs (props : list (string * Value)) :
  Forall (fun kv => forall n,
              n <= snd (cloneDeep (snd kv) n)
              /\ refs (fst (cloneDeep (snd kv) n))
                 = seq n (snd (cloneDeep (snd kv) n) - n))
    props ->
  forall n,
    n <= snd (cloneProps props n)
    /\ refsOf (map snd (fst (cloneProps props n)))
       = seq n (snd (cloneProps props n) - n).
Proof.
  induction 1 as [|[key x] rest Hx _ IH]; intros n.
  - cbn. split; [lia|]. now rewrite Nat.sub_diag.
  - cbn [cloneProps]. cbn [snd] in Hx. destruct (Hx n) as [Hle Hrefs].
    destruct (cloneDeep x n) as [y n1]. cbn [fst snd] in *.
    destruct (IH n1) as [Hle' Hrefs'].
    destruct (cloneProps rest n1) as [ys n2]. cbn [fst snd map] in *.
    split; [lia|]. unfold refsOf in *. cbn [flat_map].
    rewrite Hrefs, Hrefs'.
    replace (n2 - n) with ((n1 - n) + (n2 - n1)) by lia.
    rewrite seq_app. repeat f_equal. lia.
Qed.

Lemma cloneDeep_refs (v : Value) :
  forall n,
    n <= snd (cloneDeep v n)
    /\ refs (fst (cloneDeep v n)) = seq n (snd (cloneDeep v n) - n).
Proof.
  induction v as [| |b|z| |s|ref items IH|ref props IH|st IH|]
    using Value_nested_ind; intros n;
    try (cbn; split; [lia|]; now rewrite Nat.sub_diag).
  - rewrite cloneDeep_array. cbn [fst snd].
    destruct (cloneItems_refs items IH (S n)) as [Hle Hrefs].
    split; [lia|]. rewrite refs_array, Hrefs.
    replace (snd (cloneItems items (S n)) - n)
      with (S (snd (cloneItems items (S n)) - S n)) by lia.
    reflexivity.
  - rewrite cloneDeep_object. cbn [fst snd].
    destruct (cloneProps_refs props IH (S n)) as [Hle Hrefs].
    split; [lia|]. rewrite refs_object, Hrefs.
    replace (snd (cloneProps props (S n)) - n)
      with (S (snd (cloneProps props (S n)) - S n)) by lia.
    reflexivity.
  - cbn. split; [lia|]. replace (S n - n) with 1 by lia. reflexivity.
  - cbn. split; [lia|]. replace (S n - n) with 1 by lia. reflexivity.
Qed.

(** X1.  [cloneDeep] gives every array and object of the copy a reference
    of its own, taken in order from the allocation counter: the references
    of the copy are the consecutive ones from the counter on, so they are
    distinct, and the copy shares no array or object with any value that
    was allocated before. *)
Theorem cloneDeep_allocates_consecutive (v : Value) (n : nat) :
  n <= snd (cloneDeep v n)
  /\ refs (fst (cloneDeep v n)) = seq n (snd (cloneDeep v n) - n)
  /\ List.NoDup (refs (fst (cloneDeep v n)))
  /\ (forall w : Value,
         (forall r, In r (refs w) -> r < n) ->
         forall r, In r (refs (fst (cloneDeep v n))) -> ~ In r (refs w)).
Proof.
  destruct (cloneDeep_refs v n) as [Hle Hrefs].
  split; [exact Hle|]. split; [exact Hrefs|]. split.
  - rewrite Hrefs. apply seq_NoDup.
  - intros w Hold r Hin Hin'. rewrite Hrefs in Hin.
    apply in_seq in Hin. apply Hold in Hin'. lia.
Qed.

(** An array of two records, copied when the counter stands at 5. *)
Lemma cloneDeep_allocates_consecutive_witness :
  let v := VArr 0 [VObj 1 [("name", VStr "a")]; VObj 2 [("name", VStr "b")]] in
  (forall r, In r (refs v) -> r < 5)
  /\ refs (fst (cloneDeep v 5)) = [5; 6; 7]
  /\ forall r, In r (refs (fst (cloneDeep v 5))) -> ~ In r (refs v).
Proof.
  intros v.
  assert (Hold : forall r, In r (refs v) -> r < 5).
  { cbn. intros r [<-|[<-|[<-|[]]]]; lia. }
  split; [exact Hold|]. split; [reflexivity|].
  exact (proj2 (proj2 (proj2 (cloneDeep_allocates_consecutive v 5))) v Hold).
Defined.

Lemma cloneItems_content (items : list Value) :
  Forall (fun x => plainData x = true ->
                   forall n, eraseRefs (fst (cloneDeep x n)) = eraseRefs x)
    items ->
  forallb plainData items = true ->
  forall n, map eraseRefs (fst (cloneItems items n)) = map eraseRefs items.
Proof.
  induction 1 as [|x rest Hx _ IH]; intros Hplain n; [reflexivity|].
  cbn [forallb] in Hplain. apply andb_true_iff in Hplain as [Hpx Hprest].
  cbn [cloneItems]. specialize (Hx Hpx n).
  destruct (cloneDeep x n) as [y n1]. cbn [fst] in Hx.
  specialize (IH Hprest n1).
  destruct (cloneItems rest n1) as [ys n2]. cbn [fst map] in *.
  now rewrite Hx, IH.
Qed.

Lemma cloneProps_content (props : list (string * Value)) :
  Forall (fun kv => plainData (snd kv) = true ->
                    forall n, eraseRefs (fst (cloneDeep (snd kv) n))
                              = eraseRefs (snd kv))
    props ->
  forallb (fun kv => plainData (snd kv)) props = true ->
  forall n,
    map (fun kv => (fst kv, eraseRefs (snd kv))) (fst (cloneProps props n))
    = map (fun kv => (fst kv, eraseRefs (snd kv))) props.
Proof.
  induction 1 as [|[key x] rest Hx _ IH]; intros Hplain n; [reflexivity|].
  cbn [forallb snd] in Hplain. apply andb_true_iff in Hplain as [Hpx Hprest].
  cbn [cloneProps]. cbn [snd] in Hx. specialize (Hx Hpx n).
  destruct (cloneDeep x n) as [y n1]. cbn [fst] in Hx.
  specialize (IH Hprest n1).
  destruct (cloneProps rest n1) as [ys n2]. cbn [fst snd map] in *.
  now rewrite Hx, IH.
Qed.

Lemma cloneDeep_content (v : Value) :
  plainData v = true ->
  forall n, eraseRefs (fst (cloneDeep v n)) = eraseRefs v.
Proof.
  induction v as [| |b|z| |s|ref items IH|ref props IH|st IH|]
    using Value_nested_ind; intros Hplain n;
    try reflexivity; try discriminate.
  - rewrite cloneDeep_array. cbn [fst eraseRefs]. cbn [plainData] in Hplain.
    now rewrite (cloneItems_content items IH Hplain).
  - rewrite cloneDeep_object. cbn [fst eraseRefs]. cbn [plainData] in Hplain.
    now rewrite (cloneProps_content props IH Hplain).
Qed.

(** X2.  The copy of plain, ordinary data (no record in it has an own
    property named like a property of [Object.prototype]) has the content
    of the original: the two are equal once the references are forgotten.
    A value that is not an object is returned as it is and nothing is
    allocated. *)
Theorem cloneDeep_keeps_content (v : Value) :
  (plainData v = true -> ordinary v = true ->
   forall n, eraseRefs (fst (cloneDeep v n)) = eraseRefs v)
  /\ (typeofObject v = false -> forall n, cloneDeep v n = (v, n)).
Proof.
  split; [|destruct v; intros Hobj m; try discriminate; reflexivity].
  intros Hplain _. now apply cloneDeep_content.
Qed.

(** The array of two records again. *)
Lemma cloneDeep_keeps_content_witness :
  let v := VArr 0 [VObj 1 [("name", VStr "a")]; VObj 2 [("name", VStr "b")]] in
  plainData v = true
  /\ ordinary v = true
  /\ eraseRefs (fst (cloneDeep v 5)) = eraseRefs v
  /\ fst (cloneDeep v 5) <> v
  /\ cloneDeep (VStr "hello") 5 = (VStr "hello", 5).
Proof.
  intros v.
  split; [reflexivity|]. split; [reflexivity|]. split.
  - apply (proj1 (cloneDeep_keeps_content v)); reflexivity.
  - split; [discriminate|].
    apply (proj2 (cloneDeep_keeps_content (VStr "hello"))). reflexivity.
Defined.

(** ** Snapshots and change detection *)

Lemma deepEqual_array (a b : nat) (xs ys : list Value) :
  deepEqual (VArr a xs) (VArr b ys) = deepEqualItems xs ys.
Proof. reflexivity. Qed.

Lemma deepEqual_object (a b : nat) (ps qs : list (string * Value)) :
  deepEqual (VObj a ps) (VObj b qs) = deepEqualProps ps qs.
Proof. reflexivity. Qed.

Lemma deepEqualItems_clones (items : list Value) :
  Forall (fun x => noNaN x = true -> forall n m,
              deepEqual (fst (cloneDeep x n)) (fst (cloneDeep x m)) = true)
    items ->
  forallb noNaN items = true ->
  forall n m,
    deepEqualItems (fst (cloneItems items n)) (fst (cloneItems items m)) = true.
Proof.
  induction 1 as [|x rest Hx _ IH]; intros Hnan n m; [reflexivity|].
  cbn [forallb] in Hnan. apply andb_true_iff in Hnan as [Hnx Hnrest].
  cbn [cloneItems]. specialize (Hx Hnx n m).
  destruct (cloneDeep x n) as [y n1], (cloneDeep x m) as [y' m1].
  specialize (IH Hnrest n1 m1).
  destruct (cloneItems rest n1) as [ys n2], (cloneItems rest m1) as [ys' m2].
  cbn [fst deepEqualItems] in *. now rewrite Hx, IH.
Qed.

Lemma deepEqualProps_clones (props : list (string * Value)) :
  Forall (fun kv => noNaN (snd kv) = true -> forall n m,
              deepEqual (fst (cloneDeep (snd kv) n))
                (fst (cloneDeep (snd kv) m)) = true)
    props ->
  forallb (fun kv => noNaN (snd kv)) props = true ->
  forall n m,
    deepEqualProps (fst (cloneProps props n)) (fst (cloneProps props m)) = true.
Proof.
  induction 1 as [|[key x] rest Hx _ IH]; intros Hnan n m; [reflexivity|].
  cbn [forallb snd] in Hnan. apply andb_true_iff in Hnan as [Hnx Hnrest].
  cbn [cloneProps]. cbn [snd] in Hx. specialize (Hx Hnx n m).
  destruct (cloneDeep x n) as [y n1], (cloneDeep x m) as [y' m1].
  specialize (IH Hnrest n1 m1).
  destruct (cloneProps rest n1) as [ys n2], (cloneProps rest m1) as [ys' m2].
  cbn [fst deepEqualProps] in *. now rewrite String.eqb_refl, Hx, IH.
Qed.

(** Two copies of one value that holds no [NaN] are deep-equal, whenever
    they were made. *)
Lemma deepEqual_clones (v : Value) :
  noNaN v = true ->
  forall n m, deepEqual (fst (cloneDeep v n)) (fst (cloneDeep v m)) = true.
Proof.
  induction v as [| |b|z| |s|ref items IH|ref props IH|st IH|]
    using Value_nested_ind; intros Hnan n m; try reflexivity.
  - cbn. apply Bool.eqb_reflx.
  - cbn. apply Z.eqb_refl.
  - discriminate Hnan.
  - cbn. apply String.eqb_refl.
  - rewrite !cloneDeep_array. cbn [fst]. rewrite deepEqual_array.
    now apply deepEqualItems_clones.
  - rewrite !cloneDeep_object. cbn [fst]. rewrite deepEqual_object.
    now apply deepEqualProps_clones.
Qed.

Section Snapshots.
Context {W : Type}.

Lemma createField_result (key : string) (init : @FieldInit W) (run : @Run W) :
  fst (createField key init run)
  = {| field_value := init_value init;
       field_name := key;
       fieldRules := createValidationObject (init_rules init);
       field_dirty := false;
       field_touched := false;
       field_valid := true;
       field_focused := false;
       field_errors := [];
       field_pending := false;
       fieldPrevValue := fst (cloneDeep (init_value init) (nextRef run)) |}.
Proof.
  unfold createField, bind, ret, cloneDeepM.
  destruct (cloneDeep (init_value init) (nextRef run)); reflexivity.
Qed.

Lemma isUnequal_snapshot (f : @Field W) (r : @Run W) (m : nat) :
  fieldPrevValue f = fst (cloneDeep (field_value f) m) ->
  steady (field_value f) ->
  fst (isUnequal f r) = false.
Proof.
  intros Hprev Hkind. unfold isUnequal. rewrite Hprev.
  destruct (field_value f) as [| |b|z| |s|ref items|ref props|st|] eqn:Hv;
    cbn [isArray typeofObject negb orb];
    try (destruct Hkind as [(? & _)|[(? & _)|?]]; discriminate).
  - reflexivity.
  - reflexivity.
  - cbn. now rewrite Bool.eqb_reflx.
  - cbn. now rewrite Z.eqb_refl.
  - destruct Hkind as [(? & _)|[(_ & Hnan)|?]]; try discriminate.
    now contradiction Hnan.
  - cbn. now rewrite String.eqb_refl.
  - destruct Hkind as [(_ & Hnan & _)|[(? & _)|?]]; try discriminate.
    unfold bind, ret, cloneDeepM.
    destruct (cloneDeep (VArr ref items) (nextRef r)) as [clone n'] eqn:Hc.
    cbn [fst]. change clone with (fst (clone, n')). rewrite <- Hc.
    now rewrite deepEqual_clones.
Qed.

(** A field whose value is [NaN] counts as changed whatever its snapshot
    is. *)
Lemma isUnequal_NaN (f : @Field W) (r : @Run W) :
  field_value f = VNaN -> isUnequal f r = (true, r).
Proof. intros Hv. unfold isUnequal. now rewrite Hv. Qed.

(** X3.  A field whose snapshot is a copy of its present value, as
    [createField] and the watcher leave it, is not counted as changed by
    the watcher when the value is an array of ordinary data without [NaN],
    [null], or not an object and not [NaN]; the field [createField] has
    just built is of this kind.  A field whose value is [NaN] is counted
    as changed every time. *)
Theorem snapshot_is_not_a_change (field : @Field W) (run : @Run W) (n : nat) :
  fieldPrevValue field = fst (cloneDeep (field_value field) n) ->
  steady (field_value field) ->
  fst (isUnequal field run) = false
  /\ (forall key (init : @FieldInit W) (run0 run1 : @Run W),
        init_value init = field_value field ->
        fst (isUnequal (fst (createField key init run0)) run1) = false)
  /\ (forall key (rules : option (list KindOfRule)) (run0 run1 : @Run W),
        fst (isUnequal
               (fst (createField key
                       {| init_value := VNaN; init_rules := rules |} run0))
               run1)
        = true).
Proof.
  intros Hprev Hkind.
  split; [exact (isUnequal_snapshot field run n Hprev Hkind)|]. split.
  - intros key init run0 run1 Hinit.
    rewrite createField_result.
    apply (isUnequal_snapshot _ run1 (nextRef run0)); [reflexivity|].
    cbn [field_value]. now rewrite Hinit.
  - intros key rules run0 run1. rewrite createField_result. reflexivity.
Qed.

End Snapshots.

(** A field holding an array of records, as built. *)
Lemma snapshot_is_not_a_change_witness :
  let rows := VArr 0 [VObj 0 [("name", VStr "a")]] in
  let field : @Field unit :=
    fst (createField "rows" {| init_value := rows; init_rules := None |}
           (freshRun tt)) in
  fieldPrevValue field = fst (cloneDeep (field_value field) 1)
  /\ fst (isUnequal field (freshRun tt)) = false.
Proof.
  intros rows field.
  assert (Hprev : fieldPrevValue field = fst (cloneDeep (field_value field) 1))
    by reflexivity.
  split; [exact Hprev|].
  refine (proj1 (snapshot_is_not_a_change field (freshRun tt) 1 Hprev _)).
  left. repeat split; reflexivity.
Defined.

(** ** Evaluation of a rule list *)

Lemma createInternalValidationResults_arr (items : list Value) :
  createInternalValidationResults (arr items)
  = {| valid := Nat.eqb (length (flat_map contributes items)) 0;
       errors := flat_map contributes items |}.
Proof.
  unfold createInternalValidationResults, arr.
  now rewrite filter_map_contributes.
Qed.

Lemma flat_app (xs ys : list Value) : flat (xs ++ ys) = flat xs ++ flat ys.
Proof. apply flat_map_app. Qed.

Lemma contributed_app (xs ys : list Value) :
  contributed (xs ++ ys) = contributed xs ++ contributed ys.
Proof. unfold contributed. now rewrite flat_app, flat_map_app. Qed.

Lemma promiseAll_app (xs ys : list Value) :
  promiseAll (xs ++ ys) = bothSettle (promiseAll xs) (promiseAll ys).
Proof.
  induction xs as [|x xs IH]; cbn [app promiseAll].
  - now destruct (promiseAll ys).
  - rewrite IH.
    destruct (awaitValue x), (promiseAll xs), (promiseAll ys); reflexivity.
Qed.

(** The promise of a pass is decided by what its awaited results leave as
    errors. *)
Lemma validationPromise_contributed (xs ys : list Value) :
  andThen (promiseAll xs) contributed = andThen (promiseAll ys) contributed ->
  validationPromise xs = validationPromise ys.
Proof.
  unfold validationPromise.
  destruct (promiseAll xs) as [vs| |], (promiseAll ys) as [ws| |];
    cbn; intros Heq; try discriminate; try reflexivity.
  injection Heq as Heq. unfold contributed in Heq.
  now rewrite !createInternalValidationResults_arr, Heq.
Qed.

Lemma andThen_bothSettle (p q p' q' : Settlement (list Value)) :
  andThen p contributed = andThen p' contributed ->
  andThen q contributed = andThen q' contributed ->
  andThen (bothSettle p q) contributed
  = andThen (bothSettle p' q') contributed.
Proof.
  destruct p, p', q, q'; cbn; intros H1 H2;
    try discriminate; try reflexivity.
  injection H1 as H1. injection H2 as H2.
  now rewrite !contributed_app, H1, H2.
Qed.

Section RuleLists.
Context {W : Type}.
Implicit Types (r : @InternalRule W) (rules : list (@InternalRule W))
  (run : @Run W).

Lemma runsb_runs r shouldValidate promise :
  runsb r shouldValidate promise = true <-> runs r shouldValidate promise.
Proof.
  unfold runsb, runs. destruct (rule r) as [f|].
  - split.
    + intros Hb. exists f. split; [reflexivity|].
      destruct (autoValidate r) as [[|]|], shouldValidate,
        (isAsyncFunction f), promise; cbn in Hb; try discriminate;
        split; intros [? ?]; discriminate.
    + intros (f' & [= <-] & Hauto & Hasync).
      destruct (autoValidate r) as [[|]|], shouldValidate,
        (isAsyncFunction f), promise; cbn; try reflexivity;
        exfalso; solve [apply Hauto; now split | apply Hasync; now split].
  - split; [discriminate|]. intros (f & ? & _). discriminate.
Qed.

Lemma processValidationObject_skipped r args shouldValidate promise run :
  runsb r shouldValidate promise = false ->
  processValidationObject r args shouldValidate promise run = (VUndefined, run).
Proof.
  intros Hb. apply processValidationObject_skips.
  intros Hruns. apply runsb_runs in Hruns. congruence.
Qed.

(** Evaluating a list with the rules that do not run left out gives the
    same run and, but for [undefined] entries, the same results. *)
Lemma mapM_skipped rules args shouldValidate promise run :
  let f := fun v : @InternalRule W =>
             processValidationObject v args shouldValidate promise in
  let keep := fun v : @InternalRule W => runsb v shouldValidate promise in
  snd (mapM f rules run) = snd (mapM f (List.filter keep rules) run)
  /\ contributed (flat (fst (mapM f rules run)))
     = contributed (flat (fst (mapM f (List.filter keep rules) run)))
  /\ andThen (promiseAll (flat (fst (mapM f rules run)))) contributed
     = andThen (promiseAll (flat (fst (mapM f (List.filter keep rules) run))))
         contributed.
Proof.
  intros f keep. revert run.
  induction rules as [|r rules IH]; intros run; [now repeat split|].
  cbn [List.filter]. destruct (keep r) eqn:Hkeep.
  - cbn [mapM]. unfold bind, ret.
    destruct (f r run) as [y run1].
    destruct (IH run1) as (Hrun & Hsync & Hasync).
    destruct (mapM f rules run1) as [ys run2],
      (mapM f (List.filter keep rules) run1) as [ys' run2'].
    cbn [fst snd] in *. split; [exact Hrun|]. split.
    + change (y :: ys) with ([y] ++ ys). change (y :: ys') with ([y] ++ ys').
      now rewrite !flat_app, !contributed_app, Hsync.
    + change (y :: ys) with ([y] ++ ys). change (y :: ys') with ([y] ++ ys').
      rewrite !flat_app, !promiseAll_app.
      now apply andThen_bothSettle.
  - cbn [mapM]. unfold bind, ret. unfold f at 1 4 7.
    rewrite (processValidationObject_skipped r args _ _ run Hkeep).
    destruct (IH run) as (Hrun & Hsync & Hasync).
    destruct (mapM f rules run) as [ys run2],
      (mapM f (List.filter keep rules) run) as [ys' run2'].
    cbn [fst snd] in *. split; [exact Hrun|]. split.
    + rewrite <- Hsync. reflexivity.
    + rewrite <- Hasync. cbn [flat flat_map app promiseAll awaitValue].
      fold (flat ys). now destruct (promiseAll (flat ys)).
Qed.

Lemma validateInternal_results rules args options run :
  let shouldValidate := default false (options ≫= alwaysValidate) in
  let allowAsync := default false (options ≫= promise) in
  let results :=
    mapM (fun v => processValidationObject v args shouldValidate allowAsync)
      rules run in
  validateInternal (Some rules) args options run
  = (if allowAsync then Later (validationPromise (flat (fst results)))
     else Now (createInternalValidationResults
                 (arr (flat (flat (fst results))))),
     snd results).
Proof.
  cbn zeta. unfold validateInternal, bind, ret.
  destruct (mapM _ rules run) as [results run1].
  now destruct (default false (options ≫= promise)).
Qed.

(** X4.  A rule that does not pass the gate, for want of a callable, as a
    manual rule in an automatic pass, or as an async function in a
    synchronous pass, counts for nothing: the pass returns what it returns
    for the list without these rules and leaves the same run behind.  A
    list of which no rule passes the gate is valid, and nothing is
    invoked. *)
Theorem validateInternal_ignores_skipped_rules rules args options run :
  let shouldValidate := default false (options ≫= alwaysValidate) in
  let allowAsync := default false (options ≫= promise) in
  validateInternal (Some rules) args options run
  = validateInternal
      (Some (List.filter (fun r => runsb r shouldValidate allowAsync) rules))
      args options run
  /\ (List.filter (fun r => runsb r shouldValidate allowAsync) rules = [] ->
      validateInternal (Some rules) args options run
      = (if allowAsync
         then Later (Fulfills {| valid := true; errors := [] |})
         else Now {| valid := true; errors := [] |},
         run)).
Proof.
  intros shouldValidate allowAsync.
  assert (Hsame : validateInternal (Some rules) args options run
                  = validateInternal
                      (Some (List.filter
                               (fun r => runsb r shouldValidate allowAsync)
                               rules))
                      args options run).
  { rewrite !validateInternal_results.
    fold shouldValidate allowAsync.
    destruct (mapM_skipped rules args shouldValidate allowAsync run)
      as (Hrun & Hsync & Hasync).
    cbn zeta in Hrun, Hsync, Hasync. rewrite <- Hrun. f_equal.
    destruct allowAsync.
    - f_equal. now apply validationPromise_contributed.
    - f_equal. rewrite !createInternalValidationResults_arr.
      unfold contributed in Hsync. now rewrite Hsync. }
  split; [exact Hsame|].
  intros Hnone. rewrite Hsame, Hnone.
  unfold validateInternal. fold allowAsync. cbn.
  now destruct allowAsync.
Qed.

End RuleLists.

(** A manual rule and an async function next to the rule of the tests, in
    an automatic synchronous pass: only the rule of the tests is invoked. *)
Lemma validateInternal_ignores_skipped_rules_witness :
  let manual := {| rule := Some countingRule; autoValidate := Some false |} in
  let auto := {| rule := Some countingRule; autoValidate := None |} in
  let async := {| rule := Some agingRule; autoValidate := None |} in
  List.filter (fun r => runsb r false false) [manual; async] = []
  /\ validateInternal (Some [manual; async]) [VStr "x"] None (freshRun 0)
     = (Now {| valid := true; errors := [] |}, freshRun 0)
  /\ validateInternal (Some [manual; auto; async]) [VStr "x"] None (freshRun 0)
     = validateInternal (Some [auto]) [VStr "x"] None (freshRun 0).
Proof.
  intros manual auto async.
  assert (Hnone : List.filter (fun r => runsb r false false) [manual; async]
                  = []) by reflexivity.
  split; [exact Hnone|]. split.
  - exact (proj2 (validateInternal_ignores_skipped_rules
                    [manual; async] [VStr "x"] None (freshRun 0)) Hnone).
  - exact (proj1 (validateInternal_ignores_skipped_rules
                    [manual; auto; async] [VStr "x"] None (freshRun 0))).
Defined.

(** ** What a validation result holds *)

Lemma contributes_isErrorValue (e : Value) : Forall isErrorValue (contributes e).
Proof.
  destruct e as [| |[|]| | | | | | |]; cbn; repeat constructor;
    try discriminate; intros b; discriminate.
Qed.

Lemma createInternalValidationResults_consistent (raw : Value) :
  consistentResult (createInternalValidationResults raw).
Proof.
  split.
  - unfold createInternalValidationResults. cbn [valid errors].
    rewrite Nat.eqb_eq. apply length_zero_iff_nil.
  - rewrite createInternalValidationResults_errors.
    induction (rawEntries raw) as [|e rest IH]; cbn [flat_map].
    + constructor.
    + apply Forall_app. split; [apply contributes_isErrorValue|exact IH].
Qed.

Lemma validationPromise_consistent (validation : list Value)
    (r : InternalValidationResult) :
  validationPromise validation = Fulfills r -> consistentResult r.
Proof.
  unfold validationPromise.
  destruct (promiseAll validation); cbn; intros [= <-];
    apply createInternalValidationResults_consistent.
Qed.

Section ResultInvariant.
Context {W : Type}.

(** X5.  Whatever the rules return, the result of a pass, awaited or not,
    is consistent: [valid] holds exactly when [errors] is empty, and
    [errors] never holds [undefined], [null] or a boolean.  A field that
    such a result is written to has [valid] exactly when it has no
    errors. *)
Theorem validateInternal_result_consistent
    (obj : option (list (@InternalRule W))) args options (run : @Run W)
    (r : InternalValidationResult) :
  fst (validateInternal obj args options run) = Now r
  \/ fst (validateInternal obj args options run) = Later (Fulfills r) ->
  consistentResult r
  /\ forall (s : @FormState W) path token f',
      formValidationLock s = Some token ->
      getField path (validate_resume path token r s) = Some f' ->
      (field_valid f' = true <-> field_errors f' = []).
Proof.
  intros Hr.
  assert (Hcons : consistentResult r).
  { destruct obj as [rules|].
    - rewrite validateInternal_results in Hr. cbn [fst] in Hr.
      destruct (default false (options ≫= promise)).
      + destruct Hr as [Hr|Hr]; [discriminate|]. injection Hr as Hr.
        now apply validationPromise_consistent in Hr.
      + destruct Hr as [Hr|Hr]; [|discriminate]. injection Hr as <-.
        apply createInternalValidationResults_consistent.
    - unfold validateInternal in Hr.
      destruct (default false (options ≫= promise)); cbn in Hr.
      + destruct Hr as [Hr|Hr]; [discriminate|]. injection Hr as <-.
        split; [now split|constructor].
      + destruct Hr as [Hr|Hr]; [|discriminate]. injection Hr as <-.
        split; [now split|constructor]. }
  split; [exact Hcons|].
  intros s path token f' Hlock Hget. unfold validate_resume in Hget.
  rewrite bool_decide_eq_true_2 in Hget by exact Hlock.
  rewrite !getField_updateField_same in Hget.
  destruct (getField path s) as [f|]; [|discriminate].
  injection Hget as <-. cbn. apply Hcons.
Qed.

End ResultInvariant.

(** The rule of the tests and a rule that returns [true]. *)
Lemma validateInternal_result_consistent_witness :
  let rules :=
    [ {| rule := Some countingRule; autoValidate := None |};
      {| rule := Some {| isAsyncFunction := false;
                         body := fun _ (n : nat) => (VBool true, n) |};
         autoValidate := None |} ] in
  fst (validateInternal (Some rules) [VStr "x"] None (freshRun 0))
  = Now {| valid := false; errors := [VStr "some error"] |}
  /\ consistentResult {| valid := false; errors := [VStr "some error"] |}.
Proof.
  intros rules.
  assert (Hr : fst (validateInternal (Some rules) [VStr "x"] None (freshRun 0))
               = Now {| valid := false; errors := [VStr "some error"] |})
    by reflexivity.
  split; [exact Hr|].
  exact (proj1 (validateInternal_result_consistent
                  (Some rules) [VStr "x"] None (freshRun 0) _
                  (or_introl Hr))).
Defined.

(** ** Synchronous rules in an asynchronous pass *)

Lemma promiseAll_settled (xs : list Value) :
  (forall x, In x xs -> instanceofPromise x = false) ->
  promiseAll xs = Fulfills xs.
Proof.
  induction xs as [|x xs IH]; intros Hplain; [reflexivity|].
  cbn [promiseAll]. rewrite IH by (intros y Hy; apply Hplain; now right).
  assert (instanceofPromise x = false) as Hx by (apply Hplain; now left).
  destruct x; try discriminate; reflexivity.
Qed.

Section SyncRules.
Context {W : Type}.
Implicit Types (r : @InternalRule W) (rules : list (@InternalRule W))
  (run : @Run W).

Lemma returnsNoPromise_first (f : @RuleFunction W) args w :
  returnsNoPromise f -> instanceofPromise (fst (body f args w)) = false.
Proof.
  intros [_ Hplain]. specialize (Hplain args w (fst (body f args w))).
  destruct (fst (body f args w)); try reflexivity.
  apply Hplain. now left.
Qed.

Lemma processValidationObject_sync r args shouldValidate run :
  (forall f, rule r = Some f -> returnsNoPromise f) ->
  processValidationObject r args shouldValidate true run
  = processValidationObject r args shouldValidate false run
  /\ forall x,
      In x (flat [fst (processValidationObject r args shouldValidate true run)])
      -> instanceofPromise x = false.
Proof.
  intros Hsync. unfold processValidationObject.
  destruct (rule r) as [f|]; [|split; [reflexivity|]].
  - specialize (Hsync f eq_refl). pose proof Hsync as [Hasync Hplain].
    rewrite Hasync. cbn [andb orb negb]. rewrite !orb_false_r.
    destruct (negb (default true (autoValidate r)) && negb shouldValidate).
    + split; [reflexivity|]. cbn. intros x [<-|[]]. reflexivity.
    + unfold bind, ret, invoke.
      pose proof (returnsNoPromise_first f args (world run) Hsync) as Hfirst.
      destruct (body f args (world run)) as [first w1]. cbn [fst] in Hfirst.
      rewrite Hfirst. cbn [andb world]. split; [reflexivity|].
      intros x. specialize (Hplain args w1 x).
      destruct (body f args w1) as [second w2]. exact Hplain.
  - cbn. intros x [<-|[]]. reflexivity.
Qed.

Lemma mapM_sync rules args shouldValidate run :
  Forall (fun r => forall f, rule r = Some f -> returnsNoPromise f) rules ->
  mapM (fun v => processValidationObject v args shouldValidate true) rules run
  = mapM (fun v => processValidationObject v args shouldValidate false)
      rules run
  /\ forall x,
      In x (flat (fst (mapM (fun v =>
                               processValidationObject v args shouldValidate
                                 true)
                         rules run)))
      -> instanceofPromise x = false.
Proof.
  intros Hsync. revert run.
  induction Hsync as [|r rules Hr _ IH]; intros run.
  - split; [reflexivity|]. intros x [].
  - cbn [mapM]. unfold bind, ret.
    destruct (processValidationObject_sync r args shouldValidate run Hr)
      as [Heq Hplain].
    rewrite <- Heq.
    destruct (processValidationObject r args shouldValidate true run)
      as [y run1].
    destruct (IH run1) as [IHeq IHplain]. rewrite <- IHeq.
    destruct (mapM _ rules run1) as [ys run2]. cbn [fst] in *.
    split; [reflexivity|].
    intros x Hx. change (y :: ys) with ([y] ++ ys) in Hx.
    rewrite flat_app in Hx. apply in_app_iff in Hx as [Hx|Hx]; auto.
Qed.

(** X6.  For rules that are not async functions and return neither a
    promise nor a list that holds one, a pass that awaits and a pass that
    does not make the same invocations and come to the same result: the
    promise of the first fulfills with what the second returns. *)
Theorem validateInternal_sync_rules_agree rules args always run :
  Forall (fun r => forall f, rule r = Some f -> returnsNoPromise f) rules ->
  exists result run',
    validateInternal (Some rules) args
      (Some {| promise := Some false; alwaysValidate := always |}) run
    = (Now result, run')
    /\ validateInternal (Some rules) args
         (Some {| promise := Some true; alwaysValidate := always |}) run
       = (Later (Fulfills result), run').
Proof.
  intros Hsync. rewrite !validateInternal_results. cbn.
  destruct (mapM_sync rules args (default false always) run Hsync)
    as [Heq Hplain].
  rewrite <- Heq.
  destruct (mapM _ rules run) as [results run1]. cbn [fst snd] in *.
  eexists _, run1. split; [reflexivity|].
  unfold validationPromise. rewrite promiseAll_settled by exact Hplain.
  reflexivity.
Qed.

End SyncRules.

(** The rule of the tests, evaluated both ways. *)
Lemma validateInternal_sync_rules_agree_witness :
  let rules := [ {| rule := Some countingRule; autoValidate := None |} ] in
  Forall (fun r => forall f, rule r = Some f -> returnsNoPromise f) rules
  /\ exists result run',
      validateInternal (Some rules) [VStr "x"]
        (Some {| promise := Some false; alwaysValidate := None |}) (freshRun 0)
      = (Now result, run')
      /\ validateInternal (Some rules) [VStr "x"]
           (Some {| promise := Some true; alwaysValidate := None |})
           (freshRun 0)
         = (Later (Fulfills result), run').
Proof.
  intros rules.
  assert (Hsync : Forall (fun r => forall f, rule r = Some f ->
                                             returnsNoPromise f) rules).
  { constructor; [|constructor]. intros f Hf. cbn in Hf.
    injection Hf as <-. split; [reflexivity|].
    intros args w x [<-|[]]. reflexivity. }
  split; [exact Hsync|].
  exact (validateInternal_sync_rules_agree rules [VStr "x"] None (freshRun 0)
           Hsync).
Defined.

(** ** A suppressed automatic pass *)

Section Suppression.
Context {W : Type}.
Implicit Types (s : @FormState W) (run : @Run W).

Lemma foldM_invariant_run {A B} (P : B -> @Run W -> Prop)
    (f : A -> B -> @M W B) :
  (forall x b run, P b run -> P (fst (f x b run)) (snd (f x b run))) ->
  forall xs b run, P b run -> P (fst (foldM f xs b run)) (snd (foldM f xs b run)).
Proof.
  intros Hf xs. induction xs as [|x xs IH]; intros b run Hb; [exact Hb|].
  cbn [foldM]. unfold bind.
  pose proof (Hf x b run Hb) as Hstep.
  destruct (f x b run) as [b' run']. now apply IH.
Qed.

Lemma cloneDeepM_quiet (v : Value) run :
  world (snd (cloneDeepM v run)) = world run
  /\ calls (snd (cloneDeepM v run)) = calls run.
Proof.
  unfold cloneDeepM. now destruct (cloneDeep v (nextRef run)).
Qed.

Lemma isUnequal_quiet (field : @Field W) run :
  world (snd (isUnequal field run)) = world run
  /\ calls (snd (isUnequal field run)) = calls run.
Proof.
  unfold isUnequal.
  destruct (negb (isArray (field_value field))
            || negb (typeofObject (field_value field))); [now split|].
  unfold bind, ret.
  pose proof (cloneDeepM_quiet (field_value field) run) as Hq.
  now destruct (cloneDeepM (field_value field) run).
Qed.

Lemma filterM_isUnequal_quiet (fs : list (FieldPath * @Field W)) run :
  world (snd (filterM (fun pf => isUnequal (snd pf)) fs run)) = world run
  /\ calls (snd (filterM (fun pf => isUnequal (snd pf)) fs run)) = calls run.
Proof.
  revert run. induction fs as [|pf fs IH]; intros run; [now split|].
  cbn [filterM]. unfold bind, ret.
  pose proof (isUnequal_quiet (snd pf) run) as [Hw Hc].
  destruct (isUnequal (snd pf) run) as [keep run1].
  destruct (IH run1) as [Hw' Hc'].
  destruct (filterM _ fs run1) as [kept run2]. cbn [snd] in *.
  split; congruence.
Qed.

Lemma updateField_flags path (g : @Field W -> @Field W) s :
  formIgnoreValidation (updateField path g s) = formIgnoreValidation s
  /\ formIgnoreDirty (updateField path g s) = formIgnoreDirty s
  /\ form_pending (updateField path g s) = form_pending s
  /\ errorFields (updateField path g s) = errorFields s
  /\ form_valid (updateField path g s) = form_valid s.
Proof. destruct path; repeat split; reflexivity. Qed.

Lemma validation_snapshot_write path path' (v : Value) s :
  validation (getField path' (updateField path (setFieldPrevValue v) s))
  = validation (getField path' s).
Proof.
  destruct (getField_updateField path path' (setFieldPrevValue v) s)
    as [-> | ->]; [reflexivity|].
  now destruct (getField path' s).
Qed.

(** X7.  While [formIgnoreValidation] is set, as [setFields] and the resets
    leave it, a run of the watcher starts no validation and invokes no
    rule; no field's [valid] or [errors] changes, and the form's errors are
    not recomputed: [validateFormInternal] answers valid at once and
    leaves the state alone.  The run ends by clearing the flag. *)
Theorem validationWatcher_suppressed (id : string) s run :
  formIgnoreValidation s = true ->
  let out := validationWatcher_begin id s run in
  let s' := snd (fst out) in
  let run' := snd out in
  snd (fst (fst out)) = []
  /\ calls run' = calls run
  /\ world run' = world run
  /\ (forall path, validation (getField path s') = validation (getField path s))
  /\ form_errors s' = form_errors s
  /\ (forall options,
         validateFormInternal options s' run'
         = (Done {| fv_valid := true; fv_errors := []; fv_errorFields := [] |},
            s', run'))
  /\ formIgnoreValidation (validationWatcher_end s') = false.
Proof.
  intros Hignore out s' run'. subst out s' run'.
  unfold validationWatcher_begin, bind, ret.
  pose proof (filterM_isUnequal_quiet (getAllFieldsAt s) run) as [Hw Hc].
  destruct (filterM _ (getAllFieldsAt s) run) as [unequalValues run1].
  cbn [snd] in Hw, Hc.
  set (s2 := setFormPending true (createValidateFieldFunction id s)).
  pose proof (foldM_invariant_run
                (fun (b : Pending * FormState) (r : Run) =>
                   fst b = []
                   /\ formIgnoreValidation (snd b) = true
                   /\ world r = world run /\ calls r = calls run
                   /\ form_errors (snd b) = form_errors s
                   /\ forall path,
                       validation (getField path (snd b))
                       = validation (getField path s))
                watcherPromise) as Hinv.
  assert (Hstep : forall x (b : Pending * FormState) (r : Run),
             (fst b = []
              /\ formIgnoreValidation (snd b) = true
              /\ world r = world run /\ calls r = calls run
              /\ form_errors (snd b) = form_errors s
              /\ forall path,
                  validation (getField path (snd b))
                  = validation (getField path s)) ->
             fst (fst (watcherPromise x b r)) = []
             /\ formIgnoreValidation (snd (fst (watcherPromise x b r))) = true
             /\ world (snd (watcherPromise x b r)) = world run
             /\ calls (snd (watcherPromise x b r)) = calls run
             /\ form_errors (snd (fst (watcherPromise x b r))) = form_errors s
             /\ forall path,
                 validation (getField path (snd (fst (watcherPromise x b r))))
                 = validation (getField path s)).
  { intros [path field] [waiting s0] r (Hwait & Hflag & Hw0 & Hc0 & He0 & Hv0).
    cbn [fst snd] in *. unfold watcherPromise, bind, ret.
    pose proof (cloneDeepM_quiet (field_value field) r) as [Hw1 Hc1].
    destruct (cloneDeepM (field_value field) r) as [clone r1].
    cbn [snd] in Hw1, Hc1.
    destruct (updateField_flags path (setFieldPrevValue clone) s0)
      as (Hflag' & _).
    rewrite Hflag', Hflag. cbn [fst snd].
    repeat split; try congruence.
    - now rewrite updateField_form_errors.
    - intros path'. now rewrite validation_snapshot_write. }
  specialize (Hinv Hstep unequalValues ([], s2) run1).
  destruct (foldM watcherPromise unequalValues ([], s2) run1)
    as [[waiting s3] run3].
  cbn [fst snd] in *.
  destruct Hinv as (Hwait & Hflag & Hw3 & Hc3 & He3 & Hv3).
  { repeat split; try assumption; reflexivity. }
  repeat split; try assumption.
  - intros options. unfold validateFormInternal. now rewrite Hflag.
Qed.

End Suppression.


Lemma validationWatcher_suppressed_witness :
  let s := snd (formSetFields [("input1", VStr "new")] None editedForm) in
  let out := validationWatcher_begin "token" s (freshRun 0) in
  formIgnoreValidation s = true
  /\ snd (fst (fst out)) = []
  /\ calls (snd out) = []
  /\ form_errors (snd (fst out)) = [].
Proof.
  intros s out.
  assert (Hignore : formIgnoreValidation s = true) by reflexivity.
  split; [exact Hignore|].
  destruct (validationWatcher_suppressed "token" s (freshRun 0) Hignore)
    as (Hnone & Hcalls & _ & _ & Herrors & _).
  split; [exact Hnone|]. split; [exact Hcalls|exact Herrors].
Defined.

(** ** setFields and setRules *)

Section Assignments.
Context {W : Type}.
Implicit Types (s : @FormState W) (f : @Field W) (g : @Field W -> @Field W).

Lemma getField_updateField_other (key key' : string) g s :
  key <> key' ->
  getField (Top key') (updateField (Top key) g s) = getField (Top key') s.
Proof.
  intros Hne. cbn [getField updateField setFields fields].
  rewrite getProp_alterProp.
  destruct (String.eqb_spec key key') as [Heq|_]; [contradiction|reflexivity].
Qed.


Lemma alterProp_keys {A} (key : string) (h : A -> A) (obj : list (string * A)) :
  map fst (alterProp key h obj) = map fst obj.
Proof.
  induction obj as [|[k x] obj IH]; [reflexivity|].
  cbn [alterProp]. destruct (String.eqb k key); cbn [map fst]; congruence.
Qed.

Lemma updateField_keys path g s :
  map fst (fields (updateField path g s)) = map fst (fields s).
Proof.
  destruct path; cbn [updateField setFields fields]; apply alterProp_keys.
Qed.

Lemma assignValues_flags (values : list (string * Value)) s :
  formIgnoreValidation (snd (assignValues values s)) = formIgnoreValidation s
  /\ formIgnoreDirty (snd (assignValues values s)) = formIgnoreDirty s.
Proof.
  revert s. induction values as [|[k v] rest IH]; intros s; [now split|].
  cbn [assignValues]. destruct (getProp k (fields s)).
  - destruct (IH (updateField (Top k) (setFieldValue v) s)) as [-> ->].
    now destruct (updateField_flags (Top k) (setFieldValue v) s)
      as (-> & -> & _).
  - destruct (includes objectPrototypeKeys k); [apply IH|now split].
Qed.

Lemma assignValues_keys (values : list (string * Value)) : forall s,
  map fst (fields (snd (assignValues values s))) = map fst (fields s).
Proof.
  induction values as [|[k v] values IH]; intros s; [reflexivity|].
  cbn [assignValues]. destruct (getProp k (fields s)).
  - rewrite IH. apply updateField_keys.
  - destruct (includes objectPrototypeKeys k); [apply IH|reflexivity].
Qed.


Lemma assignValues_other (values : list (string * Value)) s (key : string) :
  ~ In key (map fst values) ->
  getField (Top key) (snd (assignValues values s)) = getField (Top key) s.
Proof.
  revert s. induction values as [|[k v] rest IH]; intros s Hout; [reflexivity|].
  cbn [assignValues]. destruct (getProp k (fields s)).
  - rewrite IH by (intros Hin; apply Hout; now right).
    apply getField_updateField_other. intros ->. apply Hout. now left.
  - destruct (includes objectPrototypeKeys k); [|reflexivity].
    apply IH. intros Hin. apply Hout. now right.
Qed.

Lemma assignValues_value (values : list (string * Value)) s key v f :
  List.NoDup (map fst values) ->
  fst (assignValues values s) = None ->
  In (key, v) values ->
  getField (Top key) s = Some f ->
  getField (Top key) (snd (assignValues values s)) = Some (setFieldValue v f).
Proof.
  revert s. induction values as [|[k v0] rest IH]; intros s Hnd Hok Hin Hf;
    [destruct Hin|].
  cbn [map fst] in Hnd. apply List.NoDup_cons_iff in Hnd as [Hk Hnd].
  cbn [assignValues] in *.
  destruct (getProp k (fields s)) as [e|] eqn:Hget.
  - destruct Hin as [[= -> ->]|Hin].
    + rewrite assignValues_other by exact Hk.
      now rewrite getField_updateField_same, Hf.
    + apply IH; try assumption.
      rewrite getField_updateField_other; [exact Hf|].
      intros ->. apply Hk. apply (in_map fst) in Hin. exact Hin.
  - destruct (includes objectPrototypeKeys k); [|discriminate].
    destruct Hin as [[= -> ->]|Hin].
    + cbn [getField] in Hf. now rewrite Hget in Hf.
    + now apply IH.
Qed.

Lemma formSetFields_assigns_flags (values : list (string * Value))
    (options : option SetFieldsOptions) s :
  formIgnoreValidation (snd (formSetFields values options s))
  = negb (default false (options ≫= opt_validate))
  /\ formIgnoreDirty (snd (formSetFields values options s))
     = negb (default true (options ≫= opt_setDirty)).
Proof.
  unfold formSetFields.
  set (s2 := setFormIgnoreDirty _ (setFormIgnoreValidation _ s)).
  destruct (assignValues_flags values s2) as [-> ->]. now split.
Qed.


(** X9.  A value assigned through [setFields] with [setDirty: false] does
    not mark anything dirty: the watcher of the field's value finds
    [formIgnoreDirty] set and does nothing.  Once the [nextTick] callback
    has run, or with the default options, the watcher sets [dirty] on the
    field and on the form and changes nothing else of the field. *)
Theorem formSetFields_dirty (values : list (string * Value))
    (validate : option bool) s path :
  let quiet :=
    snd (formSetFields values
           (Some {| opt_setDirty := Some false; opt_validate := validate |})
           s) in
  let loud := snd (formSetFields values None s) in
  let marked (f : @Field W) :=
    {| field_value := field_value f; field_name := field_name f;
       fieldRules := fieldRules f; field_dirty := true;
       field_touched := field_touched f; field_valid := field_valid f;
       field_focused := field_focused f; field_errors := field_errors f;
       field_pending := field_pending f;
       fieldPrevValue := fieldPrevValue f |} in
  dirtyWatcher path quiet = quiet
  /\ form_dirty (dirtyWatcher path (formSetFields_tick quiet)) = true
  /\ (forall f, getField path quiet = Some f ->
        getField path (dirtyWatcher path (formSetFields_tick quiet))
        = Some (marked f))
  /\ form_dirty (dirtyWatcher path loud) = true
  /\ (forall f, getField path loud = Some f ->
        getField path (dirtyWatcher path loud) = Some (marked f)).
Proof.
  intros quiet loud marked.
  destruct (formSetFields_assigns_flags values
              (Some {| opt_setDirty := Some false; opt_validate := validate |})
              s) as [_ Hquiet].
  destruct (formSetFields_assigns_flags values None s) as [_ Hloud].
  fold quiet in Hquiet. fold loud in Hloud. cbn in Hquiet, Hloud.
  assert (Hmark : forall s0 : @FormState W,
             formIgnoreDirty s0 = false ->
             form_dirty (dirtyWatcher path s0) = true
             /\ forall f, getField path s0 = Some f ->
                  getField path (dirtyWatcher path s0) = Some (marked f)).
  { intros s0 Hflag. unfold dirtyWatcher. rewrite Hflag.
    split; [reflexivity|]. intros f Hf.
    transitivity (getField path (updateField path (setFieldDirty true) s0));
      [now destruct path|].
    now rewrite getField_updateField_same, Hf. }
  split; [unfold dirtyWatcher; now rewrite Hquiet|].
  destruct (Hmark (formSetFields_tick quiet) eq_refl) as [Hd Hf].
  destruct (Hmark loud Hloud) as [Hd' Hf'].
  split; [exact Hd|]. split; [|split; [exact Hd'|exact Hf']].
  intros f Hget. apply Hf. now destruct path.
Qed.

End Assignments.



Lemma formSetFields_dirty_witness :
  let quiet :=
    snd (formSetFields [("input1", VStr "hi")]
           (Some {| opt_setDirty := Some false; opt_validate := None |})
           editedForm) in
  field_dirty <$> getField (Top "input1") (dirtyWatcher (Top "input1") quiet)
  = Some false
  /\ field_dirty
       <$> getField (Top "input1")
             (dirtyWatcher (Top "input1") (formSetFields_tick quiet))
     = Some true
  /\ field_value
       <$> getField (Top "input1")
             (dirtyWatcher (Top "input1") (formSetFields_tick quiet))
     = Some (VStr "hi").
Proof.
  intros quiet.
  destruct (formSetFields_dirty [("input1", VStr "hi")] None editedForm
              (Top "input1")) as (Hquiet & _ & Hmarked & _).
  fold quiet in Hquiet, Hmarked.
  split; [now rewrite Hquiet|].
  rewrite (Hmarked (setFieldValue (VStr "hi")
                      (sampleField "input1" (VStr "hello!") false
                         [VStr "error1"; VStr "error2"])) eq_refl).
  split; reflexivity.
Defined.

Section Rules.
Context {W : Type}.
Implicit Types (s : @FormState W) (f : @Field W)
  (values : list (string * option (list (@KindOfRule W)))).











End Rules.



(** ** The initial state *)

Section InitialState.
Context {W : Type}.
Implicit Types (init : @InitialFormState W) (s : @FormState W).

Lemma plainEntry_initEntry (e : @FieldsInit W) :
  plainEntry e ->
  shadowsHasOwnProperty e = false
  /\ initEntry e
     = {| init_value := entryValue e; init_rules := entryRules e |}.
Proof.
  destruct e as [v|v rules]; [|now split].
  destruct v as [| |b|z| |t|ref items|ref props|st|]; try (now split).
  cbn [plainEntry shadowsHasOwnProperty initEntry entryValue entryRules].
  intros [-> ->]. split; [|reflexivity].
  apply bool_decide_eq_false_2. now intros [x Hx].
Qed.

Lemma getInitStateFields_entries init (acc : list (string * @FieldInit W)) :
  List.NoDup (map fst init) ->
  ~ usesReservedKey init ->
  List.Forall (fun kv => shadowsHasOwnProperty (snd kv) = false) init ->
  (forall key, In key (map fst init) -> ~ In key (map fst acc)) ->
  getInitStateFields init acc
  = inr (acc ++ map (fun kv => (fst kv, initEntry (snd kv))) init).
Proof.
  revert acc.
  induction init as [|[k v] init IH]; intros acc Hnd Hplain Hcalls Hfresh.
  - cbn. now rewrite app_nil_r.
  - cbn [map fst] in Hnd. apply List.NoDup_cons_iff in Hnd as [Hk Hnd].
    apply List.Forall_cons_iff in Hcalls as [Hv Hcalls]. cbn [snd] in Hv.
    cbn [getInitStateFields].
    destruct (includes reservedKeys k) eqn:Hres.
    + exfalso. apply Hplain. exists k. split; [now left|].
      now apply includes_In.
    + rewrite Hv. rewrite setProp_fresh by (apply Hfresh; now left).
      rewrite IH; [cbn; now rewrite <- app_assoc|exact Hnd| |exact Hcalls|].
      * intros (key & Hin & Hr). apply Hplain. exists key.
        split; [now right|exact Hr].
      * intros key Hin. rewrite map_app, in_app_iff. cbn.
        intros [Hacc|[<-|[]]]; [|contradiction].
        apply (Hfresh key); [now right|exact Hacc].
Qed.

Lemma getInitStateFields_first_reserved init
    (acc : list (string * @FieldInit W)) (before after : InitialFormState)
    (key : string) (value : FieldsInit) :
  init = before ++ (key, value) :: after ->
  ~ usesReservedKey before ->
  List.Forall (fun kv => shadowsHasOwnProperty (snd kv) = false) before ->
  In key reservedKeys ->
  getInitStateFields init acc = inl (ReservedKey key).
Proof.
  intros -> Hbefore Hcalls Hkey. revert acc.
  induction before as [|[k v] before IH]; intros acc; cbn [app getInitStateFields].
  - apply includes_In in Hkey. now rewrite Hkey.
  - apply List.Forall_cons_iff in Hcalls as [Hv Hcalls]. cbn [snd] in Hv.
    destruct (includes reservedKeys k) eqn:Hres.
    + exfalso. apply Hbefore. exists k. split; [now left|].
      now apply includes_In.
    + rewrite Hv. apply IH; [|exact Hcalls].
      intros (k' & Hin & Hr). apply Hbefore. exists k'.
      split; [now right|exact Hr].
Qed.

Lemma getInitState_lemma init :
  (List.NoDup (map fst init) -> ~ usesReservedKey init ->
   List.Forall (fun kv => shadowsHasOwnProperty (snd kv) = false) init ->
   getInitState (Some init)
   = inr (map (fun kv => (fst kv, initEntry (snd kv))) init)).
Proof.
  intros Hnd Hplain Hcalls. cbn [getInitState].
  rewrite getInitStateFields_entries; try assumption; [reflexivity|].
  intros key _ [].
Qed.

Lemma plainEntries_calls init :
  List.Forall (fun kv => plainEntry (snd kv)) init ->
  List.Forall (fun kv => shadowsHasOwnProperty (snd kv) = false) init.
Proof.
  apply List.Forall_impl. intros kv Hkv. now apply plainEntry_initEntry.
Qed.

Lemma ordinaryInit_plain init :
  ordinaryInit init -> List.Forall (fun kv => plainEntry (snd kv)) init.
Proof.
  intros Hordinary. pose proof (ordinaryInit_calls init Hordinary) as Hcalls.
  unfold ordinaryInit in Hordinary.
  rewrite List.Forall_forall in *. intros [key e] Hin.
  specialize (Hordinary _ Hin) as (_ & _ & Hshape).
  specialize (Hcalls _ Hin). cbn [snd] in *.
  destruct e as [v|v rules]; [|exact I].
  destruct v as [| |b|z| |t|ref items|ref props|st|]; try exact I.
  cbn [plainEntry descriptorShaped shadowsHasOwnProperty] in *.
  apply bool_decide_eq_false_1 in Hshape, Hcalls. split.
  - destruct (getProp "value" props); [|reflexivity].
    exfalso. apply Hshape. eauto.
  - destruct (getProp "hasOwnProperty" props); [|reflexivity].
    exfalso. apply Hcalls. eauto.
Qed.

Lemma getInitState_plain init :
  List.NoDup (map fst init) -> ~ usesReservedKey init ->
  List.Forall (fun kv => plainEntry (snd kv)) init ->
  getInitState (Some init)
  = inr (map (fun kv =>
                (fst kv,
                 {| init_value := entryValue (snd kv);
                    init_rules := entryRules (snd kv) |}))
           init).
Proof.
  intros Hnd Hplain Hentries.
  rewrite getInitState_lemma by (try assumption; now apply plainEntries_calls).
  f_equal. apply map_ext_in. intros kv Hin. f_equal.
  apply plainEntry_initEntry.
  now apply (proj1 (List.Forall_forall _ _) Hentries).
Qed.

(** X11.  [getInitState] keeps the keys in their order and turns every
    entry into a field descriptor: a bare value [v] into [{value: v}]
    without rules, a descriptor into one with its value and its rules; a
    bare value that is an object with an own [value] property, and no
    [rules], gives that value.  It throws when there is no initial state;
    at the first reserved key, whatever comes after it; and, with a
    [TypeError], at the first value whose own property [hasOwnProperty]
    is data. *)
Theorem getInitState_entries init :
  (List.NoDup (map fst init) -> ~ usesReservedKey init ->
   List.Forall (fun kv => plainEntry (snd kv)) init ->
   getInitState (Some init)
   = inr (map (fun kv =>
                 (fst kv,
                  {| init_value := entryValue (snd kv);
                     init_rules := entryRules (snd kv) |}))
            init))
  /\ (forall (key : string) ref props v,
         ~ In key reservedKeys ->
         getProp "value" props = Some v ->
         getProp "rules" props = None ->
         getProp "hasOwnProperty" props = None ->
         getInitState (W := W) (Some [(key, RawValue (VObj ref props))])
         = inr [(key, {| init_value := v; init_rules := None |})])
  /\ (forall before key value after,
         init = before ++ (key, value) :: after ->
         ~ usesReservedKey before ->
         List.Forall (fun kv => plainEntry (snd kv)) before ->
         In key reservedKeys ->
         getInitState (Some init) = inl (ReservedKey key))
  /\ (forall before key ref props x after,
         init = before ++ (key, RawValue (VObj ref props)) :: after ->
         ~ usesReservedKey before -> ~ In key reservedKeys ->
         List.Forall (fun kv => plainEntry (snd kv)) before ->
         getProp "hasOwnProperty" props = Some x ->
         getInitState (Some init) = inl NotAFunction)
  /\ getInitState (W := W) None = inl NoInitialState.
Proof.
  split; [apply getInitState_plain|]. split; [|split; [|split; [|reflexivity]]].
  - intros key ref props v Hkey Hv _ Hcall.
    cbn [getInitState getInitStateFields shadowsHasOwnProperty].
    apply includes_false_In in Hkey. rewrite Hkey, Hcall.
    rewrite bool_decide_eq_false_2 by (now intros [x Hx]).
    cbn [setProp initEntry]. now rewrite Hv.
  - intros before key value after Heq Hbefore Hentries Hkey.
    cbn [getInitState].
    apply (getInitStateFields_first_reserved init [] before after key value);
      try assumption.
    now apply plainEntries_calls.
  - intros before key ref props x after -> Hbefore Hkey Hentries Hcall.
    cbn [getInitState].
    apply getInitStateFields_not_a_function.
    + now apply plainEntries_calls.
    + intros (k & Hin & Hres). rewrite map_app, in_app_iff in Hin.
      destruct Hin as [Hin|[<-|[]]]; [|contradiction].
      apply Hbefore. now exists k.
    + cbn [shadowsHasOwnProperty]. rewrite Hcall.
      apply bool_decide_eq_true_2. eauto.
Qed.

End InitialState.

(** The initial states of the tests: a short and a long input, one with a
    reserved key after a proper one, and one with a value on which
    [hasOwnProperty] cannot be called. *)
Lemma getInitState_entries_witness :
  let init : @InitialFormState unit :=
    [("textInput", RawValue (VStr "hello"));
     ("numberInput", Descriptor (VNum 2) None)] in
  let bad : @InitialFormState unit :=
    [("textInput", RawValue (VStr "hello"));
     ("formState", RawValue (VStr "hello"));
     ("values", RawValue VNull)] in
  let shadowed : @InitialFormState unit :=
    [("textInput", RawValue (VObj 0 [("hasOwnProperty", VBool true)]));
     ("formState", RawValue (VStr "hello"))] in
  List.NoDup (map fst init)
  /\ ~ usesReservedKey init
  /\ getInitState (Some init)
     = inr [("textInput",
             {| init_value := VStr "hello"; init_rules := None |});
            ("numberInput", {| init_value := VNum 2; init_rules := None |})]
  /\ getInitState (Some bad) = inl (ReservedKey "formState")
  /\ getInitState (Some shadowed) = inl NotAFunction.
Proof.
  intros init bad shadowed.
  assert (Hnd : List.NoDup (map fst init)).
  { repeat constructor; cbn; intuition discriminate. }
  assert (Hplain : ~ usesReservedKey init).
  { intros (key & Hin & Hr). cbn in Hin, Hr. intuition (subst; discriminate). }
  split; [exact Hnd|]. split; [exact Hplain|]. split; [|split].
  - apply (proj1 (getInitState_entries init) Hnd Hplain).
    repeat constructor.
  - apply (proj1 (proj2 (proj2 (getInitState_entries bad)))
             [("textInput", RawValue (VStr "hello"))] "formState"
             (RawValue (VStr "hello")) [("values", RawValue VNull)]).
    + reflexivity.
    + intros (key & Hin & Hr). cbn in Hin, Hr.
      intuition (subst; discriminate).
    + repeat constructor.
    + now left.
  - apply (proj1 (proj2 (proj2 (proj2 (getInitState_entries shadowed))))
             [] "textInput" 0 [("hasOwnProperty", VBool true)] (VBool true)
             [("formState", RawValue (VStr "hello"))]).
    + reflexivity.
    + intros (key & [] & _).
    + cbn. intuition discriminate.
    + constructor.
    + reflexivity.
Defined.

(** ** Construction that succeeds *)

Section Built.
Context {W : Type}.
Implicit Types (c : @UseFormCall W) (env : @Env W) (run : @Run W)
  (init : @InitialFormState W) (s : @FormState W).






End Built.



(** ** Resets *)

Section Resets.
Context {W : Type}.
Implicit Types (s : @FormState W) (f : @Field W) (run : @Run W)
  (init : @InitialFormState W).

Lemma cloneInitState_entries init run :
  Forall2 (fun a b => fst b = fst a /\ exists n, snd b = cloneEntry (snd a) n)
    init (fst (cloneInitState init run)).
Proof.
  revert run. unfold cloneInitState.
  induction init as [|[key e] rest IH]; intros run; [constructor|].
  cbn [mapM]. unfold bind at 1.
  destruct e as [v|v rules]; unfold bind at 1; unfold cloneDeepM at 1;
    destruct (cloneDeep v (nextRef run)) as [clone n1] eqn:Hc;
    unfold ret at 1; unfold bind at 1;
    match goal with
    | |- context [mapM ?g rest ?r] =>
        pose proof (IH r) as IH'; destruct (mapM g rest r) as [snapshot run2]
    end; unfold ret; cbn [fst] in *;
    (constructor; [|exact IH']); (split; [reflexivity|]);
    exists (nextRef run); cbn [snd cloneEntry]; now rewrite Hc.
Qed.

Lemma cloned_keys init (snapshot : @InitialFormState W) :
  Forall2 (fun a b => fst b = fst a /\ exists n, snd b = cloneEntry (snd a) n)
    init snapshot ->
  map fst snapshot = map fst init.
Proof.
  induction 1 as [|a b l l' [Hk _] _ IH]; [reflexivity|].
  cbn [map]. now rewrite Hk, IH.
Qed.

Lemma cloned_getProp init (snapshot : @InitialFormState W) (key : string) :
  Forall2 (fun a b => fst b = fst a /\ exists n, snd b = cloneEntry (snd a) n)
    init snapshot ->
  match getProp key init with
  | Some e => exists n, getProp key snapshot = Some (cloneEntry e n)
  | None => getProp key snapshot = None
  end.
Proof.
  induction 1 as [|[k e] [k' e'] l l' [Hk [n He]] _ IH]; [reflexivity|].
  cbn [fst snd] in Hk, He. subst k' e'. cbn [getProp].
  destruct (String.eqb k key); [now exists n|exact IH].
Qed.

Lemma getProp_map {A B} (g : A -> B) (key : string) (l : list (string * A)) :
  getProp key (map (fun kv => (fst kv, g (snd kv))) l) = g <$> getProp key l.
Proof.
  induction l as [|[k x] l IH]; [reflexivity|].
  cbn [map getProp fst snd]. now destruct (String.eqb k key).
Qed.

Lemma getProp_found {A} (key : string) (x : A) (l : list (string * A)) :
  getProp key l = Some x -> In (key, x) l.
Proof.
  induction l as [|[k y] l IH]; [discriminate|]. cbn [getProp].
  destruct (String.eqb_spec k key) as [->|_].
  - intros [= ->]. now left.
  - intros H. right. now apply IH.
Qed.

Lemma cloneProps_is_Some (key : string) (props : list (string * Value)) :
  forall n,
    is_Some (getProp key (fst (cloneProps props n)))
    <-> is_Some (getProp key props).
Proof.
  induction props as [|[k x] rest IH]; intros n; [reflexivity|].
  cbn [cloneProps]. destruct (cloneDeep x n) as [y n1]. specialize (IH n1).
  destruct (cloneProps rest n1) as [ys n2]. cbn [fst getProp] in *.
  destruct (String.eqb k key); [split; eauto|exact IH].
Qed.

Lemma cloneProps_None (key : string) (props : list (string * Value)) n :
  getProp key props = None -> getProp key (fst (cloneProps props n)) = None.
Proof.
  intros Hnone. pose proof (cloneProps_is_Some key props n) as Hiff.
  destruct (getProp key (fst (cloneProps props n))); [|reflexivity].
  destruct (proj1 Hiff (ex_intro _ _ eq_refl)) as [x Hx]. congruence.
Qed.

Lemma cloneEntry_shadows (e : @FieldsInit W) n :
  shadowsHasOwnProperty (cloneEntry e n) = shadowsHasOwnProperty e.
Proof.
  destruct e as [v|v rules]; [|reflexivity].
  destruct v as [| |b|z| |t|ref items|ref props|st|]; try reflexivity.
  - cbn [cloneEntry]. now rewrite cloneDeep_array.
  - cbn [cloneEntry]. rewrite cloneDeep_object.
    cbn [fst shadowsHasOwnProperty].
    apply bool_decide_ext, cloneProps_is_Some.
Qed.

Lemma cloneEntry_plain (e : @FieldsInit W) n :
  plainEntry e -> plainEntry (cloneEntry e n).
Proof.
  destruct e as [v|v rules]; [|intros _; exact I].
  destruct v as [| |b|z| |t|ref items|ref props|st|]; try (intros _; exact I).
  - intros _. cbn [cloneEntry]. now rewrite cloneDeep_array.
  - intros [Hvalue Hcall]. cbn [cloneEntry]. rewrite cloneDeep_object.
    cbn [fst plainEntry]. split; now apply cloneProps_None.
  - intros _. cbn. now split.
  - intros _. cbn. now split.
Qed.

(** What [getInitState] gives for the copy of a plain entry. *)
Lemma restored_value (e : @FieldsInit W) n :
  plainEntry e ->
  init_value (initEntry (cloneEntry e n)) = fst (cloneDeep (entryValue e) n).
Proof.
  intros Hplain.
  rewrite (proj2 (plainEntry_initEntry _ (cloneEntry_plain e n Hplain))).
  now destruct e.
Qed.

Lemma cloned_calls init (snapshot : @InitialFormState W) :
  Forall2 (fun a b => fst b = fst a /\ exists n, snd b = cloneEntry (snd a) n)
    init snapshot ->
  List.Forall (fun kv => shadowsHasOwnProperty (snd kv) = false) init ->
  List.Forall (fun kv => shadowsHasOwnProperty (snd kv) = false) snapshot.
Proof.
  induction 1 as [|a b l l' [_ [n Hb]] _ IH]; intros Hcalls; [constructor|].
  apply List.Forall_cons_iff in Hcalls as [Ha Hcalls].
  constructor; [|now apply IH].
  now rewrite Hb, cloneEntry_shadows.
Qed.

Lemma resetField_result (key : string) path s run :
  initialStateKept s ->
  match getProp key (initialFields s) with
  | Some e =>
      exists n,
        fst (resetField key path s run)
        = (None,
           updateField path
             (resetFieldTo (init_value (initEntry (cloneEntry e n))) key) s)
  | None =>
      fst (resetField key path s run)
      = if includes objectPrototypeKeys key
        then (None, updateField path (resetFieldTo VUndefined key) s)
        else (Some (UndefinedField key), s)
  end.
Proof.
  intros (Hnd & Hplain & Hcalls). unfold resetField, bind, ret.
  pose proof (cloneInitState_entries (initialFields s) run) as Hclone.
  destruct (cloneInitState (initialFields s) run) as [snapshot run1].
  cbn [fst] in Hclone.
  pose proof (cloned_keys _ _ Hclone) as Hkeys.
  rewrite getInitState_lemma;
    [|now rewrite Hkeys
     |intros Hres; apply Hplain;
      eapply usesReservedKey_keys; [exact Hkeys|exact Hres]
     |exact (cloned_calls _ _ Hclone Hcalls)].
  rewrite getProp_map.
  pose proof (cloned_getProp _ _ key Hclone) as Hget.
  destruct (getProp key (initialFields s)) as [e|].
  - destruct Hget as [n ->]. cbn. now exists n.
  - rewrite Hget. now destruct (includes objectPrototypeKeys key).
Qed.

Lemma updateField_frame path (g : @Field W -> @Field W) s :
  formFrame (updateField path g s) = formFrame s.
Proof.
  unfold formFrame.
  destruct path; cbn [updateField setFields fields formValidationLock
                        formIgnoreDirty formIgnoreValidation initialFields];
    now rewrite alterProp_keys.
Qed.

Lemma updateField_shape path (g : @Field W -> @Field W) s (key : string) :
  isArrayField <$> getProp key (fields (updateField path g s))
  = isArrayField <$> getProp key (fields s).
Proof.
  destruct path as [k|k i sub]; cbn [updateField setFields fields];
    rewrite getProp_alterProp; destruct (String.eqb k key); try reflexivity;
    now destruct (getProp key (fields s)) as [[?|?]|].
Qed.

Lemma formFrame_eq s' s :
  formFrame s' = formFrame s ->
  formValidationLock s' = formValidationLock s
  /\ formIgnoreDirty s' = formIgnoreDirty s
  /\ formIgnoreValidation s' = formIgnoreValidation s
  /\ initialFields s' = initialFields s
  /\ map fst (fields s') = map fst (fields s).
Proof. unfold formFrame. intros [= -> -> -> -> ->]. repeat split. Qed.

Lemma resetEntries_result (keys : list string) : forall s run,
  initialStateKept s ->
  List.NoDup keys ->
  (forall key, In key keys -> is_Some (getProp key (initialFields s))) ->
  exists s',
    fst (resetEntries keys s run) = (None, s')
    /\ formFrame s' = formFrame s
    /\ form_errors s' = form_errors s
    /\ (forall key f, In key keys -> getField (Top key) s = Some f ->
          exists e n,
            getProp key (initialFields s) = Some e
            /\ getField (Top key) s'
               = Some (resetFieldTo
                         (init_value (initEntry (cloneEntry e n))) key f))
    /\ (forall key, ~ In key keys ->
          getField (Top key) s' = getField (Top key) s).
Proof.
  induction keys as [|k rest IH]; intros s run Hkept Hnd Hinit.
  - exists s. cbn. repeat split; try reflexivity. intros key f [].
  - apply List.NoDup_cons_iff in Hnd as [Hk Hnd].
    pose proof (resetField_result k (Top k) s run Hkept) as Hreset.
    destruct (Hinit k (or_introl eq_refl)) as [e He]. rewrite He in Hreset.
    destruct Hreset as (n & Hreset).
    cbn [resetEntries]. unfold bind at 1.
    destruct (resetField k (Top k) s run) as [[o s1] run1].
    cbn [fst] in Hreset. injection Hreset as -> ->. cbn [fst snd].
    set (v := init_value (initEntry (cloneEntry e n))).
    set (s1 := updateField (Top k) (resetFieldTo v k) s).
    pose proof (updateField_frame (Top k) (resetFieldTo v k) s) as Hframe1.
    fold s1 in Hframe1.
    destruct (formFrame_eq _ _ Hframe1) as (_ & _ & _ & Hinit1 & _).
    destruct (IH s1 run1) as (s' & Hout & Hframe & Herrs & Hin & Hout').
    { unfold initialStateKept. now rewrite Hinit1. }
    { exact Hnd. }
    { intros key Hkey. rewrite Hinit1. apply Hinit. now right. }
    exists s'. split; [exact Hout|]. split; [congruence|].
    split; [rewrite Herrs; subst s1; now destruct s|]. split.
    + intros key f [<-|Hkey] Hf.
      * exists e, n. split; [exact He|].
        rewrite (Hout' k Hk). subst s1.
        rewrite getField_updateField_same, Hf. reflexivity.
      * assert (k <> key) as Hne by (intros ->; contradiction).
        destruct (Hin key f Hkey) as (e' & n' & He' & Hf').
        { subst s1. now rewrite getField_updateField_other. }
        exists e', n'. rewrite <- Hinit1. auto.
    + intros key Hkey.
      rewrite Hout' by (intros H; apply Hkey; now right).
      subst s1. apply getField_updateField_other.
      intros ->. apply Hkey. now left.
Qed.

Lemma flat_map_nil {A B} (g : A -> list B) (l : list A) :
  (forall x, In x l -> g x = []) -> flat_map g l = [].
Proof.
  induction l as [|x l IH]; intros H; [reflexivity|].
  cbn [flat_map]. rewrite (H x (or_introl eq_refl)), IH; [reflexivity|].
  intros y Hy. apply H. now right.
Qed.

Lemma collectErrors_clean s :
  List.NoDup (map fst (fields s)) ->
  (forall key e, In (key, e) (fields s) ->
     exists f, e = Single f /\ field_valid f = true /\ field_errors f = []) ->
  fst (collectErrors s None)
  = {| fv_valid := true; fv_errors := []; fv_errorFields := [] |}.
Proof.
  intros Hnd Hclean.
  assert (forall f, In f (getAllFields s) ->
            field_valid f = true /\ field_errors f = []) as Hall.
  { intros f Hf. apply getAllFields_declared in Hf.
    unfold declaredFields in Hf. apply in_flat_map in Hf as (e & He & Hf).
    apply in_map_iff in He as ([key e'] & <- & He).
    destruct (Hclean key e' He) as (f' & -> & Hv & Herr).
    cbn in Hf. destruct Hf as [<-|[]]. now split. }
  assert (fv_errorFields (fst (collectErrors s None)) = []) as Hfields.
  { rewrite collectErrors_errorFields by exact Hnd.
    apply flat_map_nil. intros key Hkey.
    apply in_map_iff in Hkey as ([key' e] & <- & He). cbn [fst].
    destruct (Hclean key' e He) as (f & -> & Hv & _).
    unfold errorFieldOf. rewrite (getProp_In key' (Single f) _ Hnd He).
    cbn. now rewrite Hv. }
  unfold collectErrors in *. cbn [fst fv_errorFields] in *.
  f_equal.
  - cbn. rewrite andb_true_r. apply forallb_forall. intros f Hf.
    now apply Hall.
  - cbn. rewrite app_nil_r. apply flat_map_nil. intros f Hf. now apply Hall.
  - exact Hfields.
Qed.

(** X14.  On a form whose keys are distinct and all have an entry in the
    kept initial state, an initial state of ordinary data, [resetForm] does
    not throw; it clears the token and the form's [dirty] and [touched],
    sets both ignore flags and keeps the keys.  Every field gets a copy of
    the value of its initial entry and its key as its name; it is no longer
    dirty, touched or focused, it is valid and has no errors; its rules,
    [pending] and snapshot are as they were.  On a form with no array entry
    the [nextTick] callback then leaves no form error and no error field,
    and clears the dirty flag again. *)
Theorem resetForm_restores s run :
  initialStateKept s ->
  ordinaryInit (initialFields s) ->
  List.NoDup (map fst (fields s)) ->
  (forall key, In key (map fst (fields s)) ->
     is_Some (getProp key (initialFields s))) ->
  exists s',
    fst (resetForm s run) = (None, s')
    /\ formValidationLock s' = None
    /\ formIgnoreDirty s' = true /\ formIgnoreValidation s' = true
    /\ form_dirty s' = false /\ form_touched s' = false
    /\ map fst (fields s') = map fst (fields s)
    /\ (forall key f, getField (Top key) s = Some f ->
          exists e n,
            getProp key (initialFields s) = Some e
            /\ getField (Top key) s'
               = Some {| field_value := fst (cloneDeep (entryValue e) n);
                         field_name := key;
                         fieldRules := fieldRules f;
                         field_dirty := false;
                         field_touched := false;
                         field_valid := true;
                         field_focused := false;
                         field_errors := [];
                         field_pending := field_pending f;
                         fieldPrevValue := fieldPrevValue f |})
    /\ ((forall e, In e (map snd (fields s)) -> isArrayField e = false) ->
        form_errors (reset_tick s') = []
        /\ errorFields (reset_tick s') = []
        /\ formIgnoreDirty (reset_tick s') = false
        /\ fields (reset_tick s') = fields s').
Proof.
  intros Hkept Hordinary Hnd Hinit. unfold resetForm.
  set (s3 := setFormValidationLock None
               (setFormIgnoreValidation true (setFormIgnoreDirty true s))).
  destruct (resetEntries_result (map fst (fields s3)) s3 run)
    as (s' & Hout & Hframe & _ & Hin & _); [exact Hkept|exact Hnd|exact Hinit|].
  apply formFrame_eq in Hframe as (Hlock & Hdirty & Hval & _ & Hkeys).
  unfold bind at 1.
  destruct (resetEntries (map fst (fields s3)) s3 run) as [[o out] run1].
  cbn [fst] in Hout. injection Hout as -> ->. cbn [fst snd]. unfold ret.
  cbn [fst].
  assert (forall key f, getField (Top key) s = Some f ->
            exists e n,
              getProp key (initialFields s) = Some e
              /\ getField (Top key) s'
                 = Some {| field_value := fst (cloneDeep (entryValue e) n);
                           field_name := key;
                           fieldRules := fieldRules f;
                           field_dirty := false;
                           field_touched := false;
                           field_valid := true;
                           field_focused := false;
                           field_errors := [];
                           field_pending := field_pending f;
                           fieldPrevValue := fieldPrevValue f |})
    as Hfields.
  { intros key f Hf.
    destruct (Hin key f) as (e & n & He & Hf'); [|exact Hf|].
    - cbn [getField] in Hf.
      destruct (getProp key (fields s)) as [entry|] eqn:Hget; [|discriminate].
      change (fields s3) with (fields s).
      destruct (in_dec string_dec key (map fst (fields s))) as [Hkey|Hkey];
        [exact Hkey|].
      rewrite (getProp_None _ _ Hkey) in Hget. discriminate.
    - exists e, n. split; [exact He|]. rewrite Hf'.
      change (initialFields s3) with (initialFields s) in He.
      rewrite restored_value; [reflexivity|].
      apply getProp_found in He.
      exact (proj1 (List.Forall_forall _ _)
               (ordinaryInit_plain _ Hordinary) (key, e) He). }
  eexists. split; [reflexivity|].
  split; [exact Hlock|]. split; [exact Hdirty|]. split; [exact Hval|].
  split; [reflexivity|]. split; [reflexivity|].
  split; [exact Hkeys|]. split; [exact Hfields|].
  intros Hplain.
  set (out := setFormDirty false (setFormTouched false s')).
  assert (fst (collectErrors out None)
          = {| fv_valid := true; fv_errors := []; fv_errorFields := [] |})
    as Hclean.
  { apply collectErrors_clean.
    - change (fields out) with (fields s'). now rewrite Hkeys.
    - change (fields out) with (fields s'). intros key e He.
      assert (In key (map fst (fields s))) as Hkey.
      { change (map fst (fields s3)) with (map fst (fields s)) in Hkeys.
        rewrite <- Hkeys. apply in_map_iff. now exists (key, e). }
      apply in_map_iff in Hkey as ([key' e0] & Heq & He0).
      cbn [fst] in Heq. subst key'.
      pose proof (Hplain e0) as Hshape.
      destruct e0 as [f0|rows];
        [|discriminate Hshape; apply in_map_iff; now exists (key, Rows rows)].
      destruct (Hfields key f0) as (e' & n & _ & Hf').
      { cbn [getField]. now rewrite (getProp_In key (Single f0) _ Hnd He0). }
      cbn [getField] in Hf'.
      rewrite (getProp_In key e (fields s')) in Hf';
        [|now rewrite Hkeys|exact He].
      destruct e as [f|rows]; [|discriminate].
      injection Hf' as ->. eexists. split; [reflexivity|]. now split. }
  unfold reset_tick.
  change (form_errors (setFormIgnoreDirty false (snd (collectErrors out None))))
    with (fv_errors (fst (collectErrors out None))).
  change (errorFields (setFormIgnoreDirty false (snd (collectErrors out None))))
    with (fv_errorFields (fst (collectErrors out None))).
  rewrite Hclean. repeat split.
Qed.

End Resets.

Lemma editedForm_kept : initialStateKept editedForm.
Proof.
  split; [repeat constructor; cbn; intuition discriminate|].
  split; [|repeat constructor].
  unfold usesReservedKey. cbn.
  intros (key & [<-|[<-|[]]] & Hres); cbn in Hres; intuition discriminate.
Qed.

Lemma editedForm_ordinary : ordinaryInit (initialFields editedForm).
Proof. repeat constructor. Qed.

(** The two edited, invalid fields of the tests are back at "hello" and
    "world". *)
Lemma resetForm_restores_witness :
  initialStateKept editedForm
  /\ ordinaryInit (initialFields editedForm)
  /\ List.NoDup (map fst (fields editedForm))
  /\ exists s',
      fst (resetForm editedForm (freshRun 0)) = (None, s')
      /\ getField (Top "input1") s'
         = Some {| field_value := VStr "hello";
                   field_name := "input1";
                   fieldRules := [];
                   field_dirty := false;
                   field_touched := false;
                   field_valid := true;
                   field_focused := false;
                   field_errors := [];
                   field_pending := false;
                   fieldPrevValue := VStr "hello!" |}
      /\ field_value <$> getField (Top "input2") s' = Some (VStr "world")
      /\ field_errors <$> getField (Top "input2") s' = Some []
      /\ form_errors (reset_tick s') = [].
Proof.
  assert (Hnd : List.NoDup (map fst (fields editedForm))).
  { repeat constructor; cbn; intuition discriminate. }
  split; [exact editedForm_kept|]. split; [exact editedForm_ordinary|].
  split; [exact Hnd|].
  destruct (resetForm_restores editedForm (freshRun 0) editedForm_kept
              editedForm_ordinary Hnd)
    as (s' & Hout & _ & _ & _ & _ & _ & _ & _ & Htick).
  { intros key [<-|[<-|[]]]; cbn; eauto. }
  exists s'. split; [exact Hout|].
  cbn in Hout. injection Hout as <-.
  split; [reflexivity|]. split; [reflexivity|]. split; [reflexivity|].
  apply Htick. intros e [<-|[<-|[]]]; reflexivity.
Defined.

(** ** Resets and the passes in flight *)

Section ResetsInFlight.
Context {W : Type}.
Implicit Types (s : @FormState W) (f field : @Field W) (run : @Run W).

(** A write to one field object leaves every other place as it is. *)
Lemma getField_updateField_apart path path' (g : @Field W -> @Field W) s :
  path <> path' ->
  getField path' (updateField path g s) = getField path' s.
Proof.
  intros Hne.
  destruct path as [key|key i sub], path' as [key'|key' i' sub'];
    cbn [getField updateField setFields fields];
    rewrite getProp_alterProp;
    destruct (String.eqb_spec key key') as [->|Hkey]; try reflexivity;
    try congruence;
    destruct (getProp key' (fields s)) as [[f|rows]|]; cbn; try reflexivity.
  destruct (decide (i = i')) as [->|Hi].
  - rewrite list_lookup_alter_eq.
    destruct (rows !! i') as [row|]; cbn; [|reflexivity].
    rewrite getProp_alterProp.
    destruct (String.eqb_spec sub sub') as [->|_]; [congruence|reflexivity].
  - now rewrite list_lookup_alter_ne by exact Hi.
Qed.

Lemma fieldReset_result path s run field :
  initialStateKept s ->
  getField path s = Some field ->
  let s2 := setFormIgnoreValidation true (setFormIgnoreDirty true s) in
  match getProp (field_name field) (initialFields s) with
  | Some e =>
      exists n,
        fst (fieldReset path s run)
        = (None,
           setFormValidationLock None
             (updateField path
                (resetFieldTo (init_value (initEntry (cloneEntry e n)))
                   (field_name field)) s2))
  | None =>
      fst (fieldReset path s run)
      = if includes objectPrototypeKeys (field_name field)
        then (None,
              setFormValidationLock None
                (updateField path
                   (resetFieldTo VUndefined (field_name field)) s2))
        else (Some (UndefinedField (field_name field)), s2)
  end.
Proof.
  intros Hkept Hfield s2. unfold fieldReset. rewrite Hfield.
  cbv zeta. fold s2. unfold bind, ret.
  pose proof (resetField_result (field_name field) path s2 run Hkept) as Hreset.
  change (initialFields s2) with (initialFields s) in Hreset.
  destruct (getProp (field_name field) (initialFields s)) as [e|].
  - destruct Hreset as (n & Hreset). exists n.
    destruct (resetField (field_name field) path s2 run) as [[o s'] run1].
    cbn [fst] in Hreset. injection Hreset as -> ->. reflexivity.
  - destruct (resetField (field_name field) path s2 run) as [[o s'] run1].
    cbn [fst] in Hreset.
    destruct (includes objectPrototypeKeys (field_name field));
      injection Hreset as -> ->; reflexivity.
Qed.

Lemma resetForm_lock s run :
  initialStateKept s ->
  List.NoDup (map fst (fields s)) ->
  (forall key, In key (map fst (fields s)) ->
     is_Some (getProp key (initialFields s))) ->
  fst (fst (resetForm s run)) = None
  /\ formValidationLock (snd (fst (resetForm s run))) = None.
Proof.
  intros Hkept Hnd Hinit. unfold resetForm.
  set (s3 := setFormValidationLock None
               (setFormIgnoreValidation true (setFormIgnoreDirty true s))).
  destruct (resetEntries_result (map fst (fields s3)) s3 run)
    as (s' & Hout & Hframe & _); [exact Hkept|exact Hnd|exact Hinit|].
  apply formFrame_eq in Hframe as (Hlock & _).
  unfold bind, ret.
  destruct (resetEntries (map fst (fields s3)) s3 run) as [[o out] run1].
  cbn [fst] in Hout. injection Hout as -> ->. cbn. split; [reflexivity|].
  exact Hlock.
Qed.

Lemma fieldResults_stale (es : list Event) :
  fieldResults es -> Forall (staleFieldResult None) es.
Proof.
  unfold fieldResults. apply List.Forall_impl.
  intros [id|id path result|id result]; cbn; [tauto|discriminate|tauto].
Qed.

(** X15.  [field.reset()] sets both ignore flags.  For a field whose name
    has an entry in the kept initial state, an initial state of ordinary
    data, it clears the token and gives the field a copy of the value of
    that entry: the field is no longer dirty, touched or focused, it is
    valid and has no errors, and its name, rules, [pending] and snapshot
    are as they were; no other field changes.  When the name has no entry
    but is a property name of [Object.prototype], the same is done with
    the value [undefined].  For any other name without an entry it throws
    where the entry's [value] is read: the flags are left set, the token
    and every field are as they were. *)
Theorem fieldReset_restores path s run field :
  initialStateKept s ->
  ordinaryInit (initialFields s) ->
  getField path s = Some field ->
  let out := fst (fieldReset path s run) in
  let restored (v : Value) :=
    {| field_value := v;
       field_name := field_name field;
       fieldRules := fieldRules field;
       field_dirty := false;
       field_touched := false;
       field_valid := true;
       field_focused := false;
       field_errors := [];
       field_pending := field_pending field;
       fieldPrevValue := fieldPrevValue field |} in
  formIgnoreDirty (snd out) = true
  /\ formIgnoreValidation (snd out) = true
  /\ match getProp (field_name field) (initialFields s) with
     | Some e =>
         fst out = None
         /\ formValidationLock (snd out) = None
         /\ (exists n,
               getField path (snd out)
               = Some (restored (fst (cloneDeep (entryValue e) n))))
         /\ (forall path', path <> path' ->
               getField path' (snd out) = getField path' s)
     | None =>
         if includes objectPrototypeKeys (field_name field)
         then fst out = None
              /\ formValidationLock (snd out) = None
              /\ getField path (snd out) = Some (restored VUndefined)
              /\ (forall path', path <> path' ->
                    getField path' (snd out) = getField path' s)
         else fst out = Some (UndefinedField (field_name field))
              /\ formValidationLock (snd out) = formValidationLock s
              /\ forall path', getField path' (snd out) = getField path' s
     end.
Proof.
  intros Hkept Hordinary Hfield out restored. subst out.
  pose proof (fieldReset_result path s run field Hkept Hfield) as Hresult.
  cbv zeta in Hresult.
  set (s2 := setFormIgnoreValidation true (setFormIgnoreDirty true s)) in *.
  assert (Hwritten : forall v,
             let s' := setFormValidationLock None
                         (updateField path
                            (resetFieldTo v (field_name field)) s2) in
             formIgnoreDirty s' = true
             /\ formIgnoreValidation s' = true
             /\ formValidationLock s' = None
             /\ getField path s' = Some (restored v)
             /\ (forall path', path <> path' ->
                   getField path' s' = getField path' s)).
  { intros v s'. subst s'.
    destruct (updateField_flags path (resetFieldTo v (field_name field)) s2)
      as (Hval & Hdirty & _).
    split; [exact Hdirty|]. split; [exact Hval|]. split; [reflexivity|].
    split.
    - change (getField path (updateField path
                               (resetFieldTo v (field_name field)) s2)
              = Some (restored v)).
      rewrite getField_updateField_same.
      change (getField path s2) with (getField path s). now rewrite Hfield.
    - intros path' Hne.
      change (getField path' (updateField path
                                (resetFieldTo v (field_name field)) s2)
              = getField path' s).
      now rewrite getField_updateField_apart by exact Hne. }
  destruct (getProp (field_name field) (initialFields s)) as [e|] eqn:He.
  - destruct Hresult as (n & ->). cbn [fst snd].
    destruct (Hwritten (init_value (initEntry (cloneEntry e n))))
      as (Hdirty & Hval & Hlock & Hsame & Hothers).
    split; [exact Hdirty|]. split; [exact Hval|].
    split; [reflexivity|]. split; [exact Hlock|]. split; [|exact Hothers].
    exists n. rewrite Hsame. rewrite restored_value; [reflexivity|].
    apply getProp_found in He.
    exact (proj1 (List.Forall_forall _ _)
             (ordinaryInit_plain _ Hordinary) (field_name field, e) He).
  - rewrite Hresult.
    destruct (includes objectPrototypeKeys (field_name field)); cbn [fst snd].
    + destruct (Hwritten VUndefined)
        as (Hdirty & Hval & Hlock & Hsame & Hothers).
      now repeat split.
    + repeat split; reflexivity.
Qed.

(** X16.  A reset clears the token, so the result of a field validation
    that was started before it never lands: whatever results arrive
    afterwards, in whatever order, every field keeps the [valid] and the
    [errors] the reset left. *)
Theorem resets_drop_results_in_flight s run (es : list Event) :
  fieldResults es ->
  initialStateKept s ->
  (List.NoDup (map fst (fields s)) ->
   (forall key, In key (map fst (fields s)) ->
      is_Some (getProp key (initialFields s))) ->
   let s' := snd (fst (resetForm s run)) in
   forall path',
     validation (getField path' (steps s' es)) = validation (getField path' s'))
  /\ (forall path field,
        getField path s = Some field ->
        is_Some (getProp (field_name field) (initialFields s)) ->
        let s' := snd (fst (fieldReset path s run)) in
        forall path',
          validation (getField path' (steps s' es))
          = validation (getField path' s')).
Proof.
  intros Hes Hkept. apply fieldResults_stale in Hes. split.
  - intros Hnd Hinit s'.
    destruct (resetForm_lock s run Hkept Hnd Hinit) as [_ Hlock].
    fold s' in Hlock.
    apply stale_results_keep_fields. now rewrite Hlock.
  - intros path field Hfield [e He] s'.
    pose proof (fieldReset_result path s run field Hkept Hfield) as Hresult.
    cbv zeta in Hresult. rewrite He in Hresult.
    destruct Hresult as (n & Hresult).
    assert (formValidationLock s' = None) as Hlock.
    { subst s'. now rewrite Hresult. }
    apply stale_results_keep_fields. now rewrite Hlock.
Qed.

End ResetsInFlight.

(** The second field of the edited form is reset on its own; a field named
    [constructor] of a form that was made without it is given
    [undefined]. *)
Lemma fieldReset_restores_witness :
  let field := sampleField "input2" (VStr "world!") false [VStr "error3"] in
  let out := fst (fieldReset (Top "input2") editedForm (freshRun 0)) in
  let odd : @FormState nat :=
    newFormState
      [("constructor", Single (sampleField "constructor" (VStr "x") true []))]
      [] None in
  getField (Top "input2") editedForm = Some field
  /\ fst out = None
  /\ formValidationLock (snd out) = None
  /\ getField (Top "input2") (snd out)
     = Some {| field_value := VStr "world";
               field_name := "input2";
               fieldRules := [];
               field_dirty := false;
               field_touched := false;
               field_valid := true;
               field_focused := false;
               field_errors := [];
               field_pending := false;
               fieldPrevValue := VStr "world!" |}
  /\ getField (Top "input1") (snd out) = getField (Top "input1") editedForm
  /\ field_value
       <$> getField (Top "constructor")
             (snd (fst (fieldReset (Top "constructor") odd (freshRun 0))))
     = Some VUndefined.
Proof.
  intros field out odd.
  assert (Hfield : getField (Top "input2") editedForm = Some field)
    by reflexivity.
  split; [exact Hfield|].
  destruct (fieldReset_restores (Top "input2") editedForm (freshRun 0) field
              editedForm_kept editedForm_ordinary Hfield)
    as (_ & _ & Hok & Hlock & [n Hsame] & Hothers).
  split; [exact Hok|]. split; [exact Hlock|]. split; [exact Hsame|].
  split; [apply Hothers; discriminate|].
  assert (Hkept : initialStateKept odd).
  { split; [constructor|]. split; [|constructor]. intros (key & [] & _). }
  destruct (fieldReset_restores (Top "constructor") odd (freshRun 0)
              (sampleField "constructor" (VStr "x") true []) Hkept
              (List.Forall_nil _) eq_refl)
    as (_ & _ & _ & _ & Hsame' & _).
  now rewrite Hsame'.
Defined.

Lemma resets_drop_results_in_flight_witness :
  let late :=
    [FieldSettles "old" (Top "input1")
       {| valid := false; errors := [VStr "late"] |};
     FieldSettles "older" (Top "input2") {| valid := true; errors := [] |}] in
  let s' := snd (fst (resetForm editedForm (freshRun 0))) in
  fieldResults late
  /\ validation (getField (Top "input1") (steps s' late)) = Some (true, []).
Proof.
  intros late s'.
  assert (Hlate : fieldResults late) by (repeat constructor).
  split; [exact Hlate|].
  destruct (resets_drop_results_in_flight editedForm (freshRun 0) late Hlate
              editedForm_kept) as [Hform _].
  rewrite Hform; [reflexivity| |].
  - repeat constructor; cbn; intuition discriminate.
  - intros key [<-|[<-|[]]]; cbn; eauto.
Defined.

(** ** Whole passes *)

Section Passes.
Context {W : Type}.
Implicit Types (s : @FormState W) (f field : @Field W) (run : @Run W)
  (rules : list (@InternalRule W)).

Lemma processValidationObject_calls_always (r : @InternalRule W) args run :
  calls (snd (processValidationObject r args true true run))
  = calls run ++ match rule r with Some _ => [args; args] | None => [] end.
Proof.
  unfold processValidationObject.
  destruct (rule r) as [g|]; [|cbn; now rewrite app_nil_r].
  rewrite !andb_false_r. cbn [orb]. unfold bind.
  pose proof (invoke_calls g args run) as Hfirst.
  destruct (invoke g args run) as [first run1]. cbn [snd] in Hfirst.
  rewrite andb_false_r, invoke_calls, Hfirst, <- app_assoc. reflexivity.
Qed.

Lemma mapM_calls_always rules args run :
  calls (snd (mapM (fun v => processValidationObject v args true true)
                rules run))
  = calls run ++ invocations rules args.
Proof.
  revert run. induction rules as [|r rules IH]; intros run.
  - cbn. now rewrite app_nil_r.
  - cbn [mapM]. unfold bind at 1.
    pose proof (processValidationObject_calls_always r args run) as Hr.
    destruct (processValidationObject r args true true run) as [y run1].
    cbn [snd] in Hr. unfold bind at 1. specialize (IH run1).
    destruct (mapM _ rules run1) as [ys run2]. cbn [snd] in IH |- *.
    unfold ret. cbn [snd]. rewrite IH, Hr. unfold invocations.
    cbn [flat_map]. now rewrite app_assoc.
Qed.

Lemma validate_begin_always path field rules s run :
  let out :=
    validate_begin path field rules
      {| promise := Some true; alwaysValidate := Some true |} s run in
  calls (snd out) = calls run ++ invocations rules (fieldArguments field)
  /\ snd (fst out) = updateField path (setFieldPending true) s.
Proof.
  unfold validate_begin, validateInternal, bind. cbn [default mbind option_bind
    promise alwaysValidate].
  pose proof (mapM_calls_always rules (fieldArguments field) run) as Hcalls.
  unfold fieldArguments in Hcalls at 1.
  destruct (mapM _ rules run) as [results run1]. cbn [snd] in Hcalls.
  cbn. split; [exact Hcalls|reflexivity].
Qed.

Lemma foldM_cons {A B} (g : A -> B -> @M W B) (x : A) (xs : list A) (b : B)
    run :
  foldM g (x :: xs) b run = foldM g xs (fst (g x b run)) (snd (g x b run)).
Proof. cbn [foldM]. unfold bind. now destruct (g x b run). Qed.

Lemma validateForm_fold (xs : list (FieldPath * @Field W)) :
  forall (waiting : Pending) s run,
    let out :=
      foldM (fun '(path, field) '(waiting, s) =>
               bind (validate_begin path field (fieldRules field)
                       {| promise := Some true; alwaysValidate := Some true |}
                       s)
                 (fun started =>
                    ret (waiting ++ [(path, fst started)], snd started)))
        xs (waiting, s) run in
    map fst (fst (fst out)) = map fst waiting ++ map fst xs
    /\ calls (snd out)
       = calls run
         ++ flat_map (fun pf => invocations (fieldRules (snd pf))
                                  (fieldArguments (snd pf))) xs
    /\ formValidationLock (snd (fst out)) = formValidationLock s
    /\ form_pending (snd (fst out)) = form_pending s
    /\ forall path,
        validation (getField path (snd (fst out)))
        = validation (getField path s).
Proof.
  match goal with
  | |- context [foldM ?g _ _ _] => set (start := g)
  end.
  induction xs as [|[path field] xs IH]; intros waiting s run.
  - cbn. rewrite !app_nil_r. repeat split; reflexivity.
  - cbv zeta. rewrite foldM_cons.
    assert (exists settles run1,
               start (path, field) (waiting, s) run
               = (waiting ++ [(path, settles)],
                  updateField path (setFieldPending true) s, run1)
               /\ calls run1
                  = calls run
                    ++ invocations (fieldRules field) (fieldArguments field))
      as (settles & run1 & -> & Hcalls).
    { unfold start, bind, ret.
      destruct (validate_begin_always path field (fieldRules field) s run)
        as [Hcalls Hstate].
      destruct (validate_begin path field (fieldRules field) _ s run)
        as [[settles s1] run1].
      cbn [fst snd] in Hcalls, Hstate. subst s1.
      exists settles, run1. split; [reflexivity|exact Hcalls]. }
    cbn [fst snd].
    specialize (IH (waiting ++ [(path, settles)])
                  (updateField path (setFieldPending true) s) run1).
    cbv zeta in IH. destruct IH as (Hpaths & Hlog & Hlock & Hpending & Hfields).
    split; [|split; [|split; [|split]]].
    + etransitivity; [exact Hpaths|].
      rewrite map_app, <- app_assoc. reflexivity.
    + etransitivity; [exact Hlog|].
      rewrite Hcalls, <- app_assoc. reflexivity.
    + etransitivity; [exact Hlock|apply updateField_lock].
    + etransitivity; [exact Hpending|].
      now destruct (updateField_flags path (setFieldPending true) s)
        as (_ & _ & -> & _).
    + intros path'.
      etransitivity; [apply Hfields|apply validation_pending_write].
Qed.

(** X17.  [validateForm] starts one validation for every field of
    [getAllFields], in that order, whether the field changed or not and
    whatever [formIgnoreValidation] says; each rule that has a callable is
    invoked twice with the field's value, its name and the form, whatever
    its [autoValidate] says.  Up to its first [await] it stores its token
    and sets [pending], and writes no field's [valid] or [errors].
    [validateField] does the same for its one field, with the rules it is
    given in place of the field's own. *)
Theorem validateForm_begin_validates_all (id : string) s run :
  let out := validateForm_begin id s run in
  map fst (fst (fst out)) = map fst (getAllFieldsAt s)
  /\ calls (snd out)
     = calls run
       ++ flat_map (fun pf => invocations (fieldRules (snd pf))
                                (fieldArguments (snd pf))) (getAllFieldsAt s)
  /\ formValidationLock (snd (fst out)) = Some id
  /\ form_pending (snd (fst out)) = true
  /\ (forall path,
        validation (getField path (snd (fst out)))
        = validation (getField path s))
  /\ forall path field validationFunction,
      let one := validateField_begin id path field validationFunction s run in
      calls (snd one)
      = calls run
        ++ invocations
             (match validationFunction with
              | Some fn => createValidationObject (Some fn)
              | None => fieldRules field
              end)
             (fieldArguments field).
Proof.
  intros out. subst out. unfold validateForm_begin.
  pose proof (validateForm_fold (getAllFieldsAt s) []
                (setFormPending true (createValidateFieldFunction id s)) run)
    as Hfold.
  cbv zeta in Hfold. destruct Hfold as (Hpaths & Hlog & Hlock & Hpending & Hf).
  split; [exact Hpaths|]. split; [exact Hlog|]. split; [exact Hlock|].
  split; [exact Hpending|]. split; [exact Hf|].
  intros path field validationFunction. cbv zeta.
  unfold validateField_begin.
  now destruct (validate_begin_always path field
                  (match validationFunction with
                   | Some fn => createValidationObject (Some fn)
                   | None => fieldRules field
                   end)
                  (setFormPending true (createValidateFieldFunction id s)) run).
Qed.

End Passes.

(** ** The derived state *)

Section Derived.
Context {W : Type}.
Implicit Types (s : @FormState W) (f field : @Field W).

Lemma fold_setProp {A} (g : string -> A) (keys : list string) :
  forall acc : list (string * A),
    List.NoDup keys ->
    (forall key, In key keys -> ~ In key (map fst acc)) ->
    fold_left (fun acc key => setProp key (g key) acc) keys acc
    = acc ++ map (fun key => (key, g key)) keys.
Proof.
  induction keys as [|k keys IH]; intros acc Hnd Hfresh.
  - cbn. now rewrite app_nil_r.
  - apply List.NoDup_cons_iff in Hnd as [Hk Hnd]. cbn [fold_left map].
    rewrite setProp_fresh by (apply Hfresh; now left).
    rewrite IH; [now rewrite <- app_assoc|exact Hnd|].
    intros key Hkey. rewrite map_app, in_app_iff. cbn.
    intros [Hin|[<-|[]]]; [|contradiction].
    apply (Hfresh key); [now right|exact Hin].
Qed.

Lemma getProp_tabulated {A} (g : string -> A) (keys : list string)
    (key : string) :
  In key keys -> getProp key (map (fun k => (k, g k)) keys) = Some (g key).
Proof.
  induction keys as [|k keys IH]; intros Hin; [destruct Hin|].
  cbn [map getProp]. destruct (String.eqb_spec k key) as [->|Hne];
    [reflexivity|].
  destruct Hin as [->|Hin]; [contradiction|now apply IH].
Qed.

Lemma values_tabulated s :
  List.NoDup (map fst (fields s)) ->
  values s
  = map (fun key =>
           (key,
            match getProp key (fields s) with
            | Some (Single f) => field_value f
            | _ => VUndefined
            end))
      (map fst (fields s)).
Proof.
  intros Hnd. unfold values. rewrite fold_setProp; [reflexivity|exact Hnd|].
  intros key _ [].
Qed.

Lemma values_field s (key : string) f :
  List.NoDup (map fst (fields s)) ->
  getField (Top key) s = Some f ->
  getProp key (values s) = Some (field_value f).
Proof.
  intros Hnd Hf. rewrite values_tabulated by exact Hnd.
  cbn [getField] in Hf.
  destruct (getProp key (fields s)) as [[f'|rows]|] eqn:Hget; try discriminate.
  injection Hf as ->.
  rewrite getProp_tabulated; [now rewrite Hget|].
  destruct (in_dec string_dec key (map fst (fields s))) as [Hin|Hout];
    [exact Hin|].
  rewrite (getProp_None _ _ Hout) in Hget. discriminate.
Qed.

(** X18.  The computed [values] of a form has the form's keys, in their
    order, each with the [value] of its field; and what [setFields]
    assigned is what [values] reads back. *)
Theorem values_read_back (vals : list (string * Value))
    (options : option SetFieldsOptions) s :
  List.NoDup (map fst (fields s)) ->
  map fst (values s) = map fst (fields s)
  /\ (forall key f,
        getField (Top key) s = Some f ->
        getProp key (values s) = Some (field_value f))
  /\ (fst (formSetFields vals options s) = None ->
      List.NoDup (map fst vals) ->
      forall key v f,
        In (key, v) vals -> getField (Top key) s = Some f ->
        getProp key (values (snd (formSetFields vals options s))) = Some v).
Proof.
  intros Hnd. split; [|split].
  - rewrite values_tabulated by exact Hnd.
    rewrite map_map. cbn [fst]. apply map_id.
  - intros key f. now apply values_field.
  - intros Hok Hvals key v f Hin Hf. unfold formSetFields in *.
    set (s2 := setFormIgnoreDirty _ (setFormIgnoreValidation _ s)) in *.
    rewrite (values_field _ key (setFieldValue v f)); [reflexivity| |].
    + now rewrite assignValues_keys.
    + now apply assignValues_value.
Qed.

Lemma plain_entries_valid (l : list (@FieldEntry W)) :
  (forall e, In e l -> isArrayField e = false) ->
  forallb (fun e => negb (entryInvalid (Some e))) l
  = forallb field_valid
      (flat_map (fun e => match e with Single f => [f] | Rows _ => [] end) l).
Proof.
  induction l as [|e l IH]; intros Hplain; [reflexivity|].
  cbn [forallb flat_map]. rewrite forallb_app, IH by (intros; apply Hplain; now right).
  pose proof (Hplain e (or_introl eq_refl)) as He.
  destruct e as [f|rows]; [|discriminate He].
  cbn. now rewrite negb_involutive, andb_true_r.
Qed.

(** X19.  When no field is valid with errors left on it and the form
    rules' result is valid exactly when it has no error, the [valid] that
    the watcher of [formState.errors] derives after [collectErrors] is the
    [valid] that [collectErrors] returned, on a form with no array entry.
    On a form with an array entry the watcher finds the form invalid,
    whatever the fields say.  The watcher changes neither the fields nor
    the errors. *)
Theorem errorsWatcher_agrees s (vr : option InternalValidationResult) :
  (forall f, In f (getAllFields s) ->
             field_valid f = true -> field_errors f = []) ->
  (forall r, vr = Some r -> (valid r = true <-> errors r = [])) ->
  let out := collectErrors s vr in
  ((forall e, In e (map snd (fields s)) -> isArrayField e = false) ->
   form_valid (errorsWatcher (snd out)) = fv_valid (fst out))
  /\ ((exists e, In e (map snd (fields s)) /\ isArrayField e = true) ->
      form_valid (errorsWatcher (snd out)) = false)
  /\ fields (errorsWatcher (snd out)) = fields s
  /\ form_errors (errorsWatcher (snd out)) = fv_errors (fst out).
Proof.
  intros Hfields Hrules out. subst out.
  split; [|split; [|split; reflexivity]].
  - intros Hplain.
    unfold errorsWatcher, collectErrors.
    cbn [fst snd form_valid setFormValid fields form_errors setErrorFields
         setFormErrors fv_valid].
    rewrite plain_entries_valid by exact Hplain.
    destruct (plain_form_fields s Hplain) as [Hrows _].
    unfold getAllFields in *. rewrite Hrows, app_nil_r in *.
    fold (plainFields s).
    destruct (forallb field_valid (plainFields s)) eqn:Hall; [|reflexivity].
    cbn [andb].
    rewrite flat_map_nil.
    + cbn [app]. destruct vr as [r|]; [|reflexivity]. cbn.
      pose proof (Hrules r eq_refl) as Hr.
      destruct (valid r), (errors r) as [|x rest]; cbn; try reflexivity.
      * discriminate (proj1 Hr eq_refl).
      * discriminate (proj2 Hr eq_refl).
    + intros f Hf. apply Hfields; [exact Hf|].
      now apply (proj1 (forallb_forall _ _) Hall).
  - intros (e & He & Harr).
    unfold errorsWatcher, collectErrors.
    cbn [fst snd form_valid setFormValid fields form_errors setErrorFields
         setFormErrors].
    destruct (forallb _ (map snd (fields s))) eqn:Hall; [|reflexivity].
    pose proof (proj1 (forallb_forall _ _) Hall e He) as Hvalid.
    destruct e as [f|rows]; [discriminate Harr|discriminate Hvalid].
Qed.

End Derived.

Lemma values_read_back_witness :
  let vals := [("input2", VStr "there")] in
  List.NoDup (map fst (fields editedForm))
  /\ values (snd (formSetFields vals None editedForm))
     = [("input1", VStr "hello!"); ("input2", VStr "there")]
  /\ getProp "input2" (values (snd (formSetFields vals None editedForm)))
     = Some (VStr "there").
Proof.
  intros vals.
  assert (Hnd : List.NoDup (map fst (fields editedForm))).
  { repeat constructor; cbn; intuition discriminate. }
  split; [exact Hnd|]. split; [reflexivity|].
  destruct (values_read_back vals None editedForm Hnd) as (_ & _ & Hback).
  apply (Hback eq_refl) with
    (f := sampleField "input2" (VStr "world!") false [VStr "error3"]).
  - repeat constructor. cbn. intuition.
  - now left.
  - reflexivity.
Defined.

Lemma errorsWatcher_agrees_witness :
  let out := collectErrors editedForm None in
  form_valid editedForm = true
  /\ fv_valid (fst out) = false
  /\ form_valid (errorsWatcher (snd out)) = false.
Proof.
  intros out. split; [reflexivity|]. split; [reflexivity|].
  destruct (errorsWatcher_agrees editedForm None) as (Hplain & _).
  - intros f [<-|[<-|[]]]; discriminate.
  - discriminate.
  - apply Hplain. intros e [<-|[<-|[]]]; reflexivity.
Defined.

(** ** What a run of the watcher leaves behind *)

Lemma deepEqualItems_clone_any (items : list Value) :
  Forall (fun x => forall n m p,
              deepEqual (fst (cloneDeep x n)) p
              = deepEqual (fst (cloneDeep x m)) p)
    items ->
  forall n m ys,
    deepEqualItems (fst (cloneItems items n)) ys
    = deepEqualItems (fst (cloneItems items m)) ys.
Proof.
  induction 1 as [|x rest Hx _ IH]; intros n m ys; [reflexivity|].
  cbn [cloneItems].
  destruct (cloneDeep x n) as [y n1] eqn:Hn, (cloneDeep x m) as [y' m1] eqn:Hm.
  specialize (IH n1 m1).
  destruct (cloneItems rest n1) as [zs n2], (cloneItems rest m1) as [zs' m2].
  cbn [fst] in *. destruct ys as [|p ys]; [reflexivity|].
  cbn [deepEqualItems]. rewrite IH. f_equal.
  specialize (Hx n m p). now rewrite Hn, Hm in Hx.
Qed.

Lemma deepEqualProps_clone_any (props : list (string * Value)) :
  Forall (fun kv => forall n m p,
              deepEqual (fst (cloneDeep (snd kv) n)) p
              = deepEqual (fst (cloneDeep (snd kv) m)) p)
    props ->
  forall n m qs,
    deepEqualProps (fst (cloneProps props n)) qs
    = deepEqualProps (fst (cloneProps props m)) qs.
Proof.
  induction 1 as [|[key x] rest Hx _ IH]; intros n m qs; [reflexivity|].
  cbn [cloneProps]. cbn [snd] in Hx.
  destruct (cloneDeep x n) as [y n1] eqn:Hn, (cloneDeep x m) as [y' m1] eqn:Hm.
  specialize (IH n1 m1).
  destruct (cloneProps rest n1) as [zs n2], (cloneProps rest m1) as [zs' m2].
  cbn [fst] in *. destruct qs as [|[k p] qs]; [reflexivity|].
  cbn [deepEqualProps]. rewrite IH. f_equal. f_equal.
  specialize (Hx n m p). now rewrite Hn, Hm in Hx.
Qed.

(** Whenever a copy was made, it compares alike. *)
Lemma deepEqual_clone_any (v : Value) :
  forall n m p,
    deepEqual (fst (cloneDeep v n)) p = deepEqual (fst (cloneDeep v m)) p.
Proof.
  induction v as [| |b|z| |s|ref items IH|ref props IH|st IH|]
    using Value_nested_ind; intros n m p; try reflexivity.
  - rewrite !cloneDeep_array. cbn [fst].
    destruct p; try reflexivity. rewrite !deepEqual_array.
    now apply deepEqualItems_clone_any.
  - rewrite !cloneDeep_object. cbn [fst].
    destruct p; try reflexivity. rewrite !deepEqual_object.
    now apply deepEqualProps_clone_any.
Qed.

Section WatcherRuns.
Context {W : Type}.
Implicit Types (s : @FormState W) (f field : @Field W) (run : @Run W).

(** Whether a field counts as changed does not depend on when it is asked. *)
Lemma isUnequal_any_run f run run' :
  fst (isUnequal f run) = fst (isUnequal f run').
Proof.
  unfold isUnequal.
  destruct (negb (isArray (field_value f))
            || negb (typeofObject (field_value f))); [reflexivity|].
  unfold bind, ret, cloneDeepM.
  pose proof (deepEqual_clone_any (field_value f) (nextRef run) (nextRef run')
                (fieldPrevValue f)) as Hany.
  destruct (cloneDeep (field_value f) (nextRef run)) as [c n1].
  destruct (cloneDeep (field_value f) (nextRef run')) as [c' n2].
  cbn [fst] in *. now rewrite Hany.
Qed.

Lemma filterM_cons {A} (p : A -> @M W bool) (x : A) (xs : list A) run :
  filterM p (x :: xs) run
  = (if fst (p x run)
     then x :: fst (filterM p xs (snd (p x run)))
     else fst (filterM p xs (snd (p x run))),
     snd (filterM p xs (snd (p x run)))).
Proof.
  cbn [filterM]. unfold bind, ret. destruct (p x run) as [keep run1].
  cbn [fst snd]. now destruct (filterM p xs run1).
Qed.

Lemma filterM_isUnequal (xs : list (FieldPath * @Field W)) : forall run,
  List.NoDup (map fst xs) ->
  let kept := fst (filterM (fun pf => isUnequal (snd pf)) xs run) in
  (forall x, In x kept -> In x xs)
  /\ List.NoDup (map fst kept)
  /\ forall x, In x xs ->
       In x kept
       \/ (~ In (fst x) (map fst kept)
           /\ exists r, fst (isUnequal (snd x) r) = false).
Proof.
  induction xs as [|x xs IH]; intros run Hnd.
  - cbn. split; [tauto|]. split; [constructor|]. intros x [].
  - cbn [map] in Hnd. apply List.NoDup_cons_iff in Hnd as [Hx Hnd].
    cbv zeta. rewrite filterM_cons. cbn [fst].
    destruct (IH (snd (isUnequal (snd x) run)) Hnd) as (Hsub & Hkept & Hall).
    set (kept := fst (filterM _ xs _)) in *.
    assert (~ In (fst x) (map fst kept)) as Hfresh.
    { intros Hin. apply Hx. apply in_map_iff in Hin as (y & Hy & Hin).
      apply in_map_iff. exists y. split; [exact Hy|now apply Hsub]. }
    destruct (fst (isUnequal (snd x) run)) eqn:Hkeep.
    + split; [|split].
      * intros y [<-|Hy]; [now left|right; now apply Hsub].
      * cbn [map]. now constructor.
      * intros y [<-|Hy]; [left; now left|].
        destruct (Hall y Hy) as [Hin|[Hout Hr]]; [left; now right|].
        right. split; [|exact Hr]. cbn [map]. intros [Heq|Hin]; [|tauto].
        apply Hx. rewrite Heq. now apply in_map.
    + split; [|split].
      * intros y Hy. right. now apply Hsub.
      * exact Hkept.
      * intros y [<-|Hy]; [|now apply Hall].
        right. split; [exact Hfresh|]. now exists run.
Qed.

Lemma watcherPromise_state path field (waiting : Pending) s run :
  let s1 := snd (fst (watcherPromise (path, field) (waiting, s) run)) in
  (forall path', path <> path' -> getField path' s1 = getField path' s)
  /\ exists h : @Field W -> @Field W,
      getField path s1 = h <$> getField path s
      /\ forall f0,
          field_value (h f0) = field_value f0
          /\ fieldPrevValue (h f0)
             = fst (cloneDeep (field_value field) (nextRef run)).
Proof.
  unfold watcherPromise, bind, ret, cloneDeepM.
  destruct (cloneDeep (field_value field) (nextRef run)) as [clone n1].
  cbn [fst].
  set (s1 := updateField path (setFieldPrevValue clone) s).
  destruct (formIgnoreValidation s1).
  - cbn [fst snd]. split.
    + intros path' Hne. now apply getField_updateField_apart.
    + exists (setFieldPrevValue clone). split.
      * apply getField_updateField_same.
      * intros f0. split; reflexivity.
  - unfold validate_begin, bind, ret.
    destruct (validateInternal _ _ _ _) as [r run2]. cbn [fst snd]. split.
    + intros path' Hne. subst s1.
      now rewrite !getField_updateField_apart by exact Hne.
    + exists (fun f0 => setFieldPending true (setFieldPrevValue clone f0)).
      split.
      * subst s1. rewrite !getField_updateField_same.
        now destruct (getField path s).
      * intros f0. split; reflexivity.
Qed.

Lemma watcher_fold (xs : list (FieldPath * @Field W)) :
  forall (waiting : Pending) s run,
    List.NoDup (map fst xs) ->
    let s' := snd (fst (foldM watcherPromise xs (waiting, s) run)) in
    (forall path field f0,
        In (path, field) xs -> getField path s = Some f0 ->
        exists f' n,
          getField path s' = Some f'
          /\ field_value f' = field_value f0
          /\ fieldPrevValue f' = fst (cloneDeep (field_value field) n))
    /\ forall path, ~ In path (map fst xs) -> getField path s' = getField path s.
Proof.
  induction xs as [|[path field] xs IH]; intros waiting s run Hnd.
  - cbn. split; [intros path field f0 []|reflexivity].
  - cbn [map fst] in Hnd. apply List.NoDup_cons_iff in Hnd as [Hpath Hnd].
    cbv zeta. rewrite foldM_cons.
    destruct (watcherPromise_state path field waiting s run)
      as (Hothers & h & Hsame & Hh).
    destruct (watcherPromise (path, field) (waiting, s) run)
      as [[waiting1 s1] run1].
    cbn [fst snd] in *.
    destruct (IH waiting1 s1 run1 Hnd) as (Hin & Hout).
    split.
    + intros path' field' f0 [Heq|Hrest] Hf0.
      * injection Heq as <- <-.
        exists (h f0), (nextRef run). rewrite (Hout path Hpath), Hsame, Hf0.
        destruct (Hh f0) as [Hv Hp]. now split.
      * assert (path <> path') as Hne.
        { intros <-. apply Hpath. apply in_map_iff.
          now exists (path, field'). }
        apply (Hin path' field' f0 Hrest). now rewrite Hothers.
    + intros path' Hnot.
      rewrite Hout by (intros Hrest; apply Hnot; now right).
      apply Hothers. intros ->. apply Hnot. now left.
Qed.

Lemma validationWatcher_begin_parts (id : string) s run :
  let kept := filterM (fun pf => isUnequal (snd pf)) (getAllFieldsAt s) run in
  let s2 := setFormPending true (createValidateFieldFunction id s) in
  fst (fst (fst (validationWatcher_begin id s run))) = fst kept
  /\ snd (fst (validationWatcher_begin id s run))
     = snd (fst (foldM watcherPromise (fst kept) ([], s2) (snd kept))).
Proof.
  unfold validationWatcher_begin, bind, ret.
  destruct (filterM _ (getAllFieldsAt s) run) as [unequalValues run1].
  cbn [fst snd].
  now destruct (foldM watcherPromise unequalValues _ run1) as [[waiting s'] run2].
Qed.

(** X20.  On a form whose fields live at distinct places, a run of the
    watcher gives every field it found changed a copy of the field's value
    as its new snapshot and leaves the value alone; the places of the
    other fields hold what they held.  So a field whose value is an array
    of ordinary data without [NaN], [null], or not an object and not
    [NaN], is not found changed by the next run, whenever that is made,
    unless its value is assigned in between.  A field whose value is
    [NaN] is found changed by every run. *)
Theorem validationWatcher_takes_snapshots (id : string) s run :
  List.NoDup (map fst (getAllFieldsAt s)) ->
  (forall path f, In (path, f) (getAllFieldsAt s) -> getField path s = Some f) ->
  let out := validationWatcher_begin id s run in
  let changed := fst (fst (fst out)) in
  let s' := snd (fst out) in
  (forall x, In x changed -> In x (getAllFieldsAt s))
  /\ (forall path f,
        In (path, f) changed ->
        exists f' n,
          getField path s' = Some f'
          /\ field_value f' = field_value f
          /\ fieldPrevValue f' = fst (cloneDeep (field_value f) n))
  /\ (forall path, ~ In path (map fst changed) ->
        getField path s' = getField path s)
  /\ (forall path f f',
        In (path, f) (getAllFieldsAt s) ->
        steady (field_value f) ->
        getField path s' = Some f' ->
        forall run', fst (isUnequal f' run') = false)
  /\ (forall path f,
        In (path, f) (getAllFieldsAt s) ->
        field_value f = VNaN ->
        In (path, f) changed).
Proof.
  intros Hnd Haddr out changed s'. subst out changed s'.
  destruct (validationWatcher_begin_parts id s run) as [-> ->].
  destruct (filterM_isUnequal (getAllFieldsAt s) run Hnd)
    as (Hsub & Hkept & Hall).
  set (unequalValues := fst (filterM _ (getAllFieldsAt s) run)) in *.
  set (run1 := snd (filterM _ (getAllFieldsAt s) run)) in *.
  set (s2 := setFormPending true (createValidateFieldFunction id s)).
  destruct (watcher_fold unequalValues [] s2 run1 Hkept) as (Hin & Hout).
  set (s' := snd (fst (foldM watcherPromise unequalValues ([], s2) run1))) in *.
  assert (forall path f,
             In (path, f) unequalValues ->
             exists f' n,
               getField path s' = Some f'
               /\ field_value f' = field_value f
               /\ fieldPrevValue f' = fst (cloneDeep (field_value f) n))
    as Hchanged.
  { intros path f Hf. apply (Hin path f f Hf).
    change (getField path s2) with (getField path s).
    apply Haddr. now apply Hsub. }
  split; [exact Hsub|]. split; [exact Hchanged|]. split; [exact Hout|].
  split.
  - intros path f f' Hf Hkind Hf' run'.
    destruct (Hall (path, f) Hf) as [Hwas|[Hnot [r Hr]]]; cbn [fst snd] in *.
    + destruct (Hchanged path f Hwas) as (f1 & n & Hf1 & Hv & Hp).
      assert (Some f1 = Some f') as [= <-]
        by exact (eq_trans (eq_sym Hf1) Hf').
      apply (isUnequal_snapshot f1 run' n); rewrite Hv; assumption.
    + pose proof (eq_trans (eq_sym (Hout path Hnot)) Hf') as Hsame.
      assert (Some f = Some f') as [= <-]
        by exact (eq_trans (eq_sym (Haddr path f Hf)) Hsame).
      now rewrite (isUnequal_any_run f run' r).
  - intros path f Hf Hnan.
    destruct (Hall (path, f) Hf) as [Hwas|[_ [r Hr]]]; [exact Hwas|].
    cbn [snd] in Hr. now rewrite (isUnequal_NaN f r Hnan) in Hr.
Qed.

End WatcherRuns.

Lemma validationWatcher_takes_snapshots_witness :
  let s :=
    snd (formSetFields [("input1", VStr "new")]
           (Some {| opt_setDirty := None; opt_validate := Some true |})
           editedForm) in
  let out := validationWatcher_begin "token" s (freshRun 0) in
  List.NoDup (map fst (getAllFieldsAt s))
  /\ map fst (fst (fst (fst out))) = [Top "input1"]
  /\ exists f',
      getField (Top "input1") (snd (fst out)) = Some f'
      /\ fieldPrevValue f' = VStr "new"
      /\ fst (isUnequal f' (snd out)) = false.
Proof.
  intros s out.
  assert (Hnd : List.NoDup (map fst (getAllFieldsAt s))).
  { repeat constructor; cbn; intuition discriminate. }
  split; [exact Hnd|]. split; [reflexivity|].
  eexists. split; [reflexivity|]. split; [reflexivity|].
  destruct (validationWatcher_takes_snapshots "token" s (freshRun 0) Hnd)
    as (_ & _ & _ & Hquiet & _).
  { intros path f [[= <- <-]|[[= <- <-]|[]]]; reflexivity. }
  apply (Hquiet (Top "input1")
           (setFieldValue (VStr "new")
              (sampleField "input1" (VStr "hello!") false
                 [VStr "error1"; VStr "error2"]))).
  - left. reflexivity.
  - right. left. split; [reflexivity|discriminate].
  - reflexivity.
Defined.
